(** * Spectral Python (SPy): [spectral/algorithms/algorithms.py]

    A shallow embedding of the statistics and eigen-analysis routines of
    [algorithms.py], and the properties of them that the specification
    states.

    Scalars.  The program computes in IEEE double precision; here the
    scalars are the real numbers of the Standard Library, so every result
    below is a statement about the algorithm in exact arithmetic.  Where
    the program divides by zero (numpy yields nan or inf and goes on) the
    embedding says so, and the theorems make no promise about the values
    that come out of such a division.

    Element types.  An image carries the type of its elements.  Where
    the program computes on pixels in the type of the image, as
    [mean_cov] does when it multiplies a sample by itself, an image of
    integers computes in integers of its width and wraps around; where
    it converts to floats first, it does not.

    Arrays.  A rank-1 array is a [list R], a rank-2 array the list of its
    rows, an image the list of its rows of pixels together with its
    shape and its element type.

    Exceptions.  A call that may raise returns a [result]; a method that
    mutates its object returns the object as the call leaves it together
    with the outcome, so that a state left behind by an exception can be
    inspected. *)

From Stdlib Require Import String.
From Stdlib Require Import Reals Lra Lia List ZArith Bool Permutation.
From Stdlib Require Import ClassicalEpsilon ClassicalDescription.
Import ListNotations.

Open Scope string_scope.
Open Scope list_scope.
Open Scope R_scope.

(** ** Exceptions *)

Inductive exn : Type :=
| NameError (name : string)
| AttributeError (attr : string)
| LinAlgError
| ValueError
| IndexError
| TypeError
| ZeroDivisionError
| DuplicateIndexError.   (* Exception('Attempting to add class with duplicate index.') *)

Inductive result (A : Type) : Type :=
| Ok (a : A)
| Raise (e : exn).

Arguments Ok {A} a.
Arguments Raise {A} e.

Definition bind {A B : Type} (c : result A) (k : A -> result B) : result B :=
  match c with
  | Ok a => k a
  | Raise e => Raise e
  end.

Notation "x <- c ;; k" := (bind c (fun x => k))
  (at level 61, c at next level, right associativity).

Definition raises {A : Type} (c : result A) : Prop :=
  exists e, c = Raise e.

Definition returns {A : Type} (c : result A) : Prop :=
  exists a, c = Ok a.

(** ** Name resolution

    [algorithms.py] imports only the module [numpy] at the top level; the
    numpy functions it uses are imported inside each function.  A name is
    looked up in the locals of the running function, then in the globals
    of the module, then among the builtins. *)

Definition module_globals : list string :=
  [ "numpy"; "Iterator"; "ImageIterator"; "ImageMaskIterator"; "iterator";
    "mean_cov"; "covariance"; "principalComponents"; "linearDiscriminant";
    "lda"; "reduceEigenvectors"; "logDeterminant"; "GaussianStats";
    "TrainingClass"; "SampleIterator"; "TrainingClassSet";
    "createTrainingClasses"; "ndvi"; "bhattacharyyaDistance"; "bDistance";
    "bDistanceTerms"; "transformImage"; "orthogonalize"; "unmix";
    "spectralAngles" ].

Definition builtins : list string :=
  [ "sum"; "max"; "min"; "len"; "range"; "float"; "int"; "set";
    "isinstance"; "hasattr"; "Exception"; "NotImplementedError"; "None" ].

Definition bound (locals : list string) (name : string) : bool :=
  existsb (String.eqb name) (locals ++ module_globals ++ builtins).

Definition resolve (locals : list string) (name : string) : result unit :=
  if bound locals name then Ok tt else Raise (NameError name).

(** Locals of [ImageMaskIterator.__init__]: its parameters, no import. *)
Definition ImageMaskIterator_init_locals : list string :=
  [ "self"; "im"; "mask"; "index" ].

(** Locals of [TrainingClass.size]: [from numpy import sum, equal]. *)
Definition size_locals : list string :=
  [ "self"; "sum"; "equal" ].

(** ** Arrays *)

Abbreviation vec := (list R) (only parsing).
Abbreviation mat := (list (list R)) (only parsing).

Fixpoint map2 {A B C : Type} (f : A -> B -> C) (l1 : list A) (l2 : list B)
  : list C :=
  match l1, l2 with
  | x :: l1', y :: l2' => f x y :: map2 f l1' l2'
  | _, _ => []
  end.

Definition zeros (n : nat) : vec := repeat 0 n.
Definition zeros2 (n m : nat) : mat := repeat (zeros m) n.

Definition vadd : vec -> vec -> vec := map2 Rplus.
Definition vsub : vec -> vec -> vec := map2 Rminus.
Definition vscale (c : R) (a : vec) : vec := map (Rmult c) a.
Definition vdiv (a : vec) (c : R) : vec := map (fun x => x / c) a.

Definition madd : mat -> mat -> mat := map2 vadd.
Definition msub : mat -> mat -> mat := map2 vsub.
Definition mscale (c : R) (A : mat) : mat := map (vscale c) A.
Definition mdiv (A : mat) (c : R) : mat := map (fun r => vdiv r c) A.

(** [dot] of two rank-1 arrays. *)
Fixpoint vdot (a b : vec) : R :=
  match a, b with
  | x :: a', y :: b' => x * y + vdot a' b'
  | _, _ => 0
  end.

Definition nrows (A : mat) : nat := length A.
Definition ncols (A : mat) : nat := length (hd [] A).

(** [A[:, j]] *)
Definition col (j : nat) (A : mat) : vec := map (fun r => nth j r 0) A.

(** [A[:, :i]] *)
Definition cols_before (i : nat) (A : mat) : mat := map (firstn i) A.

(** [A[:, j] = w], in place. *)
Fixpoint set_nth (j : nat) (x : R) (r : vec) : vec :=
  match r, j with
  | [], _ => []
  | _ :: r', O => x :: r'
  | y :: r', S j' => y :: set_nth j' x r'
  end.

Definition set_col (j : nat) (w : vec) (A : mat) : mat :=
  map2 (fun r x => set_nth j x r) A w.

Definition transpose (A : mat) : mat := map (fun j => col j A) (seq 0 (ncols A)).

(** [x[:, newaxis]] *)
Definition newaxis (x : vec) : mat := map (fun a => [a]) x.

(** [dot] of two rank-2 arrays, and of a rank-2 with a rank-1 array. *)
Definition mmul (A B : mat) : mat :=
  map (fun r => map (fun j => vdot r (col j B)) (seq 0 (ncols B))) A.

Definition mvmul (A : mat) (v : vec) : vec := map (fun r => vdot r v) A.

Definition delta (i j : nat) : R := if Nat.eqb i j then 1 else 0.

(** [identity(n)] *)
Definition eye (n : nat) : mat :=
  map (fun i => map (fun j => delta i j) (seq 0 n)) (seq 0 n).

(** [diagonal(A)] *)
Definition diagonal (A : mat) : vec :=
  map (fun i => nth i (nth i A []) 0) (seq 0 (Nat.min (nrows A) (ncols A))).

(** A rank-2 array of shape [(n, m)]. *)
Definition Mat (n m : nat) (A : mat) : Prop :=
  length A = n /\ Forall (fun r => length r = m) A.

(** [dot], with numpy's check that the shapes are aligned. *)
Definition dot (A B : mat) : result mat :=
  if Nat.eqb (ncols A) (nrows B) then Ok (mmul A B) else Raise ValueError.

Definition dot_mv (A : mat) (v : vec) : result vec :=
  if Nat.eqb (ncols A) (length v) then Ok (mvmul A v) else Raise ValueError.

(** ** numpy.linalg and math

    [numpy.linalg.inv] in exact arithmetic: the inverse of a square
    matrix that has one, [LinAlgError] otherwise. *)

Definition is_inverse (A B : mat) : Prop :=
  Mat (nrows A) (nrows A) A /\ Mat (nrows A) (nrows A) B /\
  mmul A B = eye (nrows A) /\ mmul B A = eye (nrows A).

Definition invertible (A : mat) : Prop := exists B, is_inverse A B.

Definition inv (A : mat) : result mat :=
  match excluded_middle_informative (invertible A) with
  | left H => Ok (proj1_sig (constructive_indefinite_description _ H))
  | right _ => Raise LinAlgError
  end.

(** [numpy.linalg.det]: expansion along the first row. *)
Fixpoint remove_nth {A : Type} (j : nat) (l : list A) : list A :=
  match l, j with
  | [], _ => []
  | _ :: l', O => l'
  | x :: l', S j' => x :: remove_nth j' l'
  end.

Fixpoint alt_sum (sign : R) (terms : list R) : R :=
  match terms with
  | [] => 0
  | t :: ts => sign * t + alt_sum (- sign) ts
  end.

Fixpoint det_rec (n : nat) (A : mat) : R :=
  match n, A with
  | S n', r :: rest =>
      alt_sum 1
        (map (fun j => nth j r 0 * det_rec n' (map (remove_nth j) rest))
             (seq 0 (length r)))
  | _, _ => 1
  end.

Definition is_square (A : mat) : bool :=
  forallb (fun r => Nat.eqb (length r) (nrows A)) A.

Definition det (A : mat) : result R :=
  if is_square A then Ok (det_rec (nrows A) A) else Raise LinAlgError.

(** [math.log] and [math.sqrt] raise [ValueError] outside their domain. *)
Definition math_log (x : R) : result R :=
  if Rlt_dec 0 x then Ok (ln x) else Raise ValueError.

Definition math_sqrt (x : R) : result R :=
  if Rle_dec 0 x then Ok (sqrt x) else Raise ValueError.

Definition Rgtb (x y : R) : bool := if Rgt_dec x y then true else false.

(** [(x / s) >= f] as numpy evaluates it: a division by zero does not
    raise, it yields nan (for 0/0), which compares false with
    everything, or an infinity of the sign of [x]. *)
Definition ratio_ge (x s f : R) : bool :=
  if Req_dec_T s 0 then Rgtb x 0
  else if Rge_dec (x / s) f then true else false.

(** The eigen-solvers of [numpy.linalg] are not part of this repository:
    they are whatever the numerical library provides.  Eigenvalues are
    taken real, as they are for the symmetric matrices of this program. *)
Class Eigen : Type := {
  eigvals : mat -> list R;
  (** [eig] returns the eigenvalues and a matrix whose columns are the
      eigenvectors. *)
  eig : mat -> list R * mat
}.

(** A solver that reads the eigenvalues off the diagonal and returns the
    unit vectors: exact on diagonal matrices, and used only to evaluate
    the program on such inputs. *)
Definition diag_eigen : Eigen := {|
  eigvals := diagonal;
  eig := fun A => (diagonal A, eye (nrows A))
|}.

Definition Rsum (l : list R) : R := fold_right Rplus 0 l.

(** ** Images, masks and iterators *)

(** The type of the elements of an array, as far as the program depends
    on it: floating point, or integers of [bits] bits, signed or not,
    whose arithmetic wraps around. *)
Inductive typecode : Type :=
| Floating
| SignedInt (bits : nat)
| UnsignedInt (bits : nat).

(** The integer [z] as it is stored in an array of type [t]. *)
Definition wrap (t : typecode) (z : Z) : Z :=
  match t with
  | Floating => z
  | SignedInt bits =>
      ((z + 2 ^ (Z.of_nat bits - 1)) mod 2 ^ Z.of_nat bits
       - 2 ^ (Z.of_nat bits - 1))%Z
  | UnsignedInt bits => (z mod 2 ^ Z.of_nat bits)%Z
  end.

(** [dot] of two arrays of type [t]: the result has the type of its
    arguments, so that on integers the products and their sums wrap
    around.  An array of integers holds integers; [Int_part] reads them
    back from the reals that stand for them. *)
Definition dot_in (t : typecode) (A B : mat) : mat :=
  match t with
  | Floating => mmul A B
  | _ => map (map (fun r => IZR (wrap t (Int_part r)))) (mmul A B)
  end.

(** An [M x N x B] array of pixels, with the type of its elements. *)
Record ndimage : Type := {
  shape0 : nat;
  shape1 : nat;
  shape2 : nat;
  dtype : typecode;
  pixels : list (list vec)
}.

(** An [M x N] array of integer labels. *)
Definition labels : Type := list (list Z).

(** A Python integer is true when it is not zero; [None] is false. *)
Definition truthy (i : Z) : bool := negb (Z.eqb i 0).

Definition truthy_opt (i : option Z) : bool :=
  match i with
  | Some i => truthy i
  | None => false
  end.

(** [numpy.equal(mask, index)] and [numpy.not_equal(mask, 0)] *)
Definition np_equal (mask : labels) (index : Z) : list (list bool) :=
  map (map (fun l => Z.eqb l index)) mask.

Definition np_not_equal (mask : labels) (index : Z) : list (list bool) :=
  map (map (fun l => negb (Z.eqb l index))) mask.

(** [a.ravel()] *)
Definition ravel {A : Type} (a : list (list A)) : list A := concat a.

(** [sum] of an array of booleans. *)
Definition count_true (b : list bool) : nat := length (filter (fun x => x) b).

(** What the program asks of an iterator over pixels:
    [getNumElements], [getNumBands] and [__iter__]; [sample_type] is
    the type of the arrays that [__iter__] yields. *)
Record Iterator : Type := {
  getNumElements : nat;
  getNumBands : nat;
  sample_type : typecode;
  iter : list vec
}.

(** [ImageIterator]: it yields [self.image[i, j]], an array of the type
    of the image. *)
Definition ImageIterator (im : ndimage) : Iterator := {|
  getNumElements := shape0 im * shape1 im;
  getNumBands := shape2 im;
  sample_type := dtype im;
  iter := ravel (pixels im)
|}.

(** The pixels of [im] at which [bmask] is set, in row-major order. *)
Definition compress (bmask : list bool) (px : list vec) : list vec :=
  map snd (filter fst (combine bmask px)).

(** [ImageMaskIterator.__init__] followed by the methods of the object
    it builds.  Without a true [index] the constructor calls
    [not_equal], a name that is bound neither in the constructor nor in
    the module.  [__iter__] yields each sample [astype(typechar)], the
    type of the image. *)
Definition ImageMaskIterator (im : ndimage) (mask : labels) (index : option Z)
  : result Iterator :=
  bmask <- (if truthy_opt index
            then Ok (np_equal mask (match index with Some i => i | None => 0%Z end))
            else _ <- resolve ImageMaskIterator_init_locals "not_equal" ;;
                 Ok (np_not_equal mask 0)) ;;
  Ok {| getNumElements := count_true (ravel bmask);
        getNumBands := shape2 im;
        sample_type := dtype im;
        iter := compress (ravel bmask) (ravel (pixels im)) |}.

(** The first argument of [mean_cov]: an iterator, or an image with an
    optional mask and index. *)
Inductive source : Type :=
| FromIterator (it : Iterator)
| FromImage (im : ndimage) (mask : option labels) (index : option Z).

(** [iterator(image, mask, index)] *)
Definition iterator (s : source) : result Iterator :=
  match s with
  | FromIterator it => Ok it
  | FromImage im (Some mask) index => ImageMaskIterator im mask index
  | FromImage im None _ => Ok (ImageIterator im)
  end.

(** ** mean_cov *)

(** The state of the accumulation loop. *)
Record moments : Type := {
  count : nat;
  sumX : vec;
  sumX2 : mat
}.

(** One turn of the loop:
    [count += 1; sumX += x; x = x[:, newaxis]; sumX2 += dot(x, transpose(x))].
    The sample [x] is used in the type [t] in which the iterator yields
    it: [sumX] and [sumX2] are arrays of floats and the two additions
    are theirs, but the product [dot(x, transpose(x))] is formed in [t]
    before it is added. *)
Definition accumulate (t : typecode) (s : moments) (x : vec) : moments := {|
  count := S (count s);
  sumX := vadd (sumX s) x;
  sumX2 := madd (sumX2 s) (dot_in t (newaxis x) (transpose (newaxis x)))
|}.

(** The body of [mean_cov] once it holds an iterator: what it returns
    when the loop goes through.  The divisions are numpy's: with
    [count = 0] or [count = 1] they divide by zero, which does not
    raise and leaves nan or inf in the arrays returned.  The reals have
    neither: below two samples the mean and the covariance of the
    embedding stand for such arrays and their entries mean nothing;
    the callers that look into them, [calcStatistics] and
    [principalComponents], branch on the count. *)
Definition mean_cov_values (it : Iterator) : vec * mat * nat :=
  let B := getNumBands it in
  let s := fold_left (accumulate (sample_type it)) (iter it)
             {| count := 0; sumX := zeros B; sumX2 := zeros2 B B |} in
  let mean := vdiv (sumX s) (INR (count s)) in
  let sx := newaxis (sumX s) in
  let cov := mdiv (msub (sumX2 s) (mdiv (mmul sx (transpose sx)) (INR (count s))))
                  (INR (count s) - 1) in
  (mean, cov, count s).

(** At its first sample the loop reports progress as
    [float(count) / nSamples * 100.], a division of Python numbers: it
    raises when the iterator announced no element and yet yields one. *)
Definition mean_cov_of (it : Iterator) : result (vec * mat * nat) :=
  match getNumElements it, iter it with
  | O, _ :: _ => Raise ZeroDivisionError
  | _, _ => Ok (mean_cov_values it)
  end.

Definition mean_cov (s : source) : result (vec * mat * nat) :=
  it <- iterator s ;;
  mean_cov_of it.

(** ** reduceEigenvectors *)

Fixpoint cumsum_from (s : R) (l : vec) : vec :=
  match l with
  | [] => []
  | x :: l' => (s + x) :: cumsum_from (s + x) l'
  end.

Definition cumsum : vec -> vec := cumsum_from 0.

(** [for i in range: if cond(i): break]: the value of [i] after the
    loop: the index at which it broke, or the last of the range. *)
Fixpoint for_break (cond : nat -> bool) (range : list nat) (i : option nat)
  : option nat :=
  match range with
  | [] => i
  | k :: rest => if cond k then Some k else for_break cond rest (Some k)
  end.

Definition reduceEigenvectors (L : vec) (V : mat) (fraction : R)
  : result (vec * mat) :=
  let cumEig := cumsum L in
  match cumEig with
  | [] => Raise IndexError                      (* cumEig[-1] *)
  | _ =>
      let sum := last cumEig 0 in
      match for_break (fun i => ratio_ge (nth i cumEig 0) sum fraction)
                      (seq 0 (length L)) None with
      | None => Raise (NameError "i")
      | Some i =>
          if Nat.eqb i (length L - 1) then Ok (L, V)
          else Ok (firstn (i + 1) L, firstn (i + 1) V)
      end
  end.

(** ** logDeterminant, GaussianStats, TrainingClass *)

Definition logDeterminant {E : Eigen} (x : mat) : R :=
  Rsum (map ln (filter (fun eigv => Rgtb eigv 0) (eigvals x))).

(** An instance of [GaussianStats].  Its attributes other than
    [numSamples] exist only once they have been assigned. *)
Record GaussianStats : Type := {
  mean : option vec;
  cov : option mat;
  invCov : option mat;
  logDetCov : option R;
  numSamples : nat
}.

(** [GaussianStats()] *)
Definition new_GaussianStats : GaussianStats := {|
  mean := None; cov := None; invCov := None; logDetCov := None;
  numSamples := 0
|}.

Record TrainingClass : Type := {
  image : ndimage;
  numBands : nat;
  mask : labels;
  index : Z;
  classProb : R;
  _statsValid : bool;
  _size : nat;
  stats : option GaussianStats    (* absent until assigned *)
}.

(** [TrainingClass(image, mask, index, classProb)] *)
Definition new_TrainingClass (im : ndimage) (m : labels) (i : Z) (p : R)
  : TrainingClass := {|
  image := im; numBands := shape2 im; mask := m; index := i; classProb := p;
  _statsValid := false; _size := 0; stats := None
|}.

Definition attr {A : Type} (name : string) (a : option A) : result A :=
  match a with
  | Some x => Ok x
  | None => Raise (AttributeError name)
  end.

Definition with_stats (cl : TrainingClass) (st : GaussianStats) : TrainingClass := {|
  image := image cl; numBands := numBands cl; mask := mask cl;
  index := index cl; classProb := classProb cl;
  _statsValid := _statsValid cl; _size := _size cl; stats := Some st
|}.

(** [TrainingClass.__iter__] *)
Definition TrainingClass_iter (cl : TrainingClass) : result (list vec) :=
  it <- ImageMaskIterator (image cl) (mask cl) (Some (index cl)) ;;
  Ok (iter it).

(** [TrainingClass.size] *)
Definition size (cl : TrainingClass) : result nat :=
  if _statsValid cl then Ok (_size cl)
  else if truthy (index cl) then
    _ <- resolve size_locals "sum" ;;
    _ <- resolve size_locals "equal" ;;
    Ok (count_true (ravel (np_equal (mask cl) (index cl))))
  else
    _ <- resolve size_locals "sum" ;;
    _ <- resolve size_locals "not_equal" ;;
    Ok (count_true (ravel (np_not_equal (mask cl) 0))).

(** A method that mutates [self]: the object after the call, and the
    outcome of the call. *)
Definition method (A : Type) : Type := TrainingClass * result A.

(** [TrainingClass.calcStatistics].

    On fewer than two samples [mean_cov] has divided by zero and the
    covariance it returns, when the image has a band at all and the
    array an entry, is an array of nan (or inf): [inv] does not
    raise on such an array and returns an array of nan, which is
    assigned to [invCov]; it is [eigvals], called by [logDeterminant],
    that refuses an array that is not finite and raises [LinAlgError].
    The reals have no nan: the array [c] that stands for the covariance
    then stands for [invCov] as well, and its entries mean nothing. *)
Definition calcStatistics {E : Eigen} (cl : TrainingClass) : method unit :=
  (* self.stats = GaussianStats() *)
  let cl0 := with_stats cl new_GaussianStats in
  match mean_cov (FromImage (image cl) (Some (mask cl)) (Some (index cl))) with
  | Raise e => (cl0, Raise e)
  | Ok (m, c, n) =>
      let st1 := {| mean := Some m; cov := Some c; invCov := None;
                    logDetCov := None; numSamples := n |} in
      if Nat.ltb n 2 && negb (Nat.eqb (shape2 (image cl)) 0) then
        (with_stats cl {| mean := Some m; cov := Some c; invCov := Some c;
                          logDetCov := None; numSamples := n |},
         Raise LinAlgError)
      else
      match inv c with
      | Raise e => (with_stats cl st1, Raise e)
      | Ok ic =>
          let st2 := {| mean := Some m; cov := Some c; invCov := Some ic;
                        logDetCov := Some (logDeterminant c);
                        numSamples := n |} in
          ({| image := image cl; numBands := numBands cl; mask := mask cl;
              index := index cl; classProb := classProb cl;
              _statsValid := true; _size := n; stats := Some st2 |}, Ok tt)
      end
  end.

(** [for x in l: ... f(x) ...], stopping at the first exception. *)
Fixpoint traverse {A B : Type} (f : A -> result B) (l : list A)
  : result (list B) :=
  match l with
  | [] => Ok []
  | x :: l' =>
      y <- f x ;;
      ys <- traverse f l' ;;
      Ok (y :: ys)
  end.

(** [transformImage(matrix, image)] on an array: every pixel, as an
    array of floats, is multiplied by the matrix, and [dot] raises at
    the first pixel whose length is not the number of columns of the
    matrix.  The result is an array of floats. *)
Definition transformImage (X : mat) (im : ndimage) : result ndimage :=
  px <- traverse (traverse (dot_mv X)) (pixels im) ;;
  Ok {| shape0 := shape0 im;
        shape1 := shape1 im;
        shape2 := nrows X;
        dtype := Floating;
        pixels := px |}.

(** [try: math.log(det(c)) except: logDeterminant(c)] *)
Definition log_det_or_fallback {E : Eigen} (c : mat) : R :=
  match d <- det c ;; math_log d with
  | Ok l => l
  | Raise _ => logDeterminant c
  end.

Definition set_mean (st : GaussianStats) (m : vec) : GaussianStats := {|
  mean := Some m; cov := cov st; invCov := invCov st;
  logDetCov := logDetCov st; numSamples := numSamples st |}.

Definition set_cov (st : GaussianStats) (c : mat) : GaussianStats := {|
  mean := mean st; cov := Some c; invCov := invCov st;
  logDetCov := logDetCov st; numSamples := numSamples st |}.

Definition set_invCov (st : GaussianStats) (ic : mat) : GaussianStats := {|
  mean := mean st; cov := cov st; invCov := Some ic;
  logDetCov := logDetCov st; numSamples := numSamples st |}.

Definition set_logDetCov (st : GaussianStats) (l : R) : GaussianStats := {|
  mean := mean st; cov := cov st; invCov := invCov st;
  logDetCov := Some l; numSamples := numSamples st |}.

(** [TrainingClass.transform].  Each assignment to an attribute of
    [self.stats] takes effect as soon as its right-hand side has been
    evaluated; an exception leaves the assignments made before it. *)
Definition transform {E : Eigen} (X : mat) (cl : TrainingClass) : method unit :=
  match st <- attr "stats" (stats cl) ;;
        m <- attr "mean" (mean st) ;;
        m' <- dot_mv X m ;;
        Ok (st, m') with
  | Raise e => (cl, Raise e)
  | Ok (st, m') =>
      (* self.stats.mean = dot(X, self.stats.mean[:, newaxis])[:, 0] *)
      let st1 := set_mean st m' in
      match c <- attr "cov" (cov st1) ;;
            cX <- dot c (transpose X) ;;
            dot X cX with
      | Raise e => (with_stats cl st1, Raise e)
      | Ok c' =>
          (* self.stats.cov = dot(X, dot(self.stats.cov, transpose(X))) *)
          let st2 := set_cov st1 c' in
          match inv c' with
          | Raise e => (with_stats cl st2, Raise e)
          | Ok ic =>
              (* self.stats.invCov = inv(self.stats.cov) *)
              let st3 := set_invCov st2 ic in
              let st4 := set_logDetCov st3 (log_det_or_fallback c') in
              (* self.numBands = X.shape[0] *)
              let cl4 := {| image := image cl;
                            numBands := nrows X;
                            mask := mask cl; index := index cl;
                            classProb := classProb cl;
                            _statsValid := _statsValid cl; _size := _size cl;
                            stats := Some st4 |} in
              (* self.image = transformImage(X, self.image) *)
              match transformImage X (image cl) with
              | Raise e => (cl4, Raise e)
              | Ok im' =>
                  ({| image := im';
                      numBands := nrows X;
                      mask := mask cl; index := index cl;
                      classProb := classProb cl;
                      _statsValid := _statsValid cl; _size := _size cl;
                      stats := Some st4 |}, Ok tt)
              end
          end
      end
  end.

(** ** TrainingClassSet and createTrainingClasses *)

(** The dictionary [classes], in the order of insertion, and [numBands]. *)
Record TrainingClassSet : Type := {
  classes : list (Z * TrainingClass);
  set_numBands : option nat
}.

Definition new_TrainingClassSet : TrainingClassSet :=
  {| classes := []; set_numBands := None |}.

Definition has_key (d : list (Z * TrainingClass)) (k : Z) : bool :=
  existsb (fun e => Z.eqb (fst e) k) d.

Definition keys (d : list (Z * TrainingClass)) : list Z := map fst d.
Definition values (d : list (Z * TrainingClass)) : list TrainingClass := map snd d.

(** [TrainingClassSet.addClass] *)
Definition addClass (s : TrainingClassSet) (cl : TrainingClass)
  : result TrainingClassSet :=
  if has_key (classes s) (index cl) then Raise DuplicateIndexError
  else Ok {| classes := classes s ++ [(index cl, cl)];
             set_numBands :=
               match set_numBands s with
               | None | Some O => Some (numBands cl)   (* not self.numBands *)
               | Some n => Some n
               end |}.

(** [indices and not i in indices]: an absent and an empty [indices] are
    both false. *)
Definition excluded_by (indices : option (list Z)) (i : Z) : bool :=
  match indices with
  | None | Some [] => false
  | Some l => negb (existsb (Z.eqb i) l)
  end.

(** The loop of [createTrainingClasses] over the label values, taken in
    the order [order] in which the set yields them. *)
Fixpoint createTrainingClasses_loop {E : Eigen}
    (im : ndimage) (classMask : labels) (calcStats : bool)
    (indices : option (list Z)) (order : list Z) (s : TrainingClassSet)
  : result TrainingClassSet :=
  match order with
  | [] => Ok s
  | i :: rest =>
      if Z.eqb i 0 then
        createTrainingClasses_loop im classMask calcStats indices rest s
      else if excluded_by indices i then
        createTrainingClasses_loop im classMask calcStats indices rest s
      else
        let cl := new_TrainingClass im classMask i 1 in
        cl' <- (if calcStats
                then match calcStatistics cl with
                     | (c, Ok _) => Ok c
                     | (_, Raise e) => Raise e
                     end
                else Ok cl) ;;
        s' <- addClass s cl' ;;
        createTrainingClasses_loop im classMask calcStats indices rest s'
  end.

(** [set(classMask.ravel())]: the distinct labels.  Python does not fix
    the order in which a set is iterated. *)
Definition classIndices (classMask : labels) : list Z :=
  nodup Z.eq_dec (ravel classMask).

Definition createTrainingClasses {E : Eigen}
    (im : ndimage) (classMask : labels) (calcStats : bool)
    (indices : option (list Z)) : result TrainingClassSet :=
  createTrainingClasses_loop im classMask calcStats indices
    (classIndices classMask) new_TrainingClassSet.

(** ** Bhattacharyya distance *)

Definition bDistanceTerms {E : Eigen} (a b : TrainingClass) : result (R * R) :=
  sa <- attr "stats" (stats a) ;;
  ma <- attr "mean" (mean sa) ;;
  sb <- attr "stats" (stats b) ;;
  mb <- attr "mean" (mean sb) ;;
  let m := vsub ma mb in
  ca <- attr "cov" (cov sa) ;;
  cb <- attr "cov" (cov sb) ;;
  let avgCov := mdiv (madd ca cb) 2 in
  ic <- inv avgCov ;;
  let linTerm := (1 / 8) * vdot m (mvmul ic m) in
  la <- attr "logDetCov" (logDetCov sa) ;;
  lb <- attr "logDetCov" (logDetCov sb) ;;
  let quadTerm := 0.5 * (logDeterminant avgCov - 0.5 * la - 0.5 * lb) in
  Ok (linTerm, quadTerm).

Definition bhattacharyyaDistance {E : Eigen} (class1 class2 : TrainingClass)
  : result R :=
  terms <- bDistanceTerms class1 class2 ;;
  Ok (fst terms + snd terms).

(** ** orthogonalize *)

(** [v / sqrt(dot(v, v))] *)
Definition normalize (v : vec) : vec := vdiv v (sqrt (vdot v v)).

(** One turn of the loop of [orthogonalize], on column [i] of [basis]. *)
Definition orthogonalize_step (eyeN : mat) (basis : mat) (i : nat)
  : result mat :=
  let v := normalize (col i basis) in
  let U := cols_before i basis in
  G <- inv (mmul (transpose U) U) ;;
  let P := msub eyeN (mmul U (mmul G (transpose U))) in
  let basis1 := set_col i (mvmul P v) basis in
  Ok (set_col i (normalize (col i basis1)) basis1).

Fixpoint for_each {A : Type} (body : A -> nat -> result A) (range : list nat)
    (a : A) : result A :=
  match range with
  | [] => Ok a
  | i :: rest => a' <- body a i ;; for_each body rest a'
  end.

Definition orthogonalize (vecs : mat) (start : nat) : result mat :=
  let M := nrows vecs in
  let N := ncols vecs in
  let basis := transpose vecs in
  let eyeN := eye N in
  init <- (match start with
           | O =>
               match M with
               | O => Raise IndexError              (* basis[:, 0] *)
               | _ => Ok (set_col 0 (normalize (col 0 basis)) basis, 1%nat)
               end
           | _ => Ok (basis, start)
           end) ;;
  basis' <- for_each (orthogonalize_step eyeN)
              (seq (snd init) (M - snd init)) (fst init) ;;
  Ok (transpose basis').

(** ** linearDiscriminant *)

(** The first loop: total number of samples and the weighted sum of the
    class means.  A class without a [stats] attribute has its statistics
    calculated, which changes the class. *)
Fixpoint total_mean {E : Eigen} (cls : list TrainingClass) (N : nat)
    (mean_ : option vec) : list TrainingClass * result (nat * option vec) :=
  match cls with
  | [] => ([], Ok (N, mean_))
  | s :: rest =>
      let mean0 := match mean_ with
                   | None => zeros (numBands s)
                   | Some m => m
                   end in
      match size s with
      | Raise e => (cls, Raise e)
      | Ok n =>
          let (s1, r) := match stats s with
                         | None => calcStatistics s
                         | Some _ => (s, Ok tt)
                         end in
          match _ <- r ;;
                n1 <- size s1 ;;
                st <- attr "stats" (stats s1) ;;
                m <- attr "mean" (mean st) ;;
                Ok (vadd mean0 (vscale (INR n1) m)) with
          | Raise e => (s1 :: rest, Raise e)
          | Ok mean1 =>
              let (rest', r') := total_mean rest (N + n)%nat (Some mean1) in
              (s1 :: rest', r')
          end
      end
  end.

(** The second loop: within-class and between-class scatter. *)
Fixpoint scatter (cls : list TrainingClass) (mean_ : vec) (cov_b cov_w : mat)
  : result (mat * mat) :=
  match cls with
  | [] => Ok (cov_b, cov_w)
  | s :: rest =>
      n <- size s ;;
      st <- attr "stats" (stats s) ;;
      c <- attr "cov" (cov st) ;;
      let cov_w' := madd cov_w (mscale (INR n - 1) c) in
      ms <- attr "mean" (mean st) ;;
      let m := newaxis (vsub ms mean_) in
      n' <- size s ;;
      let cov_b' := madd cov_b (mscale (INR n') (mmul m (transpose m))) in
      scatter rest mean_ cov_b' cov_w'
  end.

(** [for i in range(vecs.shape[0]): vecs[i, :] /= math.sqrt(d[i].real)] *)
Fixpoint rescale (vecs : mat) (d : vec) : result mat :=
  match vecs, d with
  | r :: vecs', di :: d' =>
      s <- math_sqrt di ;;
      rest <- rescale vecs' d' ;;
      Ok (vdiv r s :: rest)
  | [], _ => Ok []
  | _ :: _, [] => Raise IndexError
  end.

(** The first half of [linearDiscriminant]: the between-class and the
    within-class covariance, [cov_b] and [cov_w]. *)
Definition scatter_matrices {E : Eigen} (cls : list TrainingClass)
  : list TrainingClass * result (mat * mat) :=
  let (cls1, r) := total_mean cls 0%nat None in
  (cls1,
   tm <- r ;;
   let N := fst tm in
   mean_ <- (match snd tm with
             | None => Raise TypeError            (* None /= float(N) *)
             | Some m => Ok (vdiv m (INR N))
             end) ;;
   let B := match cls with s :: _ => numBands s | [] => O end in
   sc <- scatter cls1 mean_ (zeros2 B B) (zeros2 B B) ;;
   let cov_w := mdiv (snd sc) (INR N) in
   let cov_b := mdiv (fst sc) (INR N) in
   Ok (cov_b, cov_w)).

(** The second half: the eigenvectors of [inv(cov_w) cov_b], the first
    [rank] of them, rescaled. *)
Definition discriminant_vectors {E : Eigen} (rank : nat) (cov_b cov_w : mat)
  : result (vec * mat * mat * mat) :=
  cwInv <- inv cov_w ;;
  let (vals, vecs) := eig (mmul cwInv cov_b) in
  let vals := firstn rank vals in
  let vecs := firstn rank (transpose vecs) in
  let v := mmul vecs (mmul cov_w (transpose vecs)) in
  let d := diagonal v in
  vecs' <- rescale vecs d ;;
  Ok (vals, vecs', cov_b, cov_w).

Definition linearDiscriminant {E : Eigen} (cls : list TrainingClass)
  : list TrainingClass * result (vec * mat * mat * mat) :=
  let rank := (length cls - 1)%nat in
  let (cls1, r) := scatter_matrices cls in
  (cls1,
   sc <- r ;;
   discriminant_vectors rank (fst sc) (snd sc)).

(** ** Vocabulary of the statements *)

(** Entry [(i, j)] of a rank-2 array. *)
Definition mnth (A : mat) (i j : nat) : R := nth j (nth i A []) 0.

(** [f 0 + ... + f (n - 1)] *)
Definition bigsum (n : nat) (f : nat -> R) : R := Rsum (map f (seq 0 n)).


(** The sum of [f x] over the samples [x] of a list. *)
Definition lsum {A : Type} (f : A -> R) (xs : list A) : R := Rsum (map f xs).

(** Symmetric and positive semi-definite matrices of size [n]. *)
Definition symmetric (n : nat) (A : mat) : Prop :=
  forall i j, (i < n)%nat -> (j < n)%nat -> mnth A i j = mnth A j i.

Definition positive_semidefinite (n : nat) (A : mat) : Prop :=
  forall v : vec, length v = n -> 0 <= vdot v (mvmul A v).





(** The rows of [A] are pairwise orthogonal and of unit norm. *)
Definition orthonormal_rows (A : mat) : Prop :=
  forall i j, (i < length A)%nat -> (j < length A)%nat ->
    vdot (nth i A []) (nth j A []) = delta i j.


(** What Gram-Schmidt leaves of [v] once its components along the first
    [i] columns of [basis] are taken away. *)
Definition residual (i : nat) (basis : mat) (v : vec) : vec :=
  map (fun r => nth r v 0
                - bigsum i (fun j => mnth basis r j * vdot (col j basis) v))
      (seq 0 (length v)).


(** A class that holds valid statistics for [B] bands. *)
Definition valid_class (B : nat) (s : TrainingClass) : Prop :=
  numBands s = B /\ _statsValid s = true /\
  exists st m c,
    stats s = Some st /\ mean st = Some m /\ cov st = Some c /\
    length m = B /\ Mat B B c /\ symmetric B c.

(** The labels that [indices] lets through: all of them when [indices]
    is absent or empty, its members otherwise. *)
Definition allowed (indices : option (list Z)) (i : Z) : Prop :=
  match indices with
  | None | Some [] => True
  | Some l => In i l
  end.

(** The labels for which [createTrainingClasses] makes a class. *)
Definition kept (indices : option (list Z)) (i : Z) : bool :=
  negb (Z.eqb i 0) && negb (excluded_by indices i).

(** Every class of the dictionary is stored under its own index. *)
Definition indexed (d : list (Z * TrainingClass)) : Prop :=
  Forall (fun e => index (snd e) = fst e) d.

(** ** Inputs for the examples *)

(** An image of one pixel and one band. *)
Definition unit_image : ndimage :=
  {| shape0 := 1; shape1 := 1; shape2 := 1; dtype := Floating;
     pixels := [[[1]]] |}.

(** Sources of one and of two samples of one band. *)
Definition one_sample : Iterator :=
  {| getNumElements := 1; getNumBands := 1; sample_type := Floating;
     iter := [[3]] |}.

(** A class of one band, with statistics in place. *)
Definition one_band_stats (m c ic l : R) : GaussianStats :=
  {| mean := Some [m]; cov := Some [[c]]; invCov := Some [[ic]];
     logDetCov := Some l; numSamples := 2 |}.

Definition one_band_class (m c ic l : R) : TrainingClass := {|
  image := unit_image; numBands := 1; mask := [[1%Z]]; index := 1;
  classProb := 1; _statsValid := true; _size := 2;
  stats := Some (one_band_stats m c ic l)
|}.

Definition two_samples : Iterator :=
  {| getNumElements := 2; getNumBands := 1; sample_type := Floating;
     iter := [[1]; [3]] |}.

(** Classes of one band and two samples, of covariance 1. *)
Definition band_class (i : Z) (m : R) : TrainingClass := {|
  image := unit_image; numBands := 1; mask := [[i]]; index := i;
  classProb := 1; _statsValid := true; _size := 2;
  stats := Some (one_band_stats m 1 1 0)
|}.

Definition two_classes : list TrainingClass :=
  [band_class 1 0; band_class 2 4].

Definition three_classes : list TrainingClass :=
  [band_class 1 0; band_class 2 3; band_class 3 6].


(** ** The rest of the module

    Exceptions that only the functions below raise. *)
Inductive error : Type :=
| Builtin (e : exn)
| AssertionError (msg : string)
| KeyError (key : Z)
| EOFError.

Inductive outcome (A : Type) : Type :=
| Return (a : A)
| Throw (e : error).

Arguments Return {A} a.
Arguments Throw {A} e.

Definition lift {A : Type} (r : result A) : outcome A :=
  match r with
  | Ok a => Return a
  | Raise e => Throw (Builtin e)
  end.

(** An image whose array of pixels has the shape it announces, and a
    mask of the shape of an image. *)
Definition image_shaped (im : ndimage) : Prop :=
  length (pixels im) = shape0 im /\
  Forall (fun row => length row = shape1 im) (pixels im) /\
  Forall (Forall (fun px => length px = shape2 im)) (pixels im).

Definition mask_shaped (im : ndimage) (m : labels) : Prop :=
  length m = shape0 im /\ Forall (fun row => length row = shape1 im) m.

(** [ImageMaskIterator.__iter__] casts the indices of the selected
    pixels to 16-bit integers ([astype('h')]): rows and columns beyond
    this bound are not reached as the embedding has it. *)
Definition short_indices (im : ndimage) : Prop :=
  (Z.of_nat (shape0 im) <= 32767)%Z /\ (Z.of_nat (shape1 im) <= 32767)%Z.

(** [TrainingClass.statsValid(tf)] *)
Definition statsValid (tf : bool) (cl : TrainingClass) : TrainingClass := {|
  image := image cl; numBands := numBands cl; mask := mask cl;
  index := index cl; classProb := classProb cl;
  _statsValid := tf; _size := _size cl; stats := stats cl
|}.

(** [TrainingClassSet.__getitem__] and [__len__] *)
Definition getitem (s : TrainingClassSet) (i : Z) : outcome TrainingClass :=
  match find (fun e => Z.eqb (fst e) i) (classes s) with
  | Some e => Return (snd e)
  | None => Throw (KeyError i)
  end.

Definition len (s : TrainingClassSet) : nat := length (classes s).

(** [TrainingClassSet.transform]: the classes are transformed one after
    the other, and [numBands] is set once all of them are. *)
Fixpoint transform_values {E : Eigen} (X : mat) (d : list (Z * TrainingClass))
  : list (Z * TrainingClass) * result unit :=
  match d with
  | [] => ([], Ok tt)
  | (k, cl) :: rest =>
      match transform X cl with
      | (cl', Raise e) => ((k, cl') :: rest, Raise e)
      | (cl', Ok _) =>
          let (rest', r) := transform_values X rest in
          ((k, cl') :: rest', r)
      end
  end.

Definition TrainingClassSet_transform {E : Eigen} (X : mat)
    (s : TrainingClassSet) : TrainingClassSet * result unit :=
  match transform_values X (classes s) with
  | (d, Raise e) =>
      ({| classes := d; set_numBands := set_numBands s |}, Raise e)
  | (d, Ok _) =>
      ({| classes := d; set_numBands := Some (nrows X) |}, Ok tt)
  end.

(** An image of two pixels of one band, all of them labelled 1. *)
Definition two_pixel_image : ndimage :=
  {| shape0 := 1; shape1 := 2; shape2 := 1; dtype := Floating;
     pixels := [[[1]; [3]]] |}.

Definition two_pixel_class : TrainingClass :=
  new_TrainingClass two_pixel_image [[1; 1]]%Z 1 1.

(** What [createTrainingClasses] makes of a label [k] of the mask [m] of
    the image [im]. *)
Definition made_from {E : Eigen} (im : ndimage) (m : labels) (calcStats : bool)
    (k : Z) (cl : TrainingClass) : Prop :=
  image cl = im /\ mask cl = m /\ index cl = k /\ classProb cl = 1 /\
  numBands cl = shape2 im /\
  (calcStats = false -> cl = new_TrainingClass im m k 1) /\
  (calcStats = true ->
   _statsValid cl = true /\
   exists mn c ic,
     stats cl = Some {| mean := Some mn; cov := Some c; invCov := Some ic;
                        logDetCov := Some (logDeterminant c);
                        numSamples := _size cl |} /\
     is_inverse c ic /\
     mean_cov (FromImage im (Some m) (Some k)) = Ok (mn, c, _size cl)).

Definition set_made {E : Eigen} (im : ndimage) (m : labels) (calcStats : bool)
    (s : TrainingClassSet) : Prop :=
  (forall k cl, In (k, cl) (classes s) -> made_from im m calcStats k cl) /\
  set_numBands s = match classes s with
                   | [] => None
                   | _ :: _ => Some (shape2 im)
                   end.

(** ** covariance and principalComponents *)

(** [covariance]: what [mean_cov] returns on the same arguments, at
    index 1. *)
Definition covariance (s : source) : result mat :=
  r <- mean_cov s ;;
  Ok (snd (fst r)).

(** [A * B], entry by entry, and [sum(A, 0)], the sums of the columns. *)
Definition multiply (A B : mat) : mat := map2 (map2 Rmult) A B.

Definition sum_axis0 (A : mat) : vec :=
  map (fun j => Rsum (col j A)) (seq 0 (ncols A)).

(** [V / s] for a rank-1 [s]: every row of [V] is divided by [s], entry
    by entry. *)
Definition divide_rows (V : mat) (s : vec) : mat :=
  map (fun row => map2 Rdiv row s) V.

(** [principalComponents(image)] on an array.  The eigenvalues are
    returned as the solver gives them.  On fewer than two pixels of at
    least one band the covariance is not a number and [eig] refuses
    it. *)
Definition principalComponents {E : Eigen} (im : ndimage)
  : result (vec * mat * vec * mat) :=
  r <- mean_cov (FromImage im None None) ;;
  let '(mean, cov, count) := r in
  if Nat.ltb count 2 && negb (Nat.eqb (shape2 im) 0) then Raise LinAlgError
  else
  let (L, V) := eig cov in
  (* V = V / sqrt(sum(V * V, 0)) *)
  let V := divide_rows V (map sqrt (sum_axis0 (multiply V V))) in
  (* V = V.transpose() *)
  Ok (L, transpose V, mean, cov).

(** ** ndvi *)

(** [a[..., k]] for an integer [k] on an axis of length [B]: a negative
    index counts from the end, an index out of range raises. *)
Definition band_index (B : nat) (k : Z) : result nat :=
  if ((0 <=? k) && (k <? Z.of_nat B))%Z then Ok (Z.to_nat k)
  else if ((- Z.of_nat B <=? k) && (k <? 0))%Z
       then Ok (Z.to_nat (Z.of_nat B + k))
       else Raise IndexError.

(** [data[:, :, k]] *)
Definition band (data : ndimage) (k : Z) : result mat :=
  i <- band_index (shape2 data) k ;;
  Ok (map (map (fun px => nth i px 0)) (pixels data)).

(** [ndvi(data, red, nir)] for integer band indices: each band is then a
    rank-2 array and neither of the two averages is taken.  The division
    is numpy's: where [n + r] is zero it does not raise. *)
Definition ndvi (data : ndimage) (red nir : Z) : result mat :=
  r <- band data red ;;
  n <- band data nir ;;
  Ok (map2 (map2 Rdiv) (msub n r) (madd n r)).

(** ** unmix and spectralAngles *)

(** [unmix(data, members)] *)
Definition unmix (data : ndimage) (members : mat) : outcome ndimage :=
  if negb (Nat.eqb (ncols members) (shape2 data)) then
    Throw (AssertionError "Matrix dimensions are not aligned.")
  else
    match (g <- dot members (transpose members) ;;
           gi <- inv g ;;
           dot gi members) with
    | Raise e => Throw (Builtin e)
    | Ok pi =>
        Return {| shape0 := shape0 data;
                  shape1 := shape1 data;
                  shape2 := nrows members;
                  dtype := Floating;
                  pixels := map (map (mvmul pi)) (pixels data) |}
    end.

(** [spectralAngles(data, members)].  The divisions by a norm are
    numpy's: a zero vector does not raise. *)
Definition spectralAngles (data : ndimage) (members : mat) : outcome ndimage :=
  if negb (Nat.eqb (ncols members) (shape2 data)) then
    Throw (AssertionError "Matrix dimensions are not aligned.")
  else
    (* m[i] /= sqrt(dot(m[i], m[i])) *)
    let m := map normalize members in
    Return {| shape0 := shape0 data;
              shape1 := shape1 data;
              shape2 := nrows members;
              dtype := Floating;
              pixels :=
                map (map (fun px =>
                            let v := normalize px in
                            map (fun mk => acos (vdot v mk)) m))
                    (pixels data) |}.

(** An image of two pixels of two bands, and two spectra. *)
Definition two_band_image : ndimage :=
  {| shape0 := 1; shape1 := 2; shape2 := 2; dtype := Floating;
     pixels := [[[3; 1]; [1; 1]]] |}.

Definition axes : mat := [[1; 0]; [0; 1]].

(** The image [data] with every pixel multiplied by [s]. *)
Definition scale_pixels (s : R) (data : ndimage) : ndimage :=
  {| shape0 := shape0 data; shape1 := shape1 data; shape2 := shape2 data;
     dtype := dtype data;
     pixels := map (map (vscale s)) (pixels data) |}.

(** The cosine of the angle between two vectors. *)
Definition cosine (v m : vec) : R :=
  vdot v m / (sqrt (vdot v v) * sqrt (vdot m m)).

Definition nonzero (v : vec) : Prop := vdot v v <> 0.

(** The samples of [it], each shifted by [t]. *)
Definition translate (t : vec) (it : Iterator) : Iterator := {|
  getNumElements := getNumElements it;
  getNumBands := getNumBands it;
  sample_type := sample_type it;
  iter := map (fun x => vadd x t) (iter it)
|}.

(** The mean and the covariance that a class holds, and the number of
    samples of a list of classes. *)
Definition mean_of (s : TrainingClass) : vec :=
  match stats s with
  | Some st => match mean st with Some m => m | None => [] end
  | None => []
  end.

Definition cov_of (s : TrainingClass) : mat :=
  match stats s with
  | Some st => match cov st with Some c => c | None => [] end
  | None => []
  end.

Definition total_size (cls : list TrainingClass) : nat :=
  list_sum (map _size cls).

(** ** SampleIterator

    [SampleIterator.__iter__]: the samples of the classes of the set,
    one class after the other.  The samples yielded before a class
    fails have been yielded. *)
Fixpoint SampleIterator_iter (cls : list TrainingClass)
  : list vec * result unit :=
  match cls with
  | [] => ([], Ok tt)
  | cl :: rest =>
      match TrainingClass_iter cl with
      | Raise e => ([], Raise e)
      | Ok xs =>
          let (ys, r) := SampleIterator_iter rest in
          (xs ++ ys, r)
      end
  end.

(** [TrainingClassSet.allSamples], iterated to its end. *)
Definition allSamples (s : TrainingClassSet) : list vec * result unit :=
  SampleIterator_iter (values (classes s)).

(** A mask of two rows on the image of two pixels in a column. *)
Definition column_image : ndimage :=
  {| shape0 := 2; shape1 := 1; shape2 := 1; dtype := Floating;
     pixels := [[[1]]; [[3]]] |}.

(** ** TrainingClass.dump and TrainingClass.load

    A stream of pickled objects: [pickle.dump] appends one,
    [pickle.load] takes the first and raises [EOFError] at the end. *)
Inductive pickled : Type :=
| PickledStr (s : string)
| PickledInt (z : Z)
| PickledFloat (r : R).

Definition stream : Type := list pickled.

(** Locals of [dump] and of [load]: their parameters and [pickle]. *)
Definition dump_locals : list string := [ "self"; "fp"; "pickle" ].

(** [TrainingClass.dump], up to its first use of [DumpArray].
    [fileName] is the attribute of that name of [self.image]: an image
    file has one, an array has none.  What follows the lookup of
    [DumpArray] is left out: the function is not part of the module. *)
Definition dump (fileName : option string) (cl : TrainingClass) (fp : stream)
  : stream * outcome unit :=
  match fileName with
  | None => (fp, Throw (Builtin (AttributeError "fileName")))
  | Some name =>
      let fp := fp ++ [PickledStr name] in
      let fp := fp ++ [PickledInt (index cl)] in
      let fp := fp ++ [PickledInt (Z.of_nat (_size cl))] in
      let fp := fp ++ [PickledFloat (classProb cl)] in
      (fp, lift (resolve dump_locals "DumpArray"))
  end.

(** The attributes that [load] has assigned when it stops; one that it
    has not reached is [None].  The loaded objects are kept as they
    come from the stream. *)
Record loading : Type := {
  loaded_stats : GaussianStats;
  loaded_image : option pickled;
  loaded_index : option pickled;
  loaded_size : option pickled;
  loaded_classProb : option pickled
}.

(** [TrainingClass.load], up to its first use of [LoadArray]: the
    object, what is left of the stream, and the outcome. *)
Definition load (fp : stream) : loading * stream * outcome unit :=
  (* self.stats = GaussianStats() *)
  let o := {| loaded_stats := new_GaussianStats; loaded_image := None;
              loaded_index := None; loaded_size := None;
              loaded_classProb := None |} in
  match fp with
  | [] => (o, [], Throw EOFError)
  | a :: fp =>
      let o := {| loaded_stats := loaded_stats o; loaded_image := Some a;
                  loaded_index := None; loaded_size := None;
                  loaded_classProb := None |} in
      match fp with
      | [] => (o, [], Throw EOFError)
      | b :: fp =>
          let o := {| loaded_stats := loaded_stats o;
                      loaded_image := loaded_image o;
                      loaded_index := Some b; loaded_size := None;
                      loaded_classProb := None |} in
          match fp with
          | [] => (o, [], Throw EOFError)
          | c :: fp =>
              let o := {| loaded_stats := loaded_stats o;
                          loaded_image := loaded_image o;
                          loaded_index := loaded_index o;
                          loaded_size := Some c;
                          loaded_classProb := None |} in
              match fp with
              | [] => (o, [], Throw EOFError)
              | d :: fp =>
                  let o := {| loaded_stats := loaded_stats o;
                              loaded_image := loaded_image o;
                              loaded_index := loaded_index o;
                              loaded_size := loaded_size o;
                              loaded_classProb := Some d |} in
                  (o, fp, lift (resolve dump_locals "LoadArray"))
              end
          end
      end
  end.

(** ** Vocabulary for the log-determinant *)

(** The sum of the logarithms of the members of [l] that are strictly
    positive, the others being left out. *)
Fixpoint sum_log_positive (l : list R) : R :=
  match l with
  | [] => 0
  | x :: l' =>
      if Rlt_dec 0 x then ln x + sum_log_positive l' else sum_log_positive l'
  end.

(** A class of two equal pixels of one band: its covariance is zero. *)
Definition constant_image : ndimage :=
  {| shape0 := 1; shape1 := 2; shape2 := 1; dtype := Floating;
     pixels := [[[2]; [2]]] |}.

Definition constant_class : TrainingClass :=
  new_TrainingClass constant_image [[1; 1]]%Z 1 1.

(** An image of two pixels of one band whose elements are 16-bit
    integers, as the sensors deliver them, with the values 200 and 100. *)
Definition int16_image : ndimage :=
  {| shape0 := 1; shape1 := 2; shape2 := 1; dtype := SignedInt 16;
     pixels := [[[200]; [100]]] |}.

(** ** Vocabulary for eigenvalues *)

(** The product of the members of [l]. *)
Definition Rprod (l : list R) : R := fold_right Rmult 1 l.

(** [l] lists the eigenvalues of the square matrix [A], each as many
    times as its multiplicity: the characteristic polynomial of [A] is
    the product of the [lam - x], and every member of [l] has an
    eigenvector. *)
Definition eigenvalues_of (A : mat) (l : list R) : Prop :=
  (forall x : R,
     det (msub A (mscale x (eye (nrows A)))) =
     Ok (Rprod (map (fun lam => lam - x) l))) /\
  (forall lam, In lam l ->
     exists v : vec,
       length v = nrows A /\ vdot v v <> 0 /\
       mvmul A v = vscale lam v).

(** Classes of two bands and two samples that hold statistics of
    covariance the identity, and three of them. *)
Definition plane_stats (m1 m2 : R) : GaussianStats :=
  {| mean := Some [m1; m2]; cov := Some [[1; 0]; [0; 1]];
     invCov := Some [[1; 0]; [0; 1]]; logDetCov := Some 0; numSamples := 2 |}.

Definition plane_class (i : Z) (m1 m2 : R) : TrainingClass := {|
  image := two_band_image; numBands := 2; mask := [[i; i]]; index := i;
  classProb := 1; _statsValid := true; _size := 2;
  stats := Some (plane_stats m1 m2)
|}.

Definition plane_classes : list TrainingClass :=
  [plane_class 1 3 0; plane_class 2 (-3) 0; plane_class 3 0 3].

(** An image of two rows and two columns of one band, and the labels
    [{0, 1, 1, 2}] for it: label 1 has two pixels, label 2 only one. *)
Definition square_image : ndimage :=
  {| shape0 := 2; shape1 := 2; shape2 := 1; dtype := Floating;
     pixels := [[[1]; [2]]; [[4]; [7]]] |}.

Definition square_labels : labels := [[0; 1]; [1; 2]]%Z.

(** * Properties *)

(** ** The result monad *)

Lemma bind_Ok_inv {A B : Type} (c : result A) (k : A -> result B) (b : B) :
  bind c k = Ok b -> exists a, c = Ok a /\ k a = Ok b.
Proof.
  destruct c as [a|e]; simpl; intros H; [eauto | discriminate].
Qed.

Lemma raises_not_returns {A : Type} (c : result A) :
  raises c -> ~ returns c.
Proof.
  intros [e He] [a Ha]. congruence.
Qed.

(** ** Name resolution: [not_equal] is not bound *)

Lemma not_equal_unbound_in_init :
  resolve ImageMaskIterator_init_locals "not_equal" = Raise (NameError "not_equal").
Proof. reflexivity. Qed.

Lemma not_equal_unbound_in_size :
  resolve size_locals "not_equal" = Raise (NameError "not_equal").
Proof. reflexivity. Qed.

Lemma truthy_false_iff (i : Z) : truthy i = false <-> i = 0%Z.
Proof.
  unfold truthy. rewrite negb_false_iff. apply Z.eqb_eq.
Qed.

Lemma truthy_true_iff (i : Z) : truthy i = true <-> i <> 0%Z.
Proof.
  unfold truthy. rewrite negb_true_iff. apply Z.eqb_neq.
Qed.

Lemma ImageMaskIterator_falsy (im : ndimage) (m : labels) (i : option Z) :
  truthy_opt i = false ->
  ImageMaskIterator im m i = Raise (NameError "not_equal").
Proof.
  intros H. unfold ImageMaskIterator. rewrite H. reflexivity.
Qed.

Lemma ImageMaskIterator_truthy (im : ndimage) (m : labels) (i : Z) :
  i <> 0%Z ->
  ImageMaskIterator im m (Some i) =
  Ok {| getNumElements := count_true (ravel (np_equal m i));
        getNumBands := shape2 im;
        sample_type := dtype im;
        iter := compress (ravel (np_equal m i)) (ravel (pixels im)) |}.
Proof.
  intros H. unfold ImageMaskIterator. simpl.
  apply truthy_true_iff in H. rewrite H. reflexivity.
Qed.

(** C10: the mode that selects every nonzero element of the mask cannot
    run.  [size] of a class with index 0 and statistics not valid raises
    [NameError], and so does the construction of an [ImageMaskIterator]
    without an index (or with index 0), both on the unbound name
    [not_equal]; a construction that succeeds was given a nonzero index
    and selects by equality with it. *)
Theorem nonzero_mask_mode_raises_NameError :
  (forall cl : TrainingClass,
      index cl = 0%Z -> _statsValid cl = false ->
      size cl = Raise (NameError "not_equal")) /\
  (forall (im : ndimage) (m : labels),
      ImageMaskIterator im m None = Raise (NameError "not_equal")) /\
  (forall (im : ndimage) (m : labels),
      ImageMaskIterator im m (Some 0%Z) = Raise (NameError "not_equal")) /\
  (forall (im : ndimage) (m : labels) (i : option Z) (it : Iterator),
      ImageMaskIterator im m i = Ok it ->
      exists k, i = Some k /\ k <> 0%Z /\
        getNumElements it = count_true (ravel (np_equal m k)) /\
        iter it = compress (ravel (np_equal m k)) (ravel (pixels im))).
Proof.
  split; [|split; [|split]].
  - intros cl Hi Hv. unfold size. rewrite Hv.
    apply truthy_false_iff in Hi. rewrite Hi. reflexivity.
  - intros im m. now apply ImageMaskIterator_falsy.
  - intros im m. now apply ImageMaskIterator_falsy.
  - intros im m i it H.
    destruct (truthy_opt i) eqn:Ht.
    + destruct i as [k|]; [|discriminate].
      simpl in Ht. apply truthy_true_iff in Ht.
      rewrite (ImageMaskIterator_truthy im m k Ht) in H.
      injection H as <-. exists k. simpl. repeat split; auto.
    + rewrite (ImageMaskIterator_falsy im m i Ht) in H. discriminate.
Qed.

Lemma nonzero_mask_mode_witness :
  size (new_TrainingClass unit_image [[1%Z]] 0 1) = Raise (NameError "not_equal").
Proof.
  apply (proj1 nonzero_mask_mode_raises_NameError); reflexivity.
Defined.

(** ** mean_cov: the count *)

Lemma accumulate_count (t : typecode) (xs : list vec) (s : moments) :
  count (fold_left (accumulate t) xs s) = (count s + length xs)%nat.
Proof.
  revert s. induction xs as [|x xs IH]; intros s; simpl.
  - lia.
  - rewrite IH. simpl. lia.
Qed.

Lemma mean_cov_values_count (it : Iterator) :
  snd (mean_cov_values it) = length (iter it).
Proof.
  unfold mean_cov_values. simpl. now rewrite accumulate_count.
Qed.

Lemma mean_cov_of_consistent (it : Iterator) :
  getNumElements it = length (iter it) ->
  mean_cov_of it = Ok (mean_cov_values it).
Proof.
  intros H. unfold mean_cov_of. rewrite H.
  now destruct (iter it).
Qed.

(** C2, as the program has it: [mean_cov] does not look at the number of
    samples.  On every source that yields fewer than two vectors (and
    announces as many as it yields) it returns a triple whose count is
    the number of vectors, where the specification has it fail. *)
Theorem mean_cov_few_samples_returns (s : source) (it : Iterator) :
  iterator s = Ok it ->
  getNumElements it = length (iter it) ->
  (length (iter it) < 2)%nat ->
  exists m c, mean_cov s = Ok (m, c, length (iter it)).
Proof.
  intros Hit Hn _. unfold mean_cov. rewrite Hit. simpl.
  rewrite (mean_cov_of_consistent it Hn).
  pose proof (mean_cov_values_count it) as Hc.
  destruct (mean_cov_values it) as [[m c] n]. simpl in Hc. subst n.
  now exists m, c.
Qed.

Lemma mean_cov_few_samples_witness :
  exists m c, mean_cov (FromIterator one_sample) = Ok (m, c, 1%nat).
Proof.
  apply (mean_cov_few_samples_returns (FromIterator one_sample) one_sample).
  - reflexivity.
  - reflexivity.
  - simpl. lia.
Defined.

(** On a source of one sample [mean_cov] does not raise. *)
Lemma mean_cov_one_sample_does_not_fail :
  (length (iter one_sample) < 2)%nat /\
  ~ raises (mean_cov (FromIterator one_sample)).
Proof.
  split.
  - simpl. lia.
  - intros [e He]. discriminate He.
Qed.

(** ** reduceEigenvectors *)

Lemma cumsum_from_length (L : vec) (s : R) :
  length (cumsum_from s L) = length L.
Proof.
  revert s. induction L as [|x L IH]; intros s; simpl; [reflexivity|].
  now rewrite IH.
Qed.

Lemma cumsum_from_nth (L : vec) (s : R) (i : nat) :
  (i < length L)%nat ->
  nth i (cumsum_from s L) 0 = s + Rsum (firstn (S i) L).
Proof.
  revert s i. induction L as [|x L IH]; intros s i Hi; simpl in *; [lia|].
  destruct i as [|i].
  - destruct L; simpl; lra.
  - rewrite IH by lia. simpl. lra.
Qed.

Lemma cumsum_from_last (L : vec) (s : R) :
  L <> [] -> last (cumsum_from s L) 0 = s + Rsum L.
Proof.
  revert s. induction L as [|x L IH]; intros s HL; [congruence|].
  destruct L as [|y L].
  - simpl. lra.
  - change (last (cumsum_from (s + x) (y :: L)) 0 = s + Rsum (x :: y :: L)).
    rewrite IH by discriminate. simpl. lra.
Qed.

Lemma Rsum_app (l1 l2 : list R) : Rsum (l1 ++ l2) = Rsum l1 + Rsum l2.
Proof.
  induction l1 as [|x l1 IH]; simpl; [lra|]. rewrite IH. lra.
Qed.

Lemma Rsum_nonneg (l : list R) : Forall (fun x => 0 <= x) l -> 0 <= Rsum l.
Proof.
  induction 1; simpl; lra.
Qed.

Lemma Rsum_ge_last (l : list R) :
  Forall (fun x => 0 <= x) l -> last l 0 <= Rsum l.
Proof.
  induction 1 as [|x l Hx Hl IH]; simpl; [lra|].
  destruct l as [|y l]; [simpl; lra|].
  simpl in *. lra.
Qed.

Lemma last_skipn (l : list R) (k : nat) :
  (k < length l)%nat -> last (skipn k l) 0 = last l 0.
Proof.
  revert k. induction l as [|x l IH]; intros k Hk; simpl in Hk; [lia|].
  destruct k as [|k]; [reflexivity|].
  simpl skipn. rewrite IH by lia.
  destruct l; [simpl in Hk; lia | reflexivity].
Qed.

(** The value of the loop variable after [for ... break]. *)
Lemma for_break_seq (cond : nat -> bool) (n a : nat) (init : option nat) :
  (0 < n)%nat ->
  exists i, for_break cond (seq a n) init = Some i /\
            (a <= i < a + n)%nat /\
            (forall j, (a <= j < i)%nat -> cond j = false) /\
            (cond i = true \/ i = (a + n - 1)%nat).
Proof.
  revert a init. induction n as [|n IH]; intros a init Hn; [lia|].
  simpl. destruct (cond a) eqn:Ha.
  - exists a. split; [reflexivity|]. split; [lia|]. split; [intros j Hj; lia|].
    now left.
  - destruct n as [|n].
    + simpl. exists a. split; [reflexivity|]. split; [lia|].
      split; [intros j Hj; lia|]. right. lia.
    + destruct (IH (S a) (Some a)) as (i & Hi & Hr & Hf & Hc); [lia|].
      exists i. split; [exact Hi|]. split; [lia|]. split.
      * intros j Hj. destruct (Nat.eq_dec j a) as [->|]; [exact Ha|].
        apply Hf. lia.
      * destruct Hc as [Hc|Hc]; [now left | right; lia].
Qed.

Lemma ratio_ge_pos (x s f : R) :
  0 < s -> (ratio_ge x s f = true <-> x / s >= f).
Proof.
  intros Hs. unfold ratio_ge.
  destruct (Req_dec_T s 0) as [E|_]; [lra|].
  destruct (Rge_dec (x / s) f); split; intros; auto; congruence.
Qed.

Lemma ratio_ge_pos_false (x s f : R) :
  0 < s -> (ratio_ge x s f = false <-> x / s < f).
Proof.
  intros Hs. unfold ratio_ge.
  destruct (Req_dec_T s 0) as [E|_]; [lra|].
  destruct (Rge_dec (x / s) f); split; intros H; try congruence; try lra.
Qed.

(** C6, as the program has it.  For eigenvalues of positive sum the
    program keeps the prefix of length [k], where [k >= 1] is the least
    length whose share of the sum reaches [fraction] (any [fraction <= 1]
    is reached), and the whole input when no prefix reaches it.  With
    [fraction = 1] the input comes back whole when the eigenvalues are
    non-negative and the last one is positive. *)
Theorem reduceEigenvectors_least_prefix (L : vec) (V : mat) (fraction : R) :
  L <> [] -> length V = length L -> 0 < Rsum L ->
  exists k, (1 <= k <= length L)%nat /\
    reduceEigenvectors L V fraction = Ok (firstn k L, firstn k V) /\
    (forall j, (1 <= j < k)%nat -> Rsum (firstn j L) / Rsum L < fraction) /\
    ((k < length L)%nat -> Rsum (firstn k L) / Rsum L >= fraction) /\
    (fraction <= 1 -> Rsum (firstn k L) / Rsum L >= fraction) /\
    (fraction = 1 -> Forall (fun x => 0 <= x) L -> 0 < last L 0 ->
     k = length L).
Proof.
  intros HL HV Hs.
  assert (Hlen : (0 < length L)%nat) by (destruct L; [congruence | simpl; lia]).
  unfold reduceEigenvectors.
  assert (Hc : cumsum L <> []).
  { intros E. apply (f_equal (@length R)) in E. unfold cumsum in E.
    rewrite cumsum_from_length in E. simpl in E. lia. }
  destruct (cumsum L) as [|c0 cs] eqn:Ecs; [congruence|]. rewrite <- Ecs.
  assert (Hlast : last (cumsum L) 0 = Rsum L).
  { unfold cumsum. rewrite cumsum_from_last by exact HL. lra. }
  rewrite Hlast.
  set (cond := fun i => ratio_ge (nth i (cumsum L) 0) (Rsum L) fraction).
  destruct (for_break_seq cond (length L) 0 None Hlen) as (i & Hi & Hr & Hf & Hcnd).
  rewrite Hi.
  assert (Hnth : forall j, (j < length L)%nat ->
             nth j (cumsum L) 0 = Rsum (firstn (S j) L)).
  { intros j Hj. unfold cumsum. rewrite cumsum_from_nth by exact Hj. lra. }
  assert (Hbefore : forall j, (1 <= j < S i)%nat ->
             Rsum (firstn j L) / Rsum L < fraction).
  { intros j Hj. destruct j as [|j]; [lia|].
    assert (Hcj : cond j = false) by (apply Hf; lia).
    unfold cond in Hcj. rewrite Hnth in Hcj by lia.
    now apply ratio_ge_pos_false in Hcj. }
  assert (Hat : cond i = true -> Rsum (firstn (S i) L) / Rsum L >= fraction).
  { unfold cond. rewrite Hnth by lia. intros H. now apply ratio_ge_pos in H. }
  assert (Hfull : Rsum (firstn (length L) L) / Rsum L = 1).
  { rewrite firstn_all. field. lra. }
  exists (S i). split; [lia|]. split.
  { destruct (Nat.eqb i (length L - 1)) eqn:E.
    - apply Nat.eqb_eq in E.
      replace (S i) with (length L) by lia.
      rewrite firstn_all. rewrite <- HV at 1. now rewrite firstn_all.
    - now rewrite Nat.add_1_r. }
  split; [exact Hbefore|]. split.
  { intros Hk. destruct Hcnd as [Hc1|Hc1]; [auto | lia]. }
  split.
  { intros Hle. destruct Hcnd as [Hc1|Hc1]; [auto|].
    replace (S i) with (length L) by lia. rewrite Hfull. lra. }
  intros Hone Hnn Hpos.
  destruct (Nat.eq_dec (S i) (length L)) as [|Hne]; [assumption|exfalso].
  destruct Hcnd as [Hc1|Hc1]; [|lia].
  apply Hat in Hc1.
  assert (Hsplit : Rsum L = Rsum (firstn (S i) L) + Rsum (skipn (S i) L)).
  { rewrite <- Rsum_app. now rewrite firstn_skipn. }
  assert (Htail : 0 < Rsum (skipn (S i) L)).
  { assert (Forall (fun x => 0 <= x) (skipn (S i) L)) as Hnn'.
    { rewrite <- (firstn_skipn (S i) L) in Hnn.
      now apply Forall_app in Hnn. }
    pose proof (Rsum_ge_last _ Hnn') as Hge.
    rewrite last_skipn in Hge by lia. lra. }
  assert (Rsum (firstn (S i) L) / Rsum L < 1).
  { apply Rmult_lt_reg_r with (r := Rsum L); [exact Hs|].
    unfold Rdiv. rewrite Rmult_assoc, Rinv_l by lra. lra. }
  lra.
Qed.

Lemma reduceEigenvectors_least_prefix_witness :
  exists k, (1 <= k <= 2)%nat /\
    reduceEigenvectors [3; 1] [[1; 0]; [0; 1]] 1 =
      Ok (firstn k [3; 1], firstn k [[1; 0]; [0; 1]]) /\
    k = 2%nat.
Proof.
  destruct (reduceEigenvectors_least_prefix [3; 1] [[1; 0]; [0; 1]] 1)
    as (k & Hk & Hred & _ & _ & _ & Hall).
  - discriminate.
  - reflexivity.
  - simpl. lra.
  - exists k. split; [exact Hk|]. split; [exact Hred|].
    apply Hall.
    + reflexivity.
    + repeat constructor; lra.
    + simpl. lra.
Defined.

(** With a trailing zero eigenvalue and [fraction = 1] the program drops
    the last component: the input does not come back whole. *)
Lemma reduceEigenvectors_one_drops_zero :
  reduceEigenvectors [1; 0] [[1; 0]; [0; 1]] 1 = Ok ([1], [[1; 0]]) /\
  Ok ([1], [[1; 0]]) <> Ok ([1; 0], [[1; 0]; [0; 1]]).
Proof.
  split; [|discriminate].
  unfold reduceEigenvectors. simpl.
  unfold ratio_ge.
  replace (0 + 1 + 0) with 1 by lra. replace (0 + 1) with 1 by lra.
  destruct (Req_dec_T 1 0) as [E|_]; [lra|].
  destruct (Rge_dec (1 / 1) 1) as [_|G]; [|exfalso; apply G; lra].
  reflexivity.
Qed.

(** ** createTrainingClasses *)

Lemma existsb_Zeqb_In (i : Z) (l : list Z) :
  existsb (Z.eqb i) l = true <-> In i l.
Proof.
  rewrite existsb_exists. split.
  - intros (x & Hx & E). apply Z.eqb_eq in E. now subst.
  - intros H. exists i. split; [exact H | apply Z.eqb_refl].
Qed.

Lemma excluded_by_false_iff (indices : option (list Z)) (i : Z) :
  excluded_by indices i = false <-> allowed indices i.
Proof.
  destruct indices as [[|x l]|]; simpl; try tauto.
  rewrite negb_false_iff.
  change ((Z.eqb i x || existsb (Z.eqb i) l)%bool) with (existsb (Z.eqb i) (x :: l)).
  rewrite existsb_Zeqb_In. simpl. tauto.
Qed.

Lemma kept_true_iff (indices : option (list Z)) (i : Z) :
  kept indices i = true <-> i <> 0%Z /\ allowed indices i.
Proof.
  unfold kept. rewrite andb_true_iff, !negb_true_iff, Z.eqb_neq.
  now rewrite excluded_by_false_iff.
Qed.

Lemma has_key_In (d : list (Z * TrainingClass)) (k : Z) :
  has_key d k = true <-> In k (keys d).
Proof.
  unfold has_key, keys. rewrite existsb_exists, in_map_iff. split.
  - intros (e & He & E). apply Z.eqb_eq in E. eauto.
  - intros (e & E & He). exists e. split; [exact He | now apply Z.eqb_eq].
Qed.

Lemma calcStatistics_index {E : Eigen} (cl : TrainingClass) :
  index (fst (calcStatistics cl)) = index cl.
Proof.
  unfold calcStatistics.
  destruct (mean_cov _) as [[[m c] n]|e]; [|reflexivity].
  destruct (Nat.ltb n 2 && negb (Nat.eqb (shape2 (image cl)) 0))%bool;
    [reflexivity|].
  destruct (inv c); reflexivity.
Qed.

Lemma createTrainingClasses_loop_keys {E : Eigen}
    (im : ndimage) (m : labels) (calcStats : bool) (indices : option (list Z))
    (order : list Z) (s s' : TrainingClassSet) :
  createTrainingClasses_loop im m calcStats indices order s = Ok s' ->
  keys (classes s') = keys (classes s) ++ filter (kept indices) order /\
  (indexed (classes s) -> indexed (classes s')).
Proof.
  revert s. induction order as [|i order IH]; intros s H; simpl in H.
  - injection H as <-. rewrite app_nil_r. auto.
  - simpl. unfold kept at 1.
    destruct (Z.eqb i 0) eqn:E0; simpl; [now apply IH|].
    destruct (excluded_by indices i) eqn:Ex; simpl; [now apply IH|].
    apply bind_Ok_inv in H. destruct H as (cl' & Hcl & H).
    apply bind_Ok_inv in H. destruct H as (s1 & Hadd & H).
    assert (Hidx : index cl' = i).
    { destruct calcStats.
      - pose proof (calcStatistics_index (new_TrainingClass im m i 1)) as Hi.
        destruct (calcStatistics _) as [c [[]|e]]; [|discriminate].
        injection Hcl as <-. exact Hi.
      - now injection Hcl as <-. }
    unfold addClass in Hadd.
    destruct (has_key (classes s) (index cl')); [discriminate|].
    injection Hadd as <-.
    apply IH in H. destruct H as [Hk Hi]. simpl in *. split.
    + rewrite Hk. unfold keys. rewrite map_app. simpl.
      rewrite Hidx, <- app_assoc. reflexivity.
    + intros Hs. apply Hi. apply Forall_app. split; [exact Hs|].
      constructor; [reflexivity | constructor].
Qed.

Lemma createTrainingClasses_loop_returns {E : Eigen}
    (im : ndimage) (m : labels) (indices : option (list Z))
    (order : list Z) (s : TrainingClassSet) :
  NoDup order ->
  (forall i, In i order -> ~ In i (keys (classes s))) ->
  returns (createTrainingClasses_loop im m false indices order s).
Proof.
  revert s. induction order as [|i order IH]; intros s Hnd Hfresh; simpl.
  - now exists s.
  - inversion Hnd as [|? ? Hni Hnd']; subst.
    assert (Hrest : forall j, In j order -> ~ In j (keys (classes s))).
    { intros j Hj. apply Hfresh. now right. }
    destruct (Z.eqb i 0); [now apply IH|].
    destruct (excluded_by indices i); [now apply IH|].
    simpl. unfold addClass. simpl.
    destruct (has_key (classes s) i) eqn:Hk.
    + apply has_key_In in Hk. exfalso. apply (Hfresh i); [now left | exact Hk].
    + simpl. apply IH; [exact Hnd'|].
      intros j Hj. simpl. unfold keys. rewrite map_app, in_app_iff. simpl.
      intros [Hin|[->|[]]]; [now apply (Hrest j) | contradiction].
Qed.

(** ** Sums *)

Lemma bigsum_S (n : nat) (f : nat -> R) :
  bigsum (S n) f = bigsum n f + f n.
Proof.
  unfold bigsum. rewrite seq_S, map_app, Rsum_app. simpl. lra.
Qed.

Lemma bigsum_ext (n : nat) (f g : nat -> R) :
  (forall k, (k < n)%nat -> f k = g k) -> bigsum n f = bigsum n g.
Proof.
  intros H. induction n as [|n IH]; [reflexivity|].
  rewrite !bigsum_S, IH, H; auto.
Qed.

Lemma bigsum_zero (n : nat) : bigsum n (fun _ => 0) = 0.
Proof.
  induction n as [|n IH]; [reflexivity|]. rewrite bigsum_S, IH. lra.
Qed.

Lemma bigsum_plus (n : nat) (f g : nat -> R) :
  bigsum n (fun k => f k + g k) = bigsum n f + bigsum n g.
Proof.
  induction n as [|n IH]; [unfold bigsum; simpl; lra|].
  rewrite !bigsum_S, IH. lra.
Qed.

Lemma bigsum_minus (n : nat) (f g : nat -> R) :
  bigsum n (fun k => f k - g k) = bigsum n f - bigsum n g.
Proof.
  induction n as [|n IH]; [unfold bigsum; simpl; lra|].
  rewrite !bigsum_S, IH. lra.
Qed.

Lemma bigsum_scale (n : nat) (c : R) (f : nat -> R) :
  bigsum n (fun k => c * f k) = c * bigsum n f.
Proof.
  induction n as [|n IH]; [unfold bigsum; simpl; lra|].
  rewrite !bigsum_S, IH. lra.
Qed.

Lemma bigsum_scale_r (n : nat) (c : R) (f : nat -> R) :
  bigsum n (fun k => f k * c) = bigsum n f * c.
Proof.
  induction n as [|n IH]; [unfold bigsum; simpl; lra|].
  rewrite !bigsum_S, IH. lra.
Qed.

Lemma bigsum_swap (n m : nat) (f : nat -> nat -> R) :
  bigsum n (fun i => bigsum m (fun j => f i j)) =
  bigsum m (fun j => bigsum n (fun i => f i j)).
Proof.
  induction n as [|n IH].
  - rewrite (bigsum_ext m _ (fun _ => 0)) by (intros; reflexivity).
    now rewrite bigsum_zero.
  - rewrite bigsum_S, IH, <- bigsum_plus.
    apply bigsum_ext. intros k _. now rewrite bigsum_S.
Qed.

Lemma bigsum_delta (n i : nat) (f : nat -> R) :
  (i < n)%nat -> bigsum n (fun k => delta i k * f k) = f i.
Proof.
  induction n as [|n IH]; intros Hi; [lia|].
  rewrite bigsum_S. destruct (Nat.eq_dec i n) as [->|Hne].
  - rewrite (bigsum_ext n _ (fun _ => 0)).
    + rewrite bigsum_zero. unfold delta. rewrite Nat.eqb_refl. lra.
    + intros k Hk. unfold delta.
      destruct (Nat.eqb_spec n k); [lia | lra].
  - rewrite IH by lia. unfold delta.
    destruct (Nat.eqb_spec i n); [lia | lra].
Qed.

Lemma delta_sym (i j : nat) : delta i j = delta j i.
Proof.
  unfold delta. now rewrite Nat.eqb_sym.
Qed.

Lemma bigsum_delta_r (n i : nat) (f : nat -> R) :
  (i < n)%nat -> bigsum n (fun k => f k * delta k i) = f i.
Proof.
  intros Hi. rewrite <- (bigsum_delta n i f Hi).
  apply bigsum_ext. intros k _. rewrite delta_sym. lra.
Qed.

Lemma bigsum_shift (n : nat) (f : nat -> R) :
  bigsum (S n) f = f O + bigsum n (fun k => f (S k)).
Proof.
  unfold bigsum. simpl. now rewrite <- seq_shift, map_map.
Qed.

Lemma bigsum_nonneg (n : nat) (f : nat -> R) :
  (forall k, (k < n)%nat -> 0 <= f k) -> 0 <= bigsum n f.
Proof.
  intros H. induction n as [|n IH]; [unfold bigsum; simpl; lra|].
  rewrite bigsum_S. assert (0 <= f n) by (apply H; lia).
  assert (0 <= bigsum n f) by (apply IH; intros; apply H; lia). lra.
Qed.

(** ** Entries of arrays *)

Lemma nth_map_seq {A : Type} (f : nat -> A) (n i : nat) (d : A) :
  (i < n)%nat -> nth i (map f (seq 0 n)) d = f i.
Proof.
  intros Hi. rewrite (nth_indep _ d (f O)) by now rewrite length_map, length_seq.
  rewrite (map_nth f (seq 0 n) O i). now rewrite seq_nth.
Qed.

Lemma nth_nil_0 (j : nat) : nth j (@nil R) 0 = 0.
Proof. now destruct j. Qed.

Lemma nth_col (A : mat) (k j : nat) : nth k (col j A) 0 = mnth A k j.
Proof.
  unfold col, mnth.
  rewrite <- (nth_nil_0 j) at 1.
  exact (map_nth (fun r => nth j r 0) A [] k).
Qed.

Lemma length_col (A : mat) (j : nat) : length (col j A) = length A.
Proof. apply length_map. Qed.

Lemma Mat_row (n m : nat) (A : mat) (i : nat) :
  Mat n m A -> (i < n)%nat -> length (nth i A []) = m.
Proof.
  intros [Hn Hm] Hi. rewrite Forall_forall in Hm. apply Hm.
  apply nth_In. lia.
Qed.

Lemma Mat_ncols (n m : nat) (A : mat) :
  Mat n m A -> (0 < n)%nat -> ncols A = m.
Proof.
  intros [Hn Hm] Hpos. unfold ncols. destruct A as [|r A]; [simpl in Hn; lia|].
  simpl. now inversion Hm.
Qed.

Lemma mat_ext (n m : nat) (A B : mat) :
  Mat n m A -> Mat n m B ->
  (forall i j, (i < n)%nat -> (j < m)%nat -> mnth A i j = mnth B i j) ->
  A = B.
Proof.
  intros HA HB H.
  apply (nth_ext A B [] []).
  - destruct HA, HB. congruence.
  - intros i Hi. destruct HA as [HnA HmA] eqn:EA. rewrite HnA in Hi.
    apply (nth_ext _ _ 0 0).
    + rewrite (Mat_row _ _ _ i HA Hi), (Mat_row _ _ _ i HB Hi). reflexivity.
    + intros j Hj. rewrite (Mat_row _ _ _ i HA Hi) in Hj. now apply H.
Qed.

Lemma vdot_bigsum (a b : vec) (n : nat) :
  length a = n -> length b = n ->
  vdot a b = bigsum n (fun k => nth k a 0 * nth k b 0).
Proof.
  revert b n. induction a as [|x a IH]; intros b n Ha Hb.
  - simpl in Ha. subst n. reflexivity.
  - destruct b as [|y b]; simpl in Ha, Hb; [lia|].
    destruct n as [|n]; [lia|].
    rewrite bigsum_shift. simpl. rewrite (IH b n) by lia. reflexivity.
Qed.

Lemma vdot_comm (a b : vec) : vdot a b = vdot b a.
Proof.
  revert b. induction a as [|x a IH]; intros [|y b]; simpl; auto.
  rewrite IH. lra.
Qed.

Lemma Mat_eye (n : nat) : Mat n n (eye n).
Proof.
  split.
  - unfold eye. now rewrite length_map, length_seq.
  - unfold eye. apply Forall_forall. intros r Hr.
    apply in_map_iff in Hr. destruct Hr as (i & <- & _).
    now rewrite length_map, length_seq.
Qed.

Lemma mnth_eye (n i j : nat) :
  (i < n)%nat -> (j < n)%nat -> mnth (eye n) i j = delta i j.
Proof.
  intros Hi Hj. unfold mnth, eye.
  rewrite (nth_map_seq _ n i [] Hi). now rewrite nth_map_seq.
Qed.

Lemma ncols_eye (n : nat) : ncols (eye n) = n.
Proof.
  destruct n as [|n]; [reflexivity|].
  apply (Mat_ncols _ _ _ (Mat_eye (S n))). lia.
Qed.

Lemma Mat_mmul (n m p : nat) (A B : mat) :
  Mat n m A -> ncols B = p -> Mat n p (mmul A B).
Proof.
  intros [Hn Hm] Hp. split.
  - unfold mmul. now rewrite length_map.
  - unfold mmul. apply Forall_forall. intros r Hr.
    apply in_map_iff in Hr. destruct Hr as (r' & <- & _).
    now rewrite length_map, length_seq.
Qed.

Lemma mnth_mmul (n m p : nat) (A B : mat) (i j : nat) :
  Mat n m A -> Mat m p B -> ncols B = p ->
  (i < n)%nat -> (j < p)%nat ->
  mnth (mmul A B) i j = bigsum m (fun k => mnth A i k * mnth B k j).
Proof.
  intros HA HB Hp Hi Hj. unfold mnth at 1, mmul.
  destruct HA as [Hn Hm] eqn:EA.
  rewrite (nth_indep _ [] (map (fun j => vdot [] (col j B)) (seq 0 (ncols B))))
    by (rewrite length_map; lia).
  rewrite (map_nth (fun r => map (fun j => vdot r (col j B)) (seq 0 (ncols B)))
             A [] i).
  rewrite Hp, nth_map_seq by exact Hj.
  rewrite (vdot_bigsum (nth i A []) (col j B) m).
  - apply bigsum_ext. intros k _. now rewrite nth_col.
  - apply (Mat_row _ _ _ i HA Hi).
  - rewrite length_col. now destruct HB.
Qed.

(** ** Products with the identity, associativity, inverses *)

Lemma mmul_eye_l (n m : nat) (A : mat) :
  Mat n m A -> mmul (eye n) A = A.
Proof.
  intros HA. destruct n as [|n].
  - destruct HA as [Hn _]. destruct A; [reflexivity | discriminate].
  - assert (Hc : ncols A = m) by (apply (Mat_ncols _ _ _ HA); lia).
    apply (mat_ext (S n) m).
    + apply Mat_mmul with (m := S n); [apply Mat_eye | exact Hc].
    + exact HA.
    + intros i j Hi Hj.
      rewrite (mnth_mmul (S n) (S n) m) by (auto using Mat_eye).
      rewrite (bigsum_ext _ _ (fun k => delta i k * mnth A k j)).
      * now apply (bigsum_delta (S n) i (fun k => mnth A k j)).
      * intros k Hk. now rewrite mnth_eye.
Qed.

Lemma mmul_eye_r (n m : nat) (A : mat) :
  Mat n m A -> mmul A (eye m) = A.
Proof.
  intros HA.
  apply (mat_ext n m).
  - apply Mat_mmul with (m := m); [exact HA | apply ncols_eye].
  - exact HA.
  - intros i j Hi Hj.
    rewrite (mnth_mmul n m m) by (auto using Mat_eye, ncols_eye).
    rewrite (bigsum_ext _ _ (fun k => mnth A i k * delta k j)).
    + now apply (bigsum_delta_r m j (fun k => mnth A i k)).
    + intros k Hk. now rewrite mnth_eye.
Qed.

Lemma ncols_mmul (A B : mat) :
  A <> [] -> ncols (mmul A B) = ncols B.
Proof.
  destruct A as [|r A]; [congruence|]. intros _.
  unfold ncols, mmul. simpl. now rewrite length_map, length_seq.
Qed.

Lemma Mat_nonempty (n m : nat) (A : mat) :
  Mat n m A -> (0 < n)%nat -> A <> [].
Proof.
  intros [Hn _] Hpos ->. simpl in Hn. lia.
Qed.

Lemma mmul_assoc (n m p q : nat) (A B C : mat) :
  Mat n m A -> Mat m p B -> Mat p q C ->
  (0 < m)%nat -> (0 < p)%nat ->
  mmul (mmul A B) C = mmul A (mmul B C).
Proof.
  intros HA HB HC Hm Hp.
  assert (HcB : ncols B = p) by (apply (Mat_ncols _ _ _ HB); lia).
  assert (HcC : ncols C = q) by (apply (Mat_ncols _ _ _ HC); lia).
  assert (HAB : Mat n p (mmul A B)) by (apply Mat_mmul with (m := m); auto).
  assert (HBC : Mat m q (mmul B C)) by (apply Mat_mmul with (m := p); auto).
  assert (HcBC : ncols (mmul B C) = q).
  { rewrite ncols_mmul; [exact HcC | apply (Mat_nonempty _ _ _ HB Hm)]. }
  apply (mat_ext n q).
  - apply Mat_mmul with (m := p); auto.
  - apply Mat_mmul with (m := m); auto.
  - intros i j Hi Hj.
    rewrite (mnth_mmul n p q) by auto.
    rewrite (mnth_mmul n m q) by auto.
    rewrite (bigsum_ext p _
               (fun k => bigsum m (fun l => mnth A i l * mnth B l k * mnth C k j))).
    2:{ intros k Hk. rewrite (mnth_mmul n m p) by auto.
        now rewrite bigsum_scale_r. }
    rewrite bigsum_swap. apply bigsum_ext. intros l Hl.
    rewrite (mnth_mmul m p q) by auto.
    rewrite <- bigsum_scale. apply bigsum_ext. intros k _. lra.
Qed.

Lemma is_inverse_unique (A B B' : mat) :
  is_inverse A B -> is_inverse A B' -> B = B'.
Proof.
  intros (HA & HB & HAB & HBA) (_ & HB' & HAB' & HBA').
  destruct (nrows A) as [|n] eqn:En.
  - destruct HB as [HB _], HB' as [HB' _].
    destruct B, B'; try discriminate; reflexivity.
  - rewrite <- (mmul_eye_r _ _ _ HB), <- HAB'.
    rewrite <- (mmul_assoc (S n) (S n) (S n) (S n)) by (auto; lia).
    rewrite HBA. now apply mmul_eye_l with (m := S n).
Qed.

Lemma inv_Ok (A B : mat) : inv A = Ok B -> is_inverse A B.
Proof.
  unfold inv. destruct (excluded_middle_informative (invertible A)) as [H|H].
  - intros E. injection E as <-.
    exact (proj2_sig (constructive_indefinite_description _ H)).
  - discriminate.
Qed.

Lemma inv_of_inverse (A B : mat) : is_inverse A B -> inv A = Ok B.
Proof.
  intros HB. destruct (inv A) as [B'|e] eqn:E.
  - apply inv_Ok in E. f_equal. now apply (is_inverse_unique A).
  - unfold inv in E.
    destruct (excluded_middle_informative (invertible A)) as [H|H];
      [discriminate|]. exfalso. apply H. now exists B.
Qed.

Lemma inv_singular (A : mat) : ~ invertible A -> inv A = Raise LinAlgError.
Proof.
  intros H. unfold inv.
  destruct (excluded_middle_informative (invertible A)); [contradiction|].
  reflexivity.
Qed.

Lemma inv_returns_iff (A : mat) : returns (inv A) <-> invertible A.
Proof.
  split.
  - intros [B HB]. exists B. now apply inv_Ok.
  - intros [B HB]. exists B. now apply inv_of_inverse.
Qed.

Lemma is_inverse_eye (n : nat) : is_inverse (eye n) (eye n).
Proof.
  assert (Hn : nrows (eye n) = n) by apply (Mat_eye n).
  unfold is_inverse. rewrite Hn.
  repeat split; try apply Mat_eye; apply (mmul_eye_l n n), Mat_eye.
Qed.

Lemma inv_eye (n : nat) : inv (eye n) = Ok (eye n).
Proof. apply inv_of_inverse, is_inverse_eye. Qed.

(** A 1 x 1 matrix is invertible exactly when its entry is not zero. *)
Lemma is_inverse_1x1 (a : R) : a <> 0 -> is_inverse [[a]] [[/ a]].
Proof.
  intros Ha. unfold is_inverse, Mat. simpl.
  repeat split; try (repeat constructor);
    unfold mmul, eye, delta; simpl; repeat f_equal; field; exact Ha.
Qed.

Lemma singular_1x1_zero : ~ invertible [[0]].
Proof.
  intros (B & _ & _ & H & _). unfold mmul, eye in H. simpl in H.
  destruct B as [|[|b r] B]; simpl in H.
  - discriminate.
  - discriminate.
  - injection H as H _. unfold delta in H. simpl in H. lra.
Qed.

(** ** TrainingClass.transform and calcStatistics *)

Lemma nrows_transpose (A : mat) : nrows (transpose A) = ncols A.
Proof.
  unfold nrows, transpose. now rewrite length_map, length_seq.
Qed.

Lemma nrows_mmul (A B : mat) : nrows (mmul A B) = nrows A.
Proof. apply length_map. Qed.

(** The covariance that [transform] assigns. *)
Lemma transform_reaches_inv {E : Eigen}
    (X : mat) (cl : TrainingClass) (st : GaussianStats) (m : vec) (c : mat) :
  stats cl = Some st -> mean st = Some m -> cov st = Some c ->
  ncols X = length m -> ncols c = ncols X -> nrows c = ncols X ->
  transform X cl =
  let c' := mmul X (mmul c (transpose X)) in
  let st2 := set_cov (set_mean st (mvmul X m)) c' in
  match inv c' with
  | Raise e => (with_stats cl st2, Raise e)
  | Ok ic =>
      let st4 := set_logDetCov (set_invCov st2 ic) (log_det_or_fallback c') in
      match transformImage X (image cl) with
      | Raise e =>
          ({| image := image cl;
              numBands := nrows X;
              mask := mask cl; index := index cl; classProb := classProb cl;
              _statsValid := _statsValid cl; _size := _size cl;
              stats := Some st4 |}, Raise e)
      | Ok im' =>
          ({| image := im';
              numBands := nrows X;
              mask := mask cl; index := index cl; classProb := classProb cl;
              _statsValid := _statsValid cl; _size := _size cl;
              stats := Some st4 |}, Ok tt)
      end
  end.
Proof.
  intros Hst Hm Hc HX Hcc Hcr. unfold transform.
  rewrite Hst. simpl. rewrite Hm. simpl.
  unfold dot_mv. rewrite HX, Nat.eqb_refl. simpl.
  rewrite Hc. simpl. unfold dot.
  rewrite nrows_transpose, Hcc, Nat.eqb_refl. simpl.
  rewrite nrows_mmul, Hcr, Nat.eqb_refl. reflexivity.
Qed.

(** C1, as the program has it.  When the inversion of [X cov X^T] fails,
    [transform] raises after it has assigned the new mean and the new
    covariance: [stats.mean] and [stats.cov] hold the transformed
    values, while [stats.invCov], [stats.logDetCov], [numBands] and the
    image are those of before the call. *)
Theorem transform_failed_inversion_keeps_new_mean_cov {E : Eigen}
    (X : mat) (cl : TrainingClass) (st : GaussianStats) (m : vec) (c : mat) :
  stats cl = Some st -> mean st = Some m -> cov st = Some c ->
  ncols X = length m -> ncols c = ncols X -> nrows c = ncols X ->
  ~ invertible (mmul X (mmul c (transpose X))) ->
  exists cl' st',
    transform X cl = (cl', Raise LinAlgError) /\
    stats cl' = Some st' /\
    mean st' = Some (mvmul X m) /\
    cov st' = Some (mmul X (mmul c (transpose X))) /\
    invCov st' = invCov st /\
    logDetCov st' = logDetCov st /\
    numSamples st' = numSamples st /\
    numBands cl' = numBands cl /\
    image cl' = image cl /\
    _statsValid cl' = _statsValid cl.
Proof.
  intros Hst Hm Hc HX Hcc Hcr Hsing.
  rewrite (transform_reaches_inv X cl st m c Hst Hm Hc HX Hcc Hcr). simpl.
  rewrite (inv_singular _ Hsing).
  eexists. eexists. split; [reflexivity|]. simpl.
  repeat split; reflexivity.
Qed.

Lemma product_1x1 (x c : R) :
  mmul [[x]] (mmul [[c]] (transpose [[x]])) = [[x * (c * x + 0) + 0]].
Proof. reflexivity. Qed.

Lemma transform_failed_inversion_witness :
  exists cl' st',
    transform (E := diag_eigen) [[0]] (one_band_class 1 1 1 0) =
      (cl', Raise LinAlgError) /\
    stats cl' = Some st' /\
    mean st' = Some (mvmul [[0]] [1]) /\
    cov st' = Some (mmul [[0]] (mmul [[1]] (transpose [[0]]))) /\
    invCov st' = Some [[1]] /\
    logDetCov st' = Some 0 /\
    numSamples st' = 2%nat /\
    numBands cl' = 1%nat /\
    image cl' = unit_image /\
    _statsValid cl' = true.
Proof.
  apply (transform_failed_inversion_keeps_new_mean_cov (E := diag_eigen)
           [[0]] (one_band_class 1 1 1 0) (one_band_stats 1 1 1 0) [1] [[1]]);
    try reflexivity.
  rewrite product_1x1. replace (0 * (1 * 0 + 0) + 0) with 0 by lra.
  exact singular_1x1_zero.
Defined.

(** [transform] fails on a singular product and leaves the mean it had
    already overwritten: the state is not the one before the call. *)
Lemma transform_not_all_or_nothing :
  let cl := one_band_class 1 1 1 0 in
  let r := transform (E := diag_eigen) [[0]] cl in
  snd r = Raise LinAlgError /\
  (exists st', stats (fst r) = Some st' /\ mean st' = Some [0 * 1 + 0]) /\
  (exists st, stats cl = Some st /\ mean st = Some [1]) /\
  fst r <> cl.
Proof.
  intros cl r. subst r cl.
  rewrite (transform_reaches_inv (E := diag_eigen) [[0]] (one_band_class 1 1 1 0)
             (one_band_stats 1 1 1 0) [1] [[1]]
             eq_refl eq_refl eq_refl eq_refl eq_refl eq_refl).
  cbv zeta. rewrite product_1x1.
  replace (0 * (1 * 0 + 0) + 0) with 0 by lra.
  rewrite (inv_singular _ singular_1x1_zero). simpl.
  split; [reflexivity|]. split; [eauto|]. split; [eauto|].
  intros H. apply (f_equal stats) in H. simpl in H.
  injection H as H. lra.
Qed.

(** [logDeterminant] is the sum of the logarithms of the eigenvalues
    that are strictly positive. *)
Lemma logDeterminant_positive_only {E : Eigen} (x : mat) :
  logDeterminant x = Rsum (map ln (filter (fun e => Rgtb e 0) (eigvals x))) /\
  Forall (fun e => 0 < e) (filter (fun e => Rgtb e 0) (eigvals x)).
Proof.
  split; [reflexivity|].
  apply Forall_forall. intros e He. apply filter_In in He.
  destruct He as [_ He]. unfold Rgtb in He.
  destruct (Rgt_dec e 0); [lra | discriminate].
Qed.

Lemma logDeterminant_sum_log_positive {E : Eigen} (x : mat) :
  logDeterminant x = sum_log_positive (eigvals x).
Proof.
  unfold logDeterminant.
  induction (eigvals x) as [|e l IH]; [reflexivity|].
  simpl. unfold Rgtb at 1.
  destruct (Rgt_dec e 0) as [Hp|Hn], (Rlt_dec 0 e) as [Hp'|Hn']; try lra;
    simpl; rewrite IH; reflexivity.
Qed.

Lemma log_det_or_fallback_nonpositive {E : Eigen} (c : mat) :
  (raises (det c) \/ exists d, det c = Ok d /\ d <= 0) ->
  log_det_or_fallback c = logDeterminant c.
Proof.
  unfold log_det_or_fallback. intros [[e He]|(d & Hd & Hle)].
  - now rewrite He.
  - rewrite Hd. simpl. unfold math_log.
    destruct (Rlt_dec 0 d); [lra | reflexivity].
Qed.

Lemma log_det_or_fallback_positive {E : Eigen} (c : mat) (d : R) :
  det c = Ok d -> 0 < d -> log_det_or_fallback c = ln d.
Proof.
  unfold log_det_or_fallback. intros Hd Hp. rewrite Hd. simpl.
  unfold math_log. destruct (Rlt_dec 0 d); [reflexivity | lra].
Qed.

(** The claim C7 as it is worded fails on a covariance whose
    determinant is zero.  The class holds the covariance [[1]] and the
    log-determinant 5, and is transformed by [[0]]: the new covariance
    is [[0]], its determinant is 0, and the sum of the logarithms of its
    strictly positive eigenvalues is the empty sum.  [transform] raises
    [LinAlgError] at the inversion, before it comes to the
    log-determinant, and the class keeps the 5.  [calcStatistics] on two
    equal pixels raises likewise and leaves no [logDetCov] at all. *)
Lemma logDetCov_singular_no_recovery :
  let cl := one_band_class 1 1 1 5 in
  let c' := mmul [[0]] (mmul [[1]] (transpose [[0]])) in
  let r := transform (E := diag_eigen) [[0]] cl in
  (exists d, det c' = Ok d /\ d <= 0) /\
  sum_log_positive (eigvals (Eigen := diag_eigen) c') = 0 /\
  snd r = Raise LinAlgError /\
  (exists st', stats (fst r) = Some st' /\ cov st' = Some c' /\
               logDetCov st' = Some 5) /\
  Some 5 <> Some (sum_log_positive (eigvals (Eigen := diag_eigen) c')) /\
  (let k := calcStatistics (E := diag_eigen) constant_class in
   snd k = Raise LinAlgError /\
   exists st c d, stats (fst k) = Some st /\ cov st = Some c /\
                  det c = Ok d /\ d <= 0 /\
                  logDetCov st = None).
Proof.
  intros cl c' r.
  assert (Hc' : c' = [[0 * (1 * 0 + 0) + 0]]) by reflexivity.
  assert (Hs : sum_log_positive (eigvals (Eigen := diag_eigen) c') = 0).
  { rewrite Hc'. simpl. destruct (Rlt_dec 0 _); [lra | reflexivity]. }
  split.
  { exists (0 * (1 * 0 + 0) + 0). split; [|lra].
    rewrite Hc'. unfold det. simpl. f_equal. ring. }
  split; [exact Hs|].
  assert (Hr : r = (with_stats cl
                      (set_cov (set_mean (one_band_stats 1 1 1 5)
                                         (mvmul [[0]] [1])) c'),
                    Raise LinAlgError)).
  { subst r cl.
    rewrite (transform_reaches_inv (E := diag_eigen) [[0]]
               (one_band_class 1 1 1 5) (one_band_stats 1 1 1 5) [1] [[1]]
               eq_refl eq_refl eq_refl eq_refl eq_refl eq_refl).
    cbv zeta. fold c'. rewrite Hc'.
    replace (0 * (1 * 0 + 0) + 0) with 0 by lra.
    rewrite (inv_singular _ singular_1x1_zero). reflexivity. }
  rewrite Hr. cbn [fst snd].
  split; [reflexivity|].
  split; [eexists; repeat split|].
  split.
  { rewrite Hs. intros H. injection H as H. lra. }
  assert (Hz : (0 + (2 * 2 + 0) + (2 * 2 + 0)
                - ((0 + 2 + 2) * (0 + 2 + 2) + 0) / (1 + 1)) / (1 + 1 - 1) = 0)
    by lra.
  assert (Hk : calcStatistics (E := diag_eigen) constant_class =
               (with_stats constant_class
                  {| mean := Some [(0 + 2 + 2) / (1 + 1)];
                     cov := Some [[(0 + (2 * 2 + 0) + (2 * 2 + 0)
                                    - ((0 + 2 + 2) * (0 + 2 + 2) + 0) / (1 + 1))
                                   / (1 + 1 - 1)]];
                     invCov := None; logDetCov := None; numSamples := 2 |},
                Raise LinAlgError)).
  { unfold calcStatistics.
    change (mean_cov (FromImage (image constant_class)
                        (Some (mask constant_class))
                        (Some (index constant_class))))
      with (Ok ([(0 + 2 + 2) / (1 + 1)],
                [[(0 + (2 * 2 + 0) + (2 * 2 + 0)
                   - ((0 + 2 + 2) * (0 + 2 + 2) + 0) / (1 + 1))
                  / (1 + 1 - 1)]], 2%nat)).
    cbv iota beta. change (Nat.ltb 2 2) with false. cbv iota beta delta [andb].
    rewrite Hz. rewrite (inv_singular _ singular_1x1_zero). reflexivity. }
  rewrite Hk. cbn [fst snd]. split; [reflexivity|].
  eexists. eexists. exists 0.
  split; [reflexivity|]. split; [reflexivity|].
  split; [|split; [lra | reflexivity]].
  unfold det. simpl. f_equal. lra.
Qed.

(** C7, amended: the program computes [logDetCov] only once the
    inversion of the covariance has succeeded; on a singular covariance
    both methods raise [LinAlgError] and compute none.  After a
    successful inversion, [calcStatistics] stores the sum of the
    logarithms of the strictly positive eigenvalues of the covariance,
    whatever its determinant, and [transform] stores the logarithm of
    the determinant of the new covariance when that determinant is
    positive and, when it cannot be computed or is not positive, that
    same sum of logarithms, without failing on that account. *)
Theorem logDetCov_eigenvalue_fallback {E : Eigen} :
  (forall (cl : TrainingClass) (m : vec) (c : mat) (n : nat),
      mean_cov (FromImage (image cl) (Some (mask cl)) (Some (index cl))) =
        Ok (m, c, n) ->
      (2 <= n)%nat ->
      (invertible c ->
       exists cl' st,
         calcStatistics cl = (cl', Ok tt) /\
         stats cl' = Some st /\ cov st = Some c /\
         logDetCov st = Some (sum_log_positive (eigvals c))) /\
      (~ invertible c ->
       exists cl' st,
         calcStatistics cl = (cl', Raise LinAlgError) /\
         stats cl' = Some st /\ cov st = Some c /\
         logDetCov st = None)) /\
  (forall (X : mat) (cl : TrainingClass) (st : GaussianStats)
          (m : vec) (c : mat),
      stats cl = Some st -> mean st = Some m -> cov st = Some c ->
      ncols X = length m -> ncols c = ncols X -> nrows c = ncols X ->
      let c' := mmul X (mmul c (transpose X)) in
      (invertible c' ->
       exists st',
         stats (fst (transform X cl)) = Some st' /\
         cov st' = Some c' /\
         (forall d, det c' = Ok d -> 0 < d -> logDetCov st' = Some (ln d)) /\
         ((raises (det c') \/ exists d, det c' = Ok d /\ d <= 0) ->
          logDetCov st' = Some (sum_log_positive (eigvals c'))) /\
         (forall e, snd (transform X cl) = Raise e ->
                    transformImage X (image cl) = Raise e)) /\
      (~ invertible c' ->
       exists st',
         transform X cl = (with_stats cl st', Raise LinAlgError) /\
         cov st' = Some c' /\
         logDetCov st' = logDetCov st)).
Proof.
  split.
  - intros cl m c n Hmc Hn. unfold calcStatistics. rewrite Hmc.
    assert (Hlt : Nat.ltb n 2 = false) by (apply Nat.ltb_ge; exact Hn).
    rewrite Hlt. cbn [andb]. split.
    + intros [ic Hic]. rewrite (inv_of_inverse _ _ Hic).
      eexists. eexists. split; [reflexivity|]. simpl.
      rewrite logDeterminant_sum_log_positive. repeat split.
    + intros Hs. rewrite (inv_singular _ Hs).
      eexists. eexists. split; [reflexivity|]. simpl. repeat split.
  - intros X cl st m c Hst Hm Hc HX Hcc Hcr c'.
    rewrite (transform_reaches_inv X cl st m c Hst Hm Hc HX Hcc Hcr).
    cbv zeta. fold c'. split.
    + intros [ic Hic]. rewrite (inv_of_inverse _ _ Hic).
      exists (set_logDetCov
                (set_invCov (set_cov (set_mean st (mvmul X m)) c') ic)
                (log_det_or_fallback c')).
      split; [destruct (transformImage X (image cl)); reflexivity|].
      split; [reflexivity|].
      split; [|split].
      * intros d Hd Hp. simpl.
        now rewrite (log_det_or_fallback_positive _ _ Hd Hp).
      * intros Hdet. simpl.
        rewrite (log_det_or_fallback_nonpositive _ Hdet).
        now rewrite logDeterminant_sum_log_positive.
      * intros e. destruct (transformImage X (image cl)) as [im'|e'];
          simpl; [discriminate | intros H; injection H as ->; reflexivity].
    + intros Hs. rewrite (inv_singular _ Hs).
      eexists. split; [reflexivity|]. simpl. split; reflexivity.
Qed.

Lemma logDetCov_eigenvalue_fallback_witness :
  (exists cl' st c,
     calcStatistics (E := diag_eigen) two_pixel_class = (cl', Ok tt) /\
     stats cl' = Some st /\ cov st = Some c /\
     logDetCov st = Some (sum_log_positive (eigvals (Eigen := diag_eigen) c))) /\
  (exists st',
     stats (fst (transform (E := diag_eigen) [[1]] (one_band_class 0 2 (/ 2) 0)))
       = Some st' /\
     forall d, det (mmul [[1]] (mmul [[2]] (transpose [[1]]))) = Ok d ->
               0 < d -> logDetCov st' = Some (ln d)) /\
  (exists st',
     stats (fst (transform (E := diag_eigen) [[1]] (one_band_class 0 (-1) (-1) 0)))
       = Some st' /\
     logDetCov st' =
       Some (sum_log_positive
               (eigvals (Eigen := diag_eigen)
                  (mmul [[1]] (mmul [[-1]] (transpose [[1]])))))).
Proof.
  destruct (logDetCov_eigenvalue_fallback (E := diag_eigen)) as [HA HB].
  split; [|split].
  - destruct (HA two_pixel_class
                [(0 + 1 + 3) / (1 + 1)]
                [[(0 + (1 * 1 + 0) + (3 * 3 + 0)
                   - ((0 + 1 + 3) * (0 + 1 + 3) + 0) / (1 + 1)) / (1 + 1 - 1)]]
                2%nat eq_refl (le_n 2)) as [Hok _].
    destruct Hok as (cl' & st & H1 & H2 & H3 & H4).
    + eexists. apply is_inverse_1x1. lra.
    + exists cl', st. eexists. repeat split; eassumption.
  - destruct (HB [[1]] (one_band_class 0 2 (/ 2) 0) (one_band_stats 0 2 (/ 2) 0)
                [0] [[2]] eq_refl eq_refl eq_refl eq_refl eq_refl eq_refl)
      as [Hok _].
    destruct Hok as (st' & H1 & _ & H3 & _).
    + rewrite product_1x1. eexists. apply is_inverse_1x1. lra.
    + exists st'. split; [exact H1 | exact H3].
  - destruct (HB [[1]] (one_band_class 0 (-1) (-1) 0)
                (one_band_stats 0 (-1) (-1) 0)
                [0] [[-1]] eq_refl eq_refl eq_refl eq_refl eq_refl eq_refl)
      as [Hok _].
    destruct Hok as (st' & H1 & _ & _ & H4 & _).
    + rewrite product_1x1. eexists. apply is_inverse_1x1. lra.
    + exists st'. split; [exact H1|]. apply H4.
      right. rewrite product_1x1. eexists. split; [reflexivity|].
      simpl. lra.
Defined.

(** ** Entries of sums, differences and quotients *)

Lemma nth_map2 {A B C : Type} (f : A -> B -> C) (a : list A) (b : list B)
    (da : A) (db : B) (dc : C) (i : nat) :
  length a = length b -> f da db = dc ->
  nth i (map2 f a b) dc = f (nth i a da) (nth i b db).
Proof.
  intros Hlen Hd. revert b i Hlen.
  induction a as [|x a IH]; intros [|y b] i Hlen; simpl in Hlen; try lia.
  - destruct i; simpl; congruence.
  - destruct i as [|i]; simpl; [reflexivity|]. apply IH. lia.
Qed.

Lemma length_map2 {A B C : Type} (f : A -> B -> C) (a : list A) (b : list B) :
  length a = length b -> length (map2 f a b) = length a.
Proof.
  revert b. induction a as [|x a IH]; intros [|y b] H; simpl in *; try lia.
  rewrite IH; lia.
Qed.

Lemma nth_map_default {A B : Type} (h : A -> B) (l : list A) (d : A) (d' : B)
    (j : nat) :
  h d = d' -> nth j (map h l) d' = h (nth j l d).
Proof.
  intros <-. apply map_nth.
Qed.

Lemma nth_map_R (h : R -> R) (r : vec) (j : nat) :
  h 0 = 0 -> nth j (map h r) 0 = h (nth j r 0).
Proof. apply nth_map_default. Qed.

Lemma nth_vadd (a b : vec) (i : nat) :
  length a = length b -> nth i (vadd a b) 0 = nth i a 0 + nth i b 0.
Proof.
  intros H. apply nth_map2; [exact H | lra].
Qed.

Lemma nth_vsub (a b : vec) (i : nat) :
  length a = length b -> nth i (vsub a b) 0 = nth i a 0 - nth i b 0.
Proof.
  intros H. apply nth_map2; [exact H | lra].
Qed.

Lemma nth_vdiv (a : vec) (c : R) (i : nat) :
  nth i (vdiv a c) 0 = nth i a 0 / c.
Proof.
  unfold vdiv. apply (nth_map_R (fun x => x / c)). unfold Rdiv. lra.
Qed.

Lemma nth_vscale (a : vec) (c : R) (i : nat) :
  nth i (vscale c a) 0 = c * nth i a 0.
Proof.
  unfold vscale. apply (nth_map_R (Rmult c)). lra.
Qed.

Lemma length_vadd (a b : vec) :
  length a = length b -> length (vadd a b) = length a.
Proof. apply length_map2. Qed.

Lemma length_vsub (a b : vec) :
  length a = length b -> length (vsub a b) = length a.
Proof. apply length_map2. Qed.

Lemma length_vdiv (a : vec) (c : R) : length (vdiv a c) = length a.
Proof. apply length_map. Qed.

Lemma length_vscale (a : vec) (c : R) : length (vscale c a) = length a.
Proof. apply length_map. Qed.

Lemma nth_rows_length (n m : nat) (A B : mat) (i : nat) :
  Mat n m A -> Mat n m B -> length (nth i A []) = length (nth i B []).
Proof.
  intros HA HB. destruct (Nat.lt_ge_cases i n) as [Hi|Hi].
  - now rewrite (Mat_row _ _ _ i HA Hi), (Mat_row _ _ _ i HB Hi).
  - destruct HA as [HA _], HB as [HB _].
    rewrite !nth_overflow by lia. reflexivity.
Qed.

Lemma Mat_map2 (f : vec -> vec -> vec) (n m : nat) (A B : mat) :
  (forall a b, length a = m -> length b = m -> length (f a b) = m) ->
  Mat n m A -> Mat n m B -> Mat n m (map2 f A B).
Proof.
  intros Hf [HnA HmA] [HnB HmB]. split.
  - rewrite length_map2; congruence.
  - clear HnA HnB. revert B HmB.
    induction HmA as [|a A Ha HA IH]; intros [|b B] HmB; simpl; constructor.
    + inversion HmB; subst. now apply Hf.
    + inversion HmB; subst. now apply IH.
Qed.

Lemma Mat_madd (n m : nat) (A B : mat) :
  Mat n m A -> Mat n m B -> Mat n m (madd A B).
Proof.
  apply Mat_map2. intros a b Ha Hb. rewrite length_vadd; congruence.
Qed.

Lemma Mat_msub (n m : nat) (A B : mat) :
  Mat n m A -> Mat n m B -> Mat n m (msub A B).
Proof.
  apply Mat_map2. intros a b Ha Hb. rewrite length_vsub; congruence.
Qed.

Lemma Mat_map (g : vec -> vec) (n m : nat) (A : mat) :
  (forall a, length a = m -> length (g a) = m) ->
  Mat n m A -> Mat n m (map g A).
Proof.
  intros Hg [Hn Hm]. split.
  - now rewrite length_map.
  - apply Forall_map. eapply Forall_impl; [|exact Hm]. exact Hg.
Qed.

Lemma Mat_mdiv (n m : nat) (A : mat) (c : R) :
  Mat n m A -> Mat n m (mdiv A c).
Proof.
  apply Mat_map. intros a Ha. now rewrite length_vdiv.
Qed.

Lemma Mat_mscale (n m : nat) (A : mat) (c : R) :
  Mat n m A -> Mat n m (mscale c A).
Proof.
  apply Mat_map. intros a Ha. now rewrite length_vscale.
Qed.

Lemma mnth_madd (n m : nat) (A B : mat) (i j : nat) :
  Mat n m A -> Mat n m B ->
  mnth (madd A B) i j = mnth A i j + mnth B i j.
Proof.
  intros HA HB. unfold mnth, madd.
  rewrite (nth_map2 vadd A B [] [] [] i); [| destruct HA, HB; congruence | reflexivity].
  apply nth_vadd. apply (nth_rows_length n m); assumption.
Qed.

Lemma mnth_msub (n m : nat) (A B : mat) (i j : nat) :
  Mat n m A -> Mat n m B ->
  mnth (msub A B) i j = mnth A i j - mnth B i j.
Proof.
  intros HA HB. unfold mnth, msub.
  rewrite (nth_map2 vsub A B [] [] [] i); [| destruct HA, HB; congruence | reflexivity].
  apply nth_vsub. apply (nth_rows_length n m); assumption.
Qed.

Lemma mnth_mdiv (A : mat) (c : R) (i j : nat) :
  mnth (mdiv A c) i j = mnth A i j / c.
Proof.
  unfold mnth, mdiv.
  rewrite (nth_map_default (fun r => vdiv r c) A [] [] i eq_refl).
  apply nth_vdiv.
Qed.

Lemma mnth_mscale (A : mat) (c : R) (i j : nat) :
  mnth (mscale c A) i j = c * mnth A i j.
Proof.
  unfold mnth, mscale.
  rewrite (nth_map_default (vscale c) A [] [] i eq_refl).
  apply nth_vscale.
Qed.

Lemma length_zeros (n : nat) : length (zeros n) = n.
Proof. apply repeat_length. Qed.

Lemma nth_zeros (n i : nat) : nth i (zeros n) 0 = 0.
Proof.
  unfold zeros. destruct (Nat.lt_ge_cases i n) as [H|H].
  - now apply nth_repeat_lt.
  - apply nth_overflow. now rewrite repeat_length.
Qed.

Lemma Mat_zeros2 (n m : nat) : Mat n m (zeros2 n m).
Proof.
  split.
  - apply repeat_length.
  - apply Forall_forall. intros r Hr. apply repeat_spec in Hr. subst.
    apply length_zeros.
Qed.

Lemma mnth_zeros2 (n m i j : nat) : mnth (zeros2 n m) i j = 0.
Proof.
  unfold mnth, zeros2. destruct (Nat.lt_ge_cases i n) as [H|H].
  - rewrite nth_repeat_lt by exact H. apply nth_zeros.
  - rewrite (nth_overflow (repeat (zeros m) n) [])
      by now rewrite repeat_length.
    apply nth_nil_0.
Qed.

(** The outer product [dot(x[:, newaxis], transpose(x[:, newaxis]))]. *)
Lemma transpose_newaxis (x : vec) : x <> [] -> transpose (newaxis x) = [x].
Proof.
  destruct x as [|a x]; [congruence|]. intros _.
  unfold transpose, ncols. simpl. f_equal. f_equal.
  unfold col, newaxis. rewrite map_map. simpl. apply map_id.
Qed.

Lemma outer_rows (x : vec) :
  mmul (newaxis x) (transpose (newaxis x)) =
  map (fun a => map (fun j => a * nth j x 0 + 0) (seq 0 (length x))) x.
Proof.
  destruct x as [|a x]; [reflexivity|].
  rewrite transpose_newaxis by discriminate.
  unfold mmul, newaxis. rewrite map_map. reflexivity.
Qed.

Lemma Mat_outer (x : vec) :
  Mat (length x) (length x) (mmul (newaxis x) (transpose (newaxis x))).
Proof.
  rewrite outer_rows. split.
  - now rewrite length_map.
  - apply Forall_forall. intros r Hr. apply in_map_iff in Hr.
    destruct Hr as (a & <- & _). now rewrite length_map, length_seq.
Qed.

Lemma mnth_outer (x : vec) (i j : nat) :
  (i < length x)%nat -> (j < length x)%nat ->
  mnth (mmul (newaxis x) (transpose (newaxis x))) i j = nth i x 0 * nth j x 0.
Proof.
  intros Hi Hj. rewrite outer_rows. unfold mnth.
  rewrite (nth_indep _ [] ((fun a => map (fun j => a * nth j x 0 + 0)
                                       (seq 0 (length x))) 0))
    by now rewrite length_map.
  rewrite (map_nth (fun a => map (fun j => a * nth j x 0 + 0)
                                 (seq 0 (length x))) x 0 i).
  rewrite nth_map_seq by exact Hj. lra.
Qed.

(** ** mean_cov: the moments *)

Lemma lsum_cons {A : Type} (f : A -> R) (x : A) (xs : list A) :
  lsum f (x :: xs) = f x + lsum f xs.
Proof. reflexivity. Qed.

Lemma accumulate_moments (B : nat) (xs : list vec) (s0 : moments) :
  Forall (fun x => length x = B) xs ->
  length (sumX s0) = B -> Mat B B (sumX2 s0) ->
  let s := fold_left (accumulate Floating) xs s0 in
  length (sumX s) = B /\ Mat B B (sumX2 s) /\
  (forall i, nth i (sumX s) 0 =
             nth i (sumX s0) 0 + lsum (fun x => nth i x 0) xs) /\
  (forall i j, (i < B)%nat -> (j < B)%nat ->
     mnth (sumX2 s) i j =
     mnth (sumX2 s0) i j + lsum (fun x => nth i x 0 * nth j x 0) xs).
Proof.
  intros Hxs. revert s0.
  induction Hxs as [|x xs Hx Hxs IH]; intros s0 H1 H2; simpl.
  - split; [exact H1|]. split; [exact H2|].
    split; intros; unfold lsum; simpl; lra.
  - assert (Hout : Mat B B (mmul (newaxis x) (transpose (newaxis x)))).
    { rewrite <- Hx. apply Mat_outer. }
    destruct (IH (accumulate Floating s0 x)) as (L1 & L2 & L3 & L4).
    + simpl. rewrite length_vadd; congruence.
    + simpl. now apply Mat_madd.
    + split; [exact L1|]. split; [exact L2|]. split.
      * intros i. rewrite L3. simpl. rewrite nth_vadd by congruence.
        rewrite lsum_cons. lra.
      * intros i j Hi Hj. rewrite L4 by assumption. simpl.
        rewrite (mnth_madd B B) by assumption.
        rewrite mnth_outer by (rewrite Hx; assumption).
        rewrite lsum_cons. lra.
Qed.

(** The entries of what [mean_cov] returns on samples of floats. *)
Lemma mean_cov_values_entries (it : Iterator) (B : nat) :
  sample_type it = Floating ->
  getNumBands it = B ->
  Forall (fun x => length x = B) (iter it) ->
  let xs := iter it in
  let N := INR (length xs) in
  let '(mean, cov, n) := mean_cov_values it in
  n = length xs /\ length mean = B /\ Mat B B cov /\
  (forall i, nth i mean 0 = lsum (fun x => nth i x 0) xs / N) /\
  (forall i j, (i < B)%nat -> (j < B)%nat ->
     mnth cov i j =
     (lsum (fun x => nth i x 0 * nth j x 0) xs
      - lsum (fun x => nth i x 0) xs * lsum (fun x => nth j x 0) xs / N)
     / (N - 1)).
Proof.
  intros Ht HB Hxs. unfold mean_cov_values. rewrite HB, Ht.
  set (s0 := {| count := 0; sumX := zeros B; sumX2 := zeros2 B B |}).
  destruct (accumulate_moments B (iter it) s0 Hxs) as (L1 & L2 & L3 & L4).
  { apply length_zeros. }
  { apply Mat_zeros2. }
  set (s := fold_left (accumulate Floating) (iter it) s0) in *.
  assert (Hcount : count s = length (iter it)).
  { unfold s. now rewrite accumulate_count. }
  rewrite Hcount.
  split; [reflexivity|]. split; [now rewrite length_vdiv|].
  assert (Hout : Mat B B (mmul (newaxis (sumX s)) (transpose (newaxis (sumX s))))).
  { rewrite <- L1 at 1 2. apply Mat_outer. }
  split.
  { apply Mat_mdiv, Mat_msub; [exact L2 | now apply Mat_mdiv]. }
  split.
  - intros i. rewrite nth_vdiv, L3. simpl. rewrite nth_zeros. f_equal. lra.
  - intros i j Hi Hj.
    rewrite mnth_mdiv, (mnth_msub B B) by (try apply Mat_mdiv; assumption).
    rewrite mnth_mdiv, mnth_outer by (rewrite L1; assumption).
    rewrite L4 by assumption. rewrite !L3. simpl.
    rewrite mnth_zeros2, !nth_zeros. f_equal. f_equal; [lra|].
    f_equal. f_equal; lra.
Qed.

(** Quadratic forms as double sums. *)
Lemma nth_mvmul (A : mat) (v : vec) (i : nat) :
  nth i (mvmul A v) 0 = vdot (nth i A []) v.
Proof.
  unfold mvmul. now apply (nth_map_default (fun r => vdot r v) A [] 0 i).
Qed.

Lemma length_mvmul (A : mat) (v : vec) : length (mvmul A v) = length A.
Proof. apply length_map. Qed.

Lemma quadratic_form_sum (n : nat) (A : mat) (v : vec) :
  Mat n n A -> length v = n ->
  vdot v (mvmul A v) =
  bigsum n (fun i => nth i v 0 * bigsum n (fun j => mnth A i j * nth j v 0)).
Proof.
  intros HA Hv.
  rewrite (vdot_bigsum v (mvmul A v) n Hv)
    by (rewrite length_mvmul; now destruct HA).
  apply bigsum_ext. intros i Hi. f_equal.
  rewrite nth_mvmul.
  apply (vdot_bigsum (nth i A []) v n); [apply (Mat_row _ _ _ i HA Hi) | exact Hv].
Qed.

Lemma lsum_bigsum (n : nat) (f : nat -> vec -> R) (xs : list vec) :
  bigsum n (fun i => lsum (f i) xs) = lsum (fun x => bigsum n (fun i => f i x)) xs.
Proof.
  induction xs as [|x xs IH].
  - unfold lsum. simpl. apply bigsum_zero.
  - rewrite lsum_cons, <- IH, <- bigsum_plus. reflexivity.
Qed.

Lemma lsum_scale {A : Type} (c : R) (f : A -> R) (xs : list A) :
  lsum (fun x => c * f x) xs = c * lsum f xs.
Proof.
  induction xs as [|x xs IH]; [unfold lsum; simpl; lra|].
  rewrite !lsum_cons, IH. lra.
Qed.

Lemma lsum_ext {A : Type} (f g : A -> R) (xs : list A) :
  (forall x, In x xs -> f x = g x) -> lsum f xs = lsum g xs.
Proof.
  intros H. induction xs as [|x xs IH]; [reflexivity|].
  rewrite !lsum_cons, IH, H; auto using in_eq, in_cons.
Qed.

(** [sum_i v_i sum_k x_k[i] = sum_k v . x_k] *)
Lemma weighted_sum_of_sums (n : nat) (v : vec) (xs : list vec) :
  length v = n -> Forall (fun x => length x = n) xs ->
  bigsum n (fun i => nth i v 0 * lsum (fun x => nth i x 0) xs) =
  lsum (fun x => vdot v x) xs.
Proof.
  intros Hv Hxs.
  rewrite (bigsum_ext n _ (fun i => lsum (fun x => nth i v 0 * nth i x 0) xs))
    by (intros; now rewrite lsum_scale).
  rewrite lsum_bigsum. apply lsum_ext. intros x Hx.
  rewrite Forall_forall in Hxs. symmetry.
  apply vdot_bigsum; auto.
Qed.

(** [sum_ij v_i v_j sum_k x_k[i] x_k[j] = sum_k (v . x_k)^2] *)
Lemma weighted_sum_of_products (n : nat) (v : vec) (xs : list vec) :
  length v = n -> Forall (fun x => length x = n) xs ->
  bigsum n (fun i => nth i v 0 *
    bigsum n (fun j => lsum (fun x => nth i x 0 * nth j x 0) xs * nth j v 0)) =
  lsum (fun x => vdot v x * vdot v x) xs.
Proof.
  intros Hv Hxs.
  rewrite (bigsum_ext n _
    (fun i => lsum (fun x => nth i v 0 * nth i x 0 * vdot v x) xs)).
  - rewrite lsum_bigsum. apply lsum_ext. intros x Hx.
    rewrite bigsum_scale_r. f_equal.
    rewrite Forall_forall in Hxs. symmetry. apply vdot_bigsum; auto.
  - intros i Hi.
    rewrite (bigsum_ext n _
      (fun j => lsum (fun x => nth i x 0 * (nth j v 0 * nth j x 0)) xs)).
    + rewrite lsum_bigsum, <- lsum_scale. apply lsum_ext. intros x Hx.
      rewrite bigsum_scale.
      rewrite Forall_forall in Hxs.
      rewrite (vdot_bigsum v x n) by auto. lra.
    + intros j Hj. rewrite Rmult_comm, <- lsum_scale.
      apply lsum_ext. intros x _. lra.
Qed.

(** The sum of squared deviations from [m]. *)
Lemma lsum_squared_deviation {A : Type} (f : A -> R) (m : R) (xs : list A) :
  lsum (fun x => (f x - m) * (f x - m)) xs =
  lsum (fun x => f x * f x) xs - 2 * m * lsum f xs + INR (length xs) * (m * m).
Proof.
  induction xs as [|x xs IH].
  - unfold lsum. simpl. lra.
  - rewrite !lsum_cons, IH.
    change (length (x :: xs)) with (S (length xs)). rewrite S_INR. lra.
Qed.

Lemma lsum_nonneg {A : Type} (f : A -> R) (xs : list A) :
  (forall x, 0 <= f x) -> 0 <= lsum f xs.
Proof.
  intros H. induction xs as [|x xs IH]; [unfold lsum; simpl; lra|].
  rewrite lsum_cons. specialize (H x). lra.
Qed.

Lemma sum_squares_ge_square_sum {A : Type} (f : A -> R) (xs : list A) :
  (0 < length xs)%nat ->
  0 <= lsum (fun x => f x * f x) xs
       - lsum f xs * lsum f xs / INR (length xs).
Proof.
  intros Hn.
  assert (HN : 0 < INR (length xs)) by now apply lt_0_INR.
  pose proof (lsum_squared_deviation f (lsum f xs / INR (length xs)) xs) as H.
  assert (0 <= lsum (fun x => (f x - lsum f xs / INR (length xs)) *
                              (f x - lsum f xs / INR (length xs))) xs) as Hpos.
  { apply lsum_nonneg. intros x. apply Rle_0_sqr. }
  rewrite H in Hpos.
  replace (lsum (fun x => f x * f x) xs
           - lsum f xs * lsum f xs / INR (length xs))
    with (lsum (fun x => f x * f x) xs
          - 2 * (lsum f xs / INR (length xs)) * lsum f xs
          + INR (length xs) * (lsum f xs / INR (length xs) *
                               (lsum f xs / INR (length xs)))).
  - exact Hpos.
  - field. lra.
Qed.

Lemma quadratic_form_split (n : nat) (w S : nat -> R) (P : nat -> nat -> R)
    (N D : R) :
  bigsum n (fun i => w i *
    bigsum n (fun j => (P i j - S i * S j / N) / D * w j)) =
  (bigsum n (fun i => w i * bigsum n (fun j => P i j * w j))
   - bigsum n (fun i => w i * S i) * bigsum n (fun i => w i * S i) / N) / D.
Proof.
  set (T := bigsum n (fun i => w i * S i)).
  rewrite (bigsum_ext n _
    (fun i => / D * (w i * bigsum n (fun j => P i j * w j))
              - (T / N / D) * (w i * S i))).
  - rewrite bigsum_minus, !bigsum_scale. fold T. unfold Rdiv. ring.
  - intros i _.
    rewrite (bigsum_ext n _
      (fun j => / D * (P i j * w j) - (S i / N / D) * (w j * S j))).
    + rewrite bigsum_minus, !bigsum_scale. fold T. unfold Rdiv. ring.
    + intros j _. unfold Rdiv. ring.
Qed.

(** X29: on a source of [N >= 2] vectors of floats of dimension [B]
    (which announces [N] elements), [mean_cov]
    returns the count [N], the mean whose entries are the averages of
    the entries of the vectors, and the covariance
    [(sum x x^T - (sum x)(sum x)^T / N) / (N - 1)], a [B x B] matrix that
    is symmetric and positive semi-definite (in exact arithmetic). *)
Theorem mean_cov_mean_and_covariance (it : Iterator) (B : nat) :
  sample_type it = Floating ->
  getNumBands it = B ->
  getNumElements it = length (iter it) ->
  Forall (fun x => length x = B) (iter it) ->
  (2 <= length (iter it))%nat ->
  let xs := iter it in
  let N := INR (length xs) in
  exists mean cov,
    mean_cov (FromIterator it) = Ok (mean, cov, length xs) /\
    length mean = B /\ Mat B B cov /\
    (forall i, (i < B)%nat ->
       nth i mean 0 = lsum (fun x => nth i x 0) xs / N) /\
    (forall i j, (i < B)%nat -> (j < B)%nat ->
       mnth cov i j =
       (lsum (fun x => nth i x 0 * nth j x 0) xs
        - lsum (fun x => nth i x 0) xs * lsum (fun x => nth j x 0) xs / N)
       / (N - 1)) /\
    symmetric B cov /\
    positive_semidefinite B cov.
Proof.
  intros Ht HB Hcons Hxs HN xs N.
  pose proof (mean_cov_values_entries it B Ht HB Hxs) as H.
  unfold mean_cov. simpl. rewrite (mean_cov_of_consistent it Hcons).
  destruct (mean_cov_values it) as [[mean cov] n].
  destruct H as (Hn & Hlen & Hmat & Hmean & Hcov). subst n.
  exists mean, cov.
  split; [reflexivity|]. split; [exact Hlen|]. split; [exact Hmat|].
  split; [intros i _; apply Hmean|]. split; [exact Hcov|]. split.
  - intros i j Hi Hj. rewrite !Hcov by assumption.
    f_equal. f_equal.
    + apply lsum_ext. intros x _. lra.
    + f_equal. lra.
  - intros v Hv.
    rewrite (quadratic_form_sum B cov v Hmat Hv).
    rewrite (bigsum_ext B _
      (fun i => nth i v 0 * bigsum B (fun j =>
         (lsum (fun x => nth i x 0 * nth j x 0) xs
          - lsum (fun x => nth i x 0) xs * lsum (fun x => nth j x 0) xs / N)
         / (N - 1) * nth j v 0))).
    2:{ intros i Hi. f_equal. apply bigsum_ext. intros j Hj.
        now rewrite Hcov. }
    rewrite (quadratic_form_split B (fun i => nth i v 0)
               (fun i => lsum (fun x => nth i x 0) xs)
               (fun i j => lsum (fun x => nth i x 0 * nth j x 0) xs)).
    rewrite (weighted_sum_of_products B v xs Hv Hxs).
    rewrite (weighted_sum_of_sums B v xs Hv Hxs).
    assert (HN1 : 0 < N - 1).
    { unfold N, xs. apply (le_INR 2) in HN. simpl in HN. lra. }
    apply Rmult_le_pos; [|left; now apply Rinv_0_lt_compat].
    apply sum_squares_ge_square_sum. unfold xs. lia.
Qed.

Lemma mean_cov_mean_and_covariance_witness :
  exists mean cov,
    mean_cov (FromIterator two_samples) = Ok (mean, cov, 2%nat) /\
    length mean = 1%nat /\
    nth 0 mean 0 = (1 + (3 + 0)) / INR 2 /\
    symmetric 1 cov /\ positive_semidefinite 1 cov.
Proof.
  destruct (mean_cov_mean_and_covariance two_samples 1)
    as (mean & cov & H1 & H2 & _ & H4 & _ & H6 & H7).
  - reflexivity.
  - reflexivity.
  - reflexivity.
  - repeat constructor.
  - simpl. lia.
  - exists mean, cov. split; [exact H1|]. split; [exact H2|].
    split; [|split; assumption].
    apply (H4 O). lia.
Defined.

(** ** mean_cov on an image of integers *)

Lemma Int_part_IZR (z : Z) : Int_part (IZR z) = z.
Proof. symmetry. apply Int_part_spec. split; lra. Qed.

(** C3: the claim is the one of the documentation of [mean_cov], which
    promises the unbiased estimate of the covariance of the vectors,
    and the program departs from it on an image of integers.  On the
    two pixels 200 and 100 of an image of 16-bit integers the product
    [dot(x, transpose(x))] is formed in 16 bits: 200 * 200 wraps around
    to -25536, the sum of the products comes to -15536 instead of
    50000, and [mean_cov] returns the covariance -60536 where the
    formula of the claim gives 5000; what it returns is not positive
    semi-definite.  The mean and the count are right. *)
Theorem mean_cov_int16_products_wrap :
  let xs := ravel (pixels int16_image) in
  mean_cov (FromImage int16_image None None) = Ok ([150], [[-60536]], 2%nat) /\
  (lsum (fun x => nth 0 x 0 * nth 0 x 0) xs
   - lsum (fun x => nth 0 x 0) xs * lsum (fun x => nth 0 x 0) xs
     / INR (length xs)) / (INR (length xs) - 1) = 5000 /\
  ~ positive_semidefinite 1 [[-60536]].
Proof.
  intros xs. split; [|split].
  - unfold mean_cov, iterator, bind, mean_cov_of. simpl.
    unfold mean_cov_values. simpl.
    replace (200 * 200 + 0) with (IZR 40000) by lra.
    replace (100 * 100 + 0) with (IZR 10000) by lra.
    rewrite !Int_part_IZR.
    change ((40000 + Z.pow_pos 2 15) mod Z.pow_pos 2 16 - Z.pow_pos 2 15)%Z
      with (-25536)%Z.
    change ((10000 + Z.pow_pos 2 15) mod Z.pow_pos 2 16 - Z.pow_pos 2 15)%Z
      with 10000%Z.
    replace ((0 + 200 + 100) / (1 + 1)) with 150 by lra.
    replace ((0 + -25536 + 10000
              - ((0 + 200 + 100) * (0 + 200 + 100) + 0) / (1 + 1))
             / (1 + 1 - 1)) with (-60536) by lra.
    reflexivity.
  - unfold xs, lsum. simpl. lra.
  - intros H. specialize (H [1] eq_refl).
    unfold vdot, mvmul in H. simpl in H. lra.
Qed.

(** ** Columns, slices and transposes *)

Lemma length_set_nth (j : nat) (x : R) (r : vec) :
  length (set_nth j x r) = length r.
Proof.
  revert j. induction r as [|y r IH]; intros [|j]; simpl; auto.
Qed.

Lemma nth_set_nth (j : nat) (x : R) (r : vec) (c : nat) :
  (j < length r)%nat ->
  nth c (set_nth j x r) 0 = if Nat.eqb c j then x else nth c r 0.
Proof.
  revert j c. induction r as [|y r IH]; intros j c Hj; simpl in Hj; [lia|].
  destruct j as [|j], c as [|c]; simpl; auto.
  apply IH. lia.
Qed.

Lemma Mat_set_col (n m : nat) (A : mat) (i : nat) (w : vec) :
  Mat n m A -> length w = n -> Mat n m (set_col i w A).
Proof.
  intros [Hn Hm] Hw. split.
  - unfold set_col. rewrite length_map2; congruence.
  - unfold set_col. clear Hn Hw. revert w.
    induction Hm as [|r A Hr HA IH]; intros [|x w]; simpl; constructor.
    + now rewrite length_set_nth.
    + apply IH.
Qed.

Lemma nth_set_col_row (n m : nat) (A : mat) (i : nat) (w : vec) (r : nat) :
  Mat n m A -> length w = n -> (r < n)%nat ->
  nth r (set_col i w A) [] = set_nth i (nth r w 0) (nth r A []).
Proof.
  intros [Hn _] Hw. subst n. revert w r Hw.
  induction A as [|a A IH]; intros [|x w] r Hw Hr; simpl in *; try lia.
  destruct r as [|r]; [reflexivity|]. apply IH; lia.
Qed.

Lemma mnth_set_col (n m : nat) (A : mat) (i : nat) (w : vec) (r c : nat) :
  Mat n m A -> length w = n -> (r < n)%nat -> (i < m)%nat ->
  mnth (set_col i w A) r c = if Nat.eqb c i then nth r w 0 else mnth A r c.
Proof.
  intros HA Hw Hr Hi. unfold mnth.
  rewrite (nth_set_col_row n m) by assumption.
  apply nth_set_nth. now rewrite (Mat_row _ _ _ r HA Hr).
Qed.

Lemma col_ext (n : nat) (a b : vec) :
  length a = n -> length b = n ->
  (forall r, (r < n)%nat -> nth r a 0 = nth r b 0) -> a = b.
Proof.
  intros Ha Hb H. apply (nth_ext a b 0 0); [congruence|].
  intros r Hr. apply H. lia.
Qed.

Lemma col_set_col_same (n m : nat) (A : mat) (i : nat) (w : vec) :
  Mat n m A -> length w = n -> (i < m)%nat ->
  col i (set_col i w A) = w.
Proof.
  intros HA Hw Hi. apply (col_ext n).
  - rewrite length_col. now apply (Mat_set_col n m).
  - exact Hw.
  - intros r Hr. rewrite nth_col, (mnth_set_col n m) by assumption.
    now rewrite Nat.eqb_refl.
Qed.


Lemma set_col_twice (n m : nat) (A : mat) (i : nat) (w w' : vec) :
  Mat n m A -> length w = n -> length w' = n -> (i < m)%nat ->
  set_col i w' (set_col i w A) = set_col i w' A.
Proof.
  intros HA Hw Hw' Hi.
  assert (H1 : Mat n m (set_col i w A)) by now apply Mat_set_col.
  apply (mat_ext n m).
  - now apply Mat_set_col.
  - now apply Mat_set_col.
  - intros r c Hr Hc. rewrite !(mnth_set_col n m) by assumption.
    now destruct (Nat.eqb c i).
Qed.

Lemma Mat_cols_before (n m : nat) (A : mat) (i : nat) :
  Mat n m A -> (i <= m)%nat -> Mat n i (cols_before i A).
Proof.
  intros [Hn Hm] Hi. split.
  - unfold cols_before. now rewrite length_map.
  - unfold cols_before. apply Forall_map.
    eapply Forall_impl; [|exact Hm].
    intros r Hr. cbv beta in *. rewrite length_firstn. lia.
Qed.

Lemma mnth_cols_before (A : mat) (i r c : nat) :
  (c < i)%nat -> mnth (cols_before i A) r c = mnth A r c.
Proof.
  intros Hc. unfold mnth, cols_before.
  rewrite (nth_map_default (firstn i) A [] [] r (firstn_nil R i)).
  rewrite nth_firstn.
  destruct (Nat.ltb_spec c i); [reflexivity | lia].
Qed.

Lemma Mat_transpose (n m : nat) (A : mat) :
  Mat n m A -> (0 < n)%nat -> Mat m n (transpose A).
Proof.
  intros HA Hn. unfold transpose. rewrite (Mat_ncols _ _ _ HA Hn). split.
  - now rewrite length_map, length_seq.
  - apply Forall_forall. intros r Hr. apply in_map_iff in Hr.
    destruct Hr as (j & <- & _). rewrite length_col. now destruct HA.
Qed.

Lemma nth_transpose (A : mat) (j : nat) :
  (j < ncols A)%nat -> nth j (transpose A) [] = col j A.
Proof.
  intros Hj. unfold transpose.
  exact (nth_map_seq (fun j => col j A) (ncols A) j [] Hj).
Qed.

Lemma mnth_transpose (A : mat) (j r : nat) :
  (j < ncols A)%nat -> mnth (transpose A) j r = mnth A r j.
Proof.
  intros Hj. unfold mnth at 1. rewrite nth_transpose by exact Hj.
  apply nth_col.
Qed.

Lemma col_transpose (n m : nat) (A : mat) (r : nat) :
  Mat n m A -> (0 < n)%nat -> (r < n)%nat ->
  col r (transpose A) = nth r A [].
Proof.
  intros HA Hn Hr.
  pose proof (Mat_ncols _ _ _ HA Hn) as Hc.
  apply (col_ext m).
  - rewrite length_col. apply (Mat_transpose n m A HA Hn).
  - apply (Mat_row _ _ _ r HA Hr).
  - intros j Hj. rewrite nth_col, mnth_transpose by lia. reflexivity.
Qed.

(** ** orthogonalize: one turn of the loop *)

Section OrthogonalizeStep.

Variables (B C i : nat) (basis : mat).
Hypothesis HB : (0 < B)%nat.
Hypothesis Hi : (0 < i < C)%nat.
Hypothesis Hbasis : Mat B C basis.
Hypothesis Hortho : forall a b, (a < i)%nat -> (b < i)%nat ->
  vdot (col a basis) (col b basis) = delta a b.

Let U : mat := cols_before i basis.

Lemma step_U_shape : Mat B i U /\ ncols U = i.
Proof.
  assert (H : Mat B i U) by (apply (Mat_cols_before B C); [exact Hbasis | lia]).
  split; [exact H | apply (Mat_ncols _ _ _ H HB)].
Qed.

Lemma step_Ut_shape : Mat i B (transpose U) /\ ncols (transpose U) = B.
Proof.
  destruct step_U_shape as [HU _].
  assert (H : Mat i B (transpose U)) by apply (Mat_transpose B i U HU HB).
  split; [exact H | apply (Mat_ncols _ _ _ H); lia].
Qed.

Lemma vdot_cols (a b : nat) :
  vdot (col a basis) (col b basis) =
  bigsum B (fun r => mnth basis r a * mnth basis r b).
Proof.
  destruct Hbasis as [Hn _].
  rewrite (vdot_bigsum (col a basis) (col b basis) B)
    by (rewrite length_col; exact Hn).
  apply bigsum_ext. intros r _. now rewrite !nth_col.
Qed.

Lemma step_gram : mmul (transpose U) U = eye i.
Proof.
  destruct step_U_shape as [HU HcU], step_Ut_shape as [HUt HcUt].
  apply (mat_ext i i).
  - apply Mat_mmul with (m := B); assumption.
  - apply Mat_eye.
  - intros a b Ha Hb'.
    rewrite (mnth_mmul i B i) by assumption.
    rewrite mnth_eye by assumption.
    rewrite <- (Hortho a b Ha Hb'), vdot_cols.
    apply bigsum_ext. intros r Hr.
    rewrite mnth_transpose by (rewrite HcU; exact Ha).
    unfold U. now rewrite !mnth_cols_before.
Qed.

Lemma step_projection_entries (r c : nat) :
  (r < B)%nat -> (c < B)%nat ->
  mnth (mmul U (mmul (eye i) (transpose U))) r c =
  bigsum i (fun j => mnth basis r j * mnth basis c j).
Proof.
  intros Hr Hc.
  destruct step_U_shape as [HU HcU], step_Ut_shape as [HUt HcUt].
  rewrite (mmul_eye_l i B _ HUt).
  rewrite (mnth_mmul B i B) by assumption.
  apply bigsum_ext. intros j Hj.
  rewrite mnth_transpose by (rewrite HcU; exact Hj).
  unfold U. now rewrite !mnth_cols_before.
Qed.

Lemma step_projector_shape :
  Mat B B (msub (eye B) (mmul U (mmul (eye i) (transpose U)))).
Proof.
  destruct step_U_shape as [HU HcU], step_Ut_shape as [HUt HcUt].
  apply Mat_msub; [apply Mat_eye|].
  apply Mat_mmul with (m := i); [exact HU|].
  now rewrite (mmul_eye_l i B _ HUt).
Qed.

Lemma step_projector_apply (v : vec) :
  length v = B ->
  mvmul (msub (eye B) (mmul U (mmul (eye i) (transpose U)))) v =
  residual i basis v.
Proof.
  intros Hv.
  pose proof step_projector_shape as HP.
  destruct step_U_shape as [HU HcU], step_Ut_shape as [HUt HcUt].
  assert (HW : Mat B B (mmul U (mmul (eye i) (transpose U)))).
  { apply Mat_mmul with (m := i); [exact HU|].
    now rewrite (mmul_eye_l i B _ HUt). }
  apply (col_ext B).
  - rewrite length_mvmul. now destruct HP.
  - unfold residual. now rewrite length_map, length_seq.
  - intros r Hr. rewrite nth_mvmul. unfold residual.
    rewrite Hv, nth_map_seq by exact Hr.
    rewrite (vdot_bigsum _ v B) by (try apply (Mat_row _ _ _ r HP Hr); exact Hv).
    rewrite (bigsum_ext B _
      (fun c => delta r c * nth c v 0
                - bigsum i (fun j => mnth basis r j * (mnth basis c j * nth c v 0)))).
    + rewrite bigsum_minus.
      rewrite (bigsum_delta B r (fun c => nth c v 0) Hr).
      f_equal. rewrite bigsum_swap. apply bigsum_ext. intros j Hj.
      rewrite bigsum_scale. f_equal.
      destruct Hbasis as [Hn _].
      rewrite (vdot_bigsum (col j basis) v B)
        by (try rewrite length_col; assumption).
      apply bigsum_ext. intros c _. now rewrite nth_col.
    + intros c Hc.
      change (nth c (nth r ?M []) 0) with (mnth M r c).
      rewrite (mnth_msub B B) by (try apply Mat_eye; assumption).
      rewrite mnth_eye by assumption.
      rewrite step_projection_entries by assumption.
      rewrite Rmult_minus_distr_r. f_equal.
      rewrite <- bigsum_scale_r. apply bigsum_ext. intros j _. lra.
Qed.

Lemma length_residual (v : vec) : length (residual i basis v) = length v.
Proof. unfold residual. now rewrite length_map, length_seq. Qed.

(** What one turn of the loop computes. *)
Lemma orthogonalize_step_computes :
  orthogonalize_step (eye B) basis i =
  Ok (set_col i (normalize (residual i basis (normalize (col i basis))))
              basis).
Proof.
  unfold orthogonalize_step. fold U.
  rewrite step_gram, inv_eye. simpl.
  assert (Hv : length (normalize (col i basis)) = B).
  { unfold normalize. rewrite length_vdiv, length_col. now destruct Hbasis. }
  rewrite (step_projector_apply _ Hv).
  set (w := residual i basis (normalize (col i basis))).
  assert (Hw : length w = B) by (unfold w; now rewrite length_residual).
  rewrite (col_set_col_same B C) by (try assumption; lia).
  f_equal. apply (set_col_twice B C); try assumption; try lia.
  unfold normalize. now rewrite length_vdiv.
Qed.

End OrthogonalizeStep.

(** ** Norms *)

Lemma vdot_self_nonneg (a : vec) : 0 <= vdot a a.
Proof.
  induction a as [|x a IH]; simpl; [lra|].
  pose proof (Rle_0_sqr x) as H. unfold Rsqr in H. lra.
Qed.


Lemma vdot_vdiv_l (a b : vec) (s : R) : vdot (vdiv a s) b = vdot a b / s.
Proof.
  revert b. induction a as [|x a IH]; intros [|y b]; simpl;
    try (unfold Rdiv; lra).
  unfold vdiv in IH. rewrite IH. unfold Rdiv. lra.
Qed.

Lemma vdot_vdiv_r (a b : vec) (s : R) : vdot a (vdiv b s) = vdot a b / s.
Proof.
  rewrite vdot_comm, vdot_vdiv_l, vdot_comm. reflexivity.
Qed.

Lemma norm_positive (a : vec) : vdot a a <> 0 -> 0 < sqrt (vdot a a).
Proof.
  intros H. apply sqrt_lt_R0. pose proof (vdot_self_nonneg a). lra.
Qed.

Lemma normalize_unit (a : vec) :
  vdot a a <> 0 -> vdot (normalize a) (normalize a) = 1.
Proof.
  intros H. pose proof (norm_positive a H) as Hs.
  unfold normalize. rewrite vdot_vdiv_l, vdot_vdiv_r.
  rewrite <- (sqrt_sqrt (vdot a a)) at 1 by apply vdot_self_nonneg.
  field. lra.
Qed.


Lemma length_normalize (a : vec) : length (normalize a) = length a.
Proof. apply length_vdiv. Qed.




(** ** orthogonalize: the invariant *)


Lemma nth_residual (i : nat) (basis : mat) (v : vec) (r : nat) :
  (r < length v)%nat ->
  nth r (residual i basis v) 0 =
  nth r v 0 - bigsum i (fun j => mnth basis r j * vdot (col j basis) v).
Proof.
  intros Hr. unfold residual.
  exact (nth_map_seq
           (fun r => nth r v 0
                     - bigsum i (fun j => mnth basis r j * vdot (col j basis) v))
           (length v) r 0 Hr).
Qed.










(** ** linearDiscriminant: the scatter matrices *)

Lemma size_valid (s : TrainingClass) :
  _statsValid s = true -> size s = Ok (_size s).
Proof.
  intros H. unfold size. now rewrite H.
Qed.

Lemma total_mean_valid {E : Eigen} (B : nat) (cls : list TrainingClass) :
  Forall (valid_class B) cls ->
  forall (N : nat) (m0 : vec), length m0 = B ->
  exists N' m',
    total_mean cls N (Some m0) = (cls, Ok (N', Some m')) /\ length m' = B.
Proof.
  induction 1 as [|s cls Hs Hcls IH]; intros N m0 Hm0.
  - exists N, m0. now split.
  - destruct Hs as (_ & Hv & st & m & c & Hst & Hm & _ & Hlen & _).
    simpl. rewrite (size_valid s Hv), Hst. simpl.
    rewrite (size_valid s Hv), Hst. simpl. rewrite Hm. simpl.
    destruct (IH (N + _size s)%nat (vadd m0 (vscale (INR (_size s)) m)))
      as (N' & m' & Heq & Hm').
    + rewrite length_vadd; [exact Hm0|]. rewrite length_vscale. congruence.
    + rewrite Heq. exists N', m'. now split.
Qed.

Lemma symmetric_madd (n : nat) (A A' : mat) :
  Mat n n A -> Mat n n A' -> symmetric n A -> symmetric n A' ->
  symmetric n (madd A A').
Proof.
  intros HA HA' HsA HsA' i j Hi Hj.
  rewrite !(mnth_madd n n) by assumption.
  now rewrite (HsA i j), (HsA' i j).
Qed.

Lemma symmetric_mscale (n : nat) (c : R) (A : mat) :
  symmetric n A -> symmetric n (mscale c A).
Proof.
  intros HA i j Hi Hj. rewrite !mnth_mscale. now rewrite (HA i j).
Qed.

Lemma symmetric_mdiv (n : nat) (c : R) (A : mat) :
  symmetric n A -> symmetric n (mdiv A c).
Proof.
  intros HA i j Hi Hj. rewrite !mnth_mdiv. now rewrite (HA i j).
Qed.

Lemma symmetric_outer (x : vec) :
  symmetric (length x) (mmul (newaxis x) (transpose (newaxis x))).
Proof.
  intros i j Hi Hj. rewrite !mnth_outer by assumption. lra.
Qed.

Lemma symmetric_zeros2 (n : nat) : symmetric n (zeros2 n n).
Proof.
  intros i j _ _. now rewrite !mnth_zeros2.
Qed.

Lemma scatter_valid (B : nat) (cls : list TrainingClass) :
  Forall (valid_class B) cls ->
  forall (mean_ : vec) (cb cw : mat),
    length mean_ = B ->
    Mat B B cb -> Mat B B cw -> symmetric B cb -> symmetric B cw ->
    exists cb' cw',
      scatter cls mean_ cb cw = Ok (cb', cw') /\
      Mat B B cb' /\ Mat B B cw' /\ symmetric B cb' /\ symmetric B cw'.
Proof.
  induction 1 as [|s cls Hs Hcls IH]; intros mean_ cb cw Hmean Hcb Hcw Hsb Hsw.
  - exists cb, cw. simpl. auto.
  - destruct Hs as (_ & Hv & st & m & c & Hst & Hm & Hc & Hlen & Hmat & Hsym).
    simpl. rewrite (size_valid s Hv). simpl. rewrite Hst. simpl.
    rewrite Hc. simpl. rewrite Hm. simpl.
    assert (Hd : length (vsub m mean_) = B)
      by (rewrite length_vsub; congruence).
    apply IH.
    + exact Hmean.
    + apply Mat_madd; [exact Hcb|]. apply Mat_mscale.
      rewrite <- Hd at 1 2. apply Mat_outer.
    + apply Mat_madd; [exact Hcw|]. now apply Mat_mscale.
    + apply symmetric_madd; try assumption.
      * apply Mat_mscale. rewrite <- Hd at 1 2. apply Mat_outer.
      * apply symmetric_mscale. rewrite <- Hd at 1. apply symmetric_outer.
    + apply symmetric_madd; try assumption.
      * now apply Mat_mscale.
      * now apply symmetric_mscale.
Qed.

Lemma scatter_matrices_valid {E : Eigen} (B : nat) (cls : list TrainingClass) :
  cls <> [] -> Forall (valid_class B) cls ->
  exists Cb Cw,
    scatter_matrices cls = (cls, Ok (Cb, Cw)) /\
    Mat B B Cb /\ Mat B B Cw /\ symmetric B Cb /\ symmetric B Cw.
Proof.
  intros Hne Hall.
  assert (HB : match cls with s :: _ => numBands s | [] => O end = B).
  { destruct cls as [|s rest]; [congruence|].
    inversion Hall as [|? ? Hs _]; subst. now destruct Hs. }
  assert (Hnone : total_mean cls 0 None = total_mean cls 0 (Some (zeros B))).
  { destruct cls as [|s rest]; [congruence|]. now rewrite <- HB. }
  unfold scatter_matrices. rewrite Hnone, HB.
  destruct (total_mean_valid B cls Hall 0%nat (zeros B) (length_zeros B))
    as (N & m & Heq & Hm).
  rewrite Heq. cbn [bind fst snd].
  destruct (scatter_valid B cls Hall (vdiv m (INR N))
              (zeros2 B B) (zeros2 B B))
    as (cb & cw & Hsc & Hcb & Hcw & Hsb & Hsw);
    try apply Mat_zeros2; try apply symmetric_zeros2.
  { now rewrite length_vdiv. }
  rewrite Hsc. simpl.
  exists (mdiv cb (INR N)), (mdiv cw (INR N)).
  split; [reflexivity|].
  split; [now apply Mat_mdiv|]. split; [now apply Mat_mdiv|].
  split; now apply symmetric_mdiv.
Qed.

(** ** linearDiscriminant: the retained eigenvectors *)

Lemma Mat_firstn (n m k : nat) (A : mat) :
  Mat n m A -> Mat (Nat.min k n) m (firstn k A).
Proof.
  intros [Hn Hm]. split.
  - rewrite length_firstn. now rewrite Hn.
  - rewrite Forall_forall in *. intros r Hr. apply Hm.
    rewrite <- (firstn_skipn k A). apply in_or_app. now left.
Qed.

Lemma nth_firstn_row (k i : nat) (A : mat) :
  (i < k)%nat -> nth i (firstn k A) [] = nth i A [].
Proof.
  intros Hi. rewrite nth_firstn.
  destruct (Nat.ltb_spec i k); [reflexivity | lia].
Qed.

Lemma length_diagonal (A : mat) :
  length (diagonal A) = Nat.min (nrows A) (ncols A).
Proof.
  unfold diagonal. now rewrite length_map, length_seq.
Qed.

Lemma nth_diagonal (A : mat) (i : nat) :
  (i < Nat.min (nrows A) (ncols A))%nat ->
  nth i (diagonal A) 0 = mnth A i i.
Proof.
  intros Hi. unfold diagonal.
  exact (nth_map_seq (fun i => nth i (nth i A []) 0) _ i 0 Hi).
Qed.

Lemma rescale_rows (B : nat) (vecs : mat) :
  forall (K : nat) (d : vec),
    Mat K B vecs -> length d = K ->
    (forall i, (i < K)%nat -> 0 <= nth i d 0) ->
    exists vecs',
      rescale vecs d = Ok vecs' /\ Mat K B vecs' /\
      forall i, (i < K)%nat ->
        nth i vecs' [] = vdiv (nth i vecs []) (sqrt (nth i d 0)).
Proof.
  induction vecs as [|r vecs IH]; intros K d [Hn Hm] Hd Hpos.
  - simpl in Hn. subst K. exists []. simpl.
    split; [reflexivity|]. split; [split; [reflexivity | constructor]|].
    intros i Hi. lia.
  - simpl in Hn. destruct K as [|K]; [discriminate|].
    destruct d as [|di d]; [discriminate|].
    inversion Hm as [|? ? Hr Hm']; subst.
    destruct (IH K d) as (rest & Hrest & HMrest & Hrows).
    + split; [simpl in Hn; lia | exact Hm'].
    + simpl in Hd. lia.
    + intros i Hi. apply (Hpos (S i)). lia.
    + simpl. unfold math_sqrt.
      destruct (Rle_dec 0 di) as [_|Hneg].
      2:{ exfalso. apply Hneg. apply (Hpos O). lia. }
      simpl. rewrite Hrest. simpl.
      exists (vdiv r (sqrt di) :: rest).
      split; [reflexivity|]. split.
      * destruct HMrest as [H1 H2]. split; [simpl; lia|].
        constructor; [now rewrite length_vdiv | exact H2].
      * intros [|i] Hi; [reflexivity|]. simpl. apply Hrows. lia.
Qed.

Lemma mvmul_vdiv (A : mat) (x : vec) (s : R) :
  mvmul A (vdiv x s) = vdiv (mvmul A x) s.
Proof.
  unfold mvmul. unfold vdiv at 2. rewrite map_map.
  apply map_ext. intros r. apply vdot_vdiv_r.
Qed.

(** The entries of [V A V^T] are the values of the bilinear form of [A]
    on the rows of [V]. *)
Lemma congruence_entry (K B : nat) (V A : mat) (i j : nat) :
  Mat K B V -> Mat B B A -> (0 < K)%nat -> (0 < B)%nat ->
  (i < K)%nat -> (j < K)%nat ->
  mnth (mmul V (mmul A (transpose V))) i j =
  vdot (nth i V []) (mvmul A (nth j V [])).
Proof.
  intros HV HA HK HB Hi Hj.
  pose proof (Mat_transpose K B V HV HK) as HVt.
  pose proof (Mat_ncols _ _ _ HVt HB) as HcVt.
  pose proof (Mat_ncols _ _ _ HV HK) as HcV.
  assert (HAVt : Mat B K (mmul A (transpose V)))
    by (apply Mat_mmul with (m := B); assumption).
  pose proof (Mat_ncols _ _ _ HAVt HB) as HcAVt.
  rewrite (mnth_mmul K B K) by assumption.
  rewrite (vdot_bigsum (nth i V []) (mvmul A (nth j V [])) B).
  - apply bigsum_ext. intros a Ha. f_equal.
    rewrite (mnth_mmul B B K) by assumption.
    rewrite nth_mvmul.
    rewrite (vdot_bigsum (nth a A []) (nth j V []) B).
    + apply bigsum_ext. intros b Hb. f_equal.
      apply mnth_transpose. now rewrite HcV.
    + apply (Mat_row _ _ _ a HA Ha).
    + apply (Mat_row _ _ _ j HV Hj).
  - apply (Mat_row _ _ _ i HV Hi).
  - rewrite length_mvmul. now destruct HA.
Qed.

(** What the second half of [linearDiscriminant] returns. *)
Lemma discriminant_vectors_result {E : Eigen} (B rank : nat)
    (Cb Cw cwInv : mat) :
  (0 < B)%nat -> (0 < rank)%nat ->
  Mat B B Cb -> Mat B B Cw -> is_inverse Cw cwInv ->
  length (fst (eig (mmul cwInv Cb))) = B ->
  Mat B B (snd (eig (mmul cwInv Cb))) ->
  (forall i, (i < Nat.min rank B)%nat ->
     0 < vdot (col i (snd (eig (mmul cwInv Cb))))
              (mvmul Cw (col i (snd (eig (mmul cwInv Cb)))))) ->
  exists L V,
    discriminant_vectors rank Cb Cw = Ok (L, V, Cb, Cw) /\
    L = firstn rank (fst (eig (mmul cwInv Cb))) /\
    length L = Nat.min rank B /\
    Mat (Nat.min rank B) B V /\
    (forall i, (i < Nat.min rank B)%nat ->
       nth i V [] =
       vdiv (col i (snd (eig (mmul cwInv Cb))))
            (sqrt (vdot (col i (snd (eig (mmul cwInv Cb))))
                        (mvmul Cw (col i (snd (eig (mmul cwInv Cb)))))))) /\
    (forall i, (i < Nat.min rank B)%nat ->
       mnth (mmul V (mmul Cw (transpose V))) i i = 1) /\
    (forall i j, (i < Nat.min rank B)%nat -> (j < Nat.min rank B)%nat ->
       vdot (col i (snd (eig (mmul cwInv Cb))))
            (mvmul Cw (col j (snd (eig (mmul cwInv Cb))))) = 0 ->
       mnth (mmul V (mmul Cw (transpose V))) i j = 0).
Proof.
  intros HB Hrank HCb HCw Hinv Hvals HV0 Hpos.
  unfold discriminant_vectors. rewrite (inv_of_inverse _ _ Hinv). cbn [bind].
  destruct (eig (mmul cwInv Cb)) as [vals0 V0]. cbn [fst snd] in *.
  set (K := Nat.min rank B) in *.
  assert (HK : (0 < K)%nat) by (unfold K; lia).
  assert (HKB : (K <= B)%nat) by (unfold K; lia).
  set (vecs := firstn rank (transpose V0)).
  assert (Hvecs : Mat K B vecs).
  { unfold vecs, K. apply Mat_firstn. now apply Mat_transpose. }
  assert (Hrows : forall i, (i < K)%nat -> nth i vecs [] = col i V0).
  { intros i Hi. unfold vecs. rewrite nth_firstn_row by (unfold K in Hi; lia).
    apply nth_transpose. rewrite (Mat_ncols _ _ _ HV0 HB). lia. }
  set (v := mmul vecs (mmul Cw (transpose vecs))).
  assert (Hv : Mat K K v).
  { unfold v. apply Mat_mmul with (m := B); [exact Hvecs|].
    rewrite ncols_mmul by (apply (Mat_nonempty _ _ _ HCw HB)).
    apply (Mat_ncols B K); [now apply Mat_transpose | exact HB]. }
  assert (Hd : length (diagonal v) = K).
  { rewrite length_diagonal. unfold nrows.
    pose proof Hv as [Hn _]. rewrite Hn, (Mat_ncols _ _ _ Hv HK). lia. }
  assert (Hdi : forall i, (i < K)%nat ->
            nth i (diagonal v) 0 = vdot (col i V0) (mvmul Cw (col i V0))).
  { intros i Hi. rewrite nth_diagonal.
    - unfold v. rewrite (congruence_entry K B) by assumption.
      now rewrite (Hrows i Hi).
    - rewrite <- length_diagonal, Hd. exact Hi. }
  destruct (rescale_rows B vecs K (diagonal v) Hvecs Hd)
    as (vecs' & Hres & Hvecs' & Hrows').
  { intros i Hi. rewrite (Hdi i Hi). left. now apply Hpos. }
  rewrite Hres. cbn [bind].
  exists (firstn rank vals0), vecs'.
  split; [reflexivity|]. split; [reflexivity|].
  split; [rewrite length_firstn; unfold K; lia|].
  split; [exact Hvecs'|].
  split.
  { intros i Hi. now rewrite (Hrows' i Hi), (Hrows i Hi), (Hdi i Hi). }
  assert (Hentry : forall i j, (i < K)%nat -> (j < K)%nat ->
            mnth (mmul vecs' (mmul Cw (transpose vecs'))) i j =
            vdot (col i V0) (mvmul Cw (col j V0))
            / sqrt (vdot (col j V0) (mvmul Cw (col j V0)))
            / sqrt (vdot (col i V0) (mvmul Cw (col i V0)))).
  { intros i j Hi Hj. rewrite (congruence_entry K B) by assumption.
    rewrite (Hrows' i Hi), (Hrows' j Hj), (Hrows i Hi), (Hrows j Hj).
    rewrite (Hdi i Hi), (Hdi j Hj).
    now rewrite mvmul_vdiv, vdot_vdiv_l, vdot_vdiv_r. }
  split.
  - intros i Hi. rewrite (Hentry i i Hi Hi).
    pose proof (Hpos i Hi) as Hp.
    pose proof (sqrt_lt_R0 _ Hp) as Hs.
    rewrite <- (sqrt_sqrt (vdot (col i V0) (mvmul Cw (col i V0)))) at 1
      by lra.
    field. lra.
  - intros i j Hi Hj H0. rewrite (Hentry i j Hi Hj), H0.
    unfold Rdiv. lra.
Qed.

(** ** Generalized eigenvectors of distinct eigenvalues *)

Lemma vdot_vscale_r (a b : vec) (c : R) :
  vdot a (vscale c b) = c * vdot a b.
Proof.
  revert b. induction a as [|x a IH]; intros [|y b]; simpl; try lra.
  change (map (Rmult c) b) with (vscale c b). rewrite IH. lra.
Qed.

Lemma mvmul_vscale (A : mat) (x : vec) (c : R) :
  mvmul A (vscale c x) = vscale c (mvmul A x).
Proof.
  unfold mvmul. unfold vscale at 2. rewrite map_map.
  apply map_ext. intros r. apply vdot_vscale_r.
Qed.

Lemma mvmul_eye (n : nat) (x : vec) : length x = n -> mvmul (eye n) x = x.
Proof.
  intros Hx. apply (col_ext n).
  - rewrite length_mvmul. apply (Mat_eye n).
  - exact Hx.
  - intros i Hi. rewrite nth_mvmul.
    rewrite (vdot_bigsum (nth i (eye n) []) x n)
      by (try apply (Mat_row _ _ _ i (Mat_eye n) Hi); exact Hx).
    rewrite (bigsum_ext n _ (fun c => delta i c * nth c x 0)).
    + exact (bigsum_delta n i (fun c => nth c x 0) Hi).
    + intros c Hc. f_equal.
      change (mnth (eye n) i c = delta i c). now apply mnth_eye.
Qed.

Lemma mvmul_mmul (n m p : nat) (A A' : mat) (x : vec) :
  Mat n m A -> Mat m p A' -> (0 < m)%nat -> length x = p ->
  mvmul (mmul A A') x = mvmul A (mvmul A' x).
Proof.
  intros HA HA' Hm Hx.
  pose proof (Mat_ncols _ _ _ HA' Hm) as Hc.
  assert (HAA : Mat n p (mmul A A')) by (apply Mat_mmul with (m := m); auto).
  apply (col_ext n).
  - rewrite length_mvmul. now destruct HAA.
  - rewrite length_mvmul. now destruct HA.
  - intros i Hi. rewrite !nth_mvmul.
    rewrite (vdot_bigsum (nth i (mmul A A') []) x p)
      by (try apply (Mat_row _ _ _ i HAA Hi); exact Hx).
    rewrite (vdot_bigsum (nth i A []) (mvmul A' x) m)
      by (try apply (Mat_row _ _ _ i HA Hi);
          try (rewrite length_mvmul; now destruct HA')).
    rewrite (bigsum_ext p _
      (fun c => bigsum m (fun k => mnth A i k * (mnth A' k c * nth c x 0)))).
    + rewrite bigsum_swap. apply bigsum_ext. intros k Hk.
      rewrite bigsum_scale. f_equal. rewrite nth_mvmul.
      symmetry. apply vdot_bigsum; [apply (Mat_row _ _ _ k HA' Hk) | exact Hx].
    + intros c Hc'.
      change (nth c (nth i (mmul A A') []) 0) with (mnth (mmul A A') i c).
      rewrite (mnth_mmul n m p) by assumption.
      rewrite <- bigsum_scale_r. apply bigsum_ext. intros; lra.
Qed.

Lemma bilinear_symmetric (n : nat) (A : mat) (u v : vec) :
  Mat n n A -> symmetric n A -> length u = n -> length v = n ->
  vdot u (mvmul A v) = vdot v (mvmul A u).
Proof.
  intros HA Hsym Hu Hv.
  assert (Hn : length A = n) by now destruct HA.
  rewrite (vdot_bigsum u (mvmul A v) n) by (try rewrite length_mvmul; assumption).
  rewrite (vdot_bigsum v (mvmul A u) n) by (try rewrite length_mvmul; assumption).
  rewrite (bigsum_ext n (fun k => nth k u 0 * nth k (mvmul A v) 0)
             (fun i => bigsum n (fun j => nth i u 0 * mnth A i j * nth j v 0))).
  2:{ intros i Hi. rewrite nth_mvmul.
      rewrite (vdot_bigsum (nth i A []) v n)
        by (try apply (Mat_row _ _ _ i HA Hi); assumption).
      rewrite <- bigsum_scale. apply bigsum_ext. intros; unfold mnth; lra. }
  rewrite bigsum_swap. apply bigsum_ext. intros j Hj.
  rewrite nth_mvmul.
  rewrite (vdot_bigsum (nth j A []) u n)
    by (try apply (Mat_row _ _ _ j HA Hj); assumption).
  rewrite <- bigsum_scale. apply bigsum_ext. intros i Hi.
  rewrite (Hsym i j Hi Hj). unfold mnth. lra.
Qed.

Lemma generalized_eigen_equation (B : nat) (Cb Cw cwInv : mat) (x : vec)
    (l : R) :
  (0 < B)%nat -> Mat B B Cb -> Mat B B Cw -> is_inverse Cw cwInv ->
  length x = B ->
  mvmul (mmul cwInv Cb) x = vscale l x ->
  mvmul Cb x = vscale l (mvmul Cw x).
Proof.
  intros HB HCb HCw (_ & Hi & Hr & _) Hx Heq.
  assert (Hn : nrows Cw = B) by now destruct HCw.
  rewrite Hn in *.
  assert (Hlen : length (mvmul Cb x) = B)
    by (rewrite length_mvmul; now destruct HCb).
  rewrite <- (mvmul_eye B (mvmul Cb x) Hlen), <- Hr.
  rewrite (mvmul_mmul B B B Cw cwInv) by assumption.
  rewrite <- (mvmul_mmul B B B cwInv Cb) by assumption.
  now rewrite Heq, mvmul_vscale.
Qed.

(** Two solutions of [Cb v = l Cw v] for distinct [l] are orthogonal
    for the bilinear form of [Cw]. *)
Lemma generalized_eigenvectors_orthogonal (B : nat) (Cb Cw cwInv : mat)
    (u v : vec) (l m : R) :
  (0 < B)%nat -> Mat B B Cb -> Mat B B Cw ->
  symmetric B Cb -> symmetric B Cw -> is_inverse Cw cwInv ->
  length u = B -> length v = B ->
  mvmul (mmul cwInv Cb) u = vscale l u ->
  mvmul (mmul cwInv Cb) v = vscale m v ->
  l <> m ->
  vdot u (mvmul Cw v) = 0.
Proof.
  intros HB HCb HCw Hsb Hsw Hinv Hu Hv Heu Hev Hlm.
  pose proof (generalized_eigen_equation B Cb Cw cwInv u l
                HB HCb HCw Hinv Hu Heu) as Eu.
  pose proof (generalized_eigen_equation B Cb Cw cwInv v m
                HB HCb HCw Hinv Hv Hev) as Ev.
  pose proof (bilinear_symmetric B Cb u v HCb Hsb Hu Hv) as Sb.
  pose proof (bilinear_symmetric B Cw u v HCw Hsw Hu Hv) as Sw.
  rewrite Eu, Ev, !vdot_vscale_r in Sb. rewrite <- Sw in Sb.
  assert (H : (m - l) * vdot u (mvmul Cw v) = 0) by lra.
  apply Rmult_integral in H. destruct H; [lra | assumption].
Qed.

(** ** linearDiscriminant *)

Lemma linearDiscriminant_result {E : Eigen} (B : nat)
    (cls : list TrainingClass) :
  (0 < B)%nat -> (2 <= length cls)%nat -> Forall (valid_class B) cls ->
  exists Cb Cw,
    scatter_matrices cls = (cls, Ok (Cb, Cw)) /\
    Mat B B Cb /\ Mat B B Cw /\ symmetric B Cb /\ symmetric B Cw /\
    forall cwInv, is_inverse Cw cwInv ->
      let vals0 := fst (eig (mmul cwInv Cb)) in
      let V0 := snd (eig (mmul cwInv Cb)) in
      let K := Nat.min (length cls - 1) B in
      length vals0 = B -> Mat B B V0 ->
      (forall i, (i < K)%nat -> 0 < vdot (col i V0) (mvmul Cw (col i V0))) ->
      exists L V,
        linearDiscriminant cls = (cls, Ok (L, V, Cb, Cw)) /\
        L = firstn (length cls - 1) vals0 /\
        length L = K /\ Mat K B V /\
        (forall i, (i < K)%nat ->
           nth i V [] =
           vdiv (col i V0) (sqrt (vdot (col i V0) (mvmul Cw (col i V0))))) /\
        (forall i, (i < K)%nat ->
           mnth (mmul V (mmul Cw (transpose V))) i i = 1) /\
        (forall i j, (i < K)%nat -> (j < K)%nat ->
           mvmul (mmul cwInv Cb) (col i V0) = vscale (nth i vals0 0) (col i V0) ->
           mvmul (mmul cwInv Cb) (col j V0) = vscale (nth j vals0 0) (col j V0) ->
           nth i vals0 0 <> nth j vals0 0 ->
           mnth (mmul V (mmul Cw (transpose V))) i j = 0).
Proof.
  intros HB HC Hall.
  assert (Hne : cls <> []) by (destruct cls; [simpl in HC; lia | discriminate]).
  destruct (scatter_matrices_valid B cls Hne Hall)
    as (Cb & Cw & Hsc & HCb & HCw & Hsb & Hsw).
  exists Cb, Cw. split; [exact Hsc|].
  split; [exact HCb|]. split; [exact HCw|].
  split; [exact Hsb|]. split; [exact Hsw|].
  intros cwInv Hinv vals0 V0 K Hvals HV0 Hpos.
  destruct (discriminant_vectors_result B (length cls - 1) Cb Cw cwInv)
    as (L & V & Hdv & HLeq & HL & HV & Hrow & Hdiag & Hoff);
    try assumption; try lia.
  exists L, V. split.
  { unfold linearDiscriminant. rewrite Hsc. simpl. now rewrite Hdv. }
  split; [exact HLeq|].
  split; [exact HL|]. split; [exact HV|]. split; [exact Hrow|].
  split; [exact Hdiag|].
  intros i j Hi Hj Hei Hej Hne'. apply Hoff; try assumption.
  assert (HKB : (K <= B)%nat) by (unfold K; lia).
  apply (generalized_eigenvectors_orthogonal B Cb Cw cwInv _ _
           (nth i vals0 0) (nth j vals0 0)); try assumption;
    rewrite length_col; now destruct HV0.
Qed.

Lemma valid_band_class (i : Z) (m : R) : valid_class 1 (band_class i m).
Proof.
  split; [reflexivity|]. split; [reflexivity|].
  exists (one_band_stats m 1 1 0), [m], [[1]].
  repeat (split; [reflexivity|]).
  split; [split; [reflexivity | repeat constructor]|].
  intros [|a] [|b] Ha Hb; try lia. reflexivity.
Qed.

(** C4: the claim is the one of the documentation of
    [linearDiscriminant], which promises a length [C - 1] array of
    eigenvalues and a [(C - 1) x B] array of eigenvectors, and the
    program departs from it when there are more than [B + 1] classes:
    the slices [vals[:rank]] and [transpose(vecs)[:rank, :]] cannot
    take more than the [B] eigenpairs that [eig] returns for a [B x B]
    matrix.  Three classes of one band, each with valid statistics, and
    an invertible within-class covariance: one eigenvalue and one
    eigenvector come back, not two. *)
Theorem linearDiscriminant_three_classes_one_band :
  exists L V Cb Cw,
    linearDiscriminant (E := diag_eigen) three_classes =
      (three_classes, Ok (L, V, Cb, Cw)) /\
    Forall (valid_class 1) three_classes /\ invertible Cw /\
    length three_classes = 3%nat /\
    length L = 1%nat /\ Mat 1 1 V /\
    length L <> (length three_classes - 1)%nat /\
    nrows V <> (length three_classes - 1)%nat.
Proof.
  assert (Hvalid : Forall (valid_class 1) three_classes)
    by (repeat constructor; apply valid_band_class).
  destruct (linearDiscriminant_result (E := diag_eigen) 1 three_classes)
    as (Cb & Cw & Hsc & _ & _ & _ & _ & H).
  - lia.
  - simpl. lia.
  - exact Hvalid.
  - cbn in Hsc. injection Hsc as <- <-.
    match type of H with
    | forall cwInv, is_inverse [[?e]] cwInv -> _ =>
        assert (He : 0 < e) by lra;
        pose proof (is_inverse_1x1 e ltac:(lra)) as Hinv;
        specialize (H [[/ e]] Hinv)
    end.
    destruct H as (L & V & Hld & _ & HL & HV & _).
    + reflexivity.
    + split; [reflexivity | repeat constructor].
    + intros i Hi. cbn in Hi. assert (i = O) by lia. subst i.
      cbn. unfold delta. cbn. lra.
    + exists L, V. eexists. eexists. split; [exact Hld|].
      split; [exact Hvalid|]. split; [eexists; exact Hinv|].
      split; [reflexivity|]. split; [exact HL|].
      split; [exact HV|]. split; [rewrite HL; simpl; lia|].
      destruct HV as [HVn _]. unfold nrows. rewrite HVn. simpl. lia.
Qed.

(** ** Bhattacharyya distance *)

Lemma sum_log_positive_product (l : list R) :
  Forall (fun x => 0 < x) l ->
  0 < Rprod l /\ sum_log_positive l = ln (Rprod l).
Proof.
  induction 1 as [|x l Hx _ [IHp IHs]]; simpl.
  - split; [lra | now rewrite ln_1].
  - destruct (Rlt_dec 0 x) as [_|Hn]; [|contradiction].
    split; [now apply Rmult_lt_0_compat|].
    rewrite ln_mult by assumption. now rewrite IHs.
Qed.

Lemma minus_zero_scaled_identity (n : nat) (A : mat) :
  Mat n n A -> msub A (mscale 0 (eye n)) = A.
Proof.
  intros HA.
  assert (HI : Mat n n (mscale 0 (eye n))) by apply Mat_mscale, Mat_eye.
  apply (mat_ext n n); [now apply Mat_msub | exact HA |].
  intros i j Hi Hj. rewrite (mnth_msub n n) by assumption.
  rewrite mnth_mscale. lra.
Qed.

(** The determinant is the product of the eigenvalues. *)
Lemma det_product_of_eigenvalues (n : nat) (A : mat) (l : list R) :
  Mat n n A -> eigenvalues_of A l -> det A = Ok (Rprod l).
Proof.
  intros HA [Hchar _]. specialize (Hchar 0).
  assert (Hn : nrows A = n) by now destruct HA.
  rewrite Hn, (minus_zero_scaled_identity n A HA) in Hchar.
  rewrite Hchar. f_equal. f_equal.
  rewrite <- (map_id l) at 2. apply map_ext. intros lam. lra.
Qed.

Lemma quadratic_form_average (n : nat) (A B : mat) (v : vec) :
  Mat n n A -> Mat n n B -> length v = n ->
  vdot v (mvmul (mdiv (madd A B) 2) v) =
  (vdot v (mvmul A v) + vdot v (mvmul B v)) / 2.
Proof.
  intros HA HB Hv.
  assert (HAB : Mat n n (mdiv (madd A B) 2)) by now apply Mat_mdiv, Mat_madd.
  rewrite (quadratic_form_sum n _ v HAB Hv).
  rewrite (quadratic_form_sum n A v HA Hv), (quadratic_form_sum n B v HB Hv).
  rewrite <- bigsum_plus.
  replace (bigsum n
             (fun k => nth k v 0 * bigsum n (fun j => mnth A k j * nth j v 0)
                       + nth k v 0 * bigsum n (fun j => mnth B k j * nth j v 0))
           / 2)
    with (/ 2 * bigsum n
            (fun k => nth k v 0 * bigsum n (fun j => mnth A k j * nth j v 0)
                      + nth k v 0 * bigsum n (fun j => mnth B k j * nth j v 0)))
    by lra.
  rewrite <- bigsum_scale. apply bigsum_ext. intros i Hi.
  rewrite (bigsum_ext n _
             (fun j => / 2 * (mnth A i j * nth j v 0 + mnth B i j * nth j v 0))).
  - rewrite bigsum_scale, bigsum_plus. lra.
  - intros j Hj. rewrite mnth_mdiv, (mnth_madd n n) by assumption. lra.
Qed.

(** The eigenvalues of an invertible average of two positive
    semi-definite matrices are strictly positive. *)
Lemma average_eigenvalues_positive (n : nat) (A B ic : mat) (l : list R) :
  Mat n n A -> Mat n n B ->
  positive_semidefinite n A -> positive_semidefinite n B ->
  is_inverse (mdiv (madd A B) 2) ic ->
  eigenvalues_of (mdiv (madd A B) 2) l ->
  Forall (fun lam => 0 < lam) l.
Proof.
  intros HA HB PA PB (_ & Hic & _ & Hinv) [_ Hvec].
  assert (HM : Mat n n (mdiv (madd A B) 2)) by now apply Mat_mdiv, Mat_madd.
  assert (Hn : nrows (mdiv (madd A B) 2) = n) by now destruct HM.
  rewrite Hn in Hic, Hinv.
  apply Forall_forall. intros lam Hlam.
  destruct (Hvec lam Hlam) as (v & Hv & Hnz & Hev). rewrite Hn in Hv.
  assert (Hvv : 0 < vdot v v).
  { pose proof (vdot_self_nonneg v). lra. }
  assert (Hq : 0 <= lam * vdot v v).
  { rewrite <- vdot_vscale_r, <- Hev, (quadratic_form_average n A B v HA HB Hv).
    specialize (PA v Hv). specialize (PB v Hv). lra. }
  assert (Hpos : (0 < n)%nat).
  { destruct n; [|lia]. destruct v; [simpl in Hnz; lra | discriminate]. }
  assert (Hlam0 : lam <> 0).
  { intros ->. apply Hnz.
    rewrite <- (mvmul_eye n v Hv) at 1. rewrite <- Hinv.
    rewrite (mvmul_mmul n n n ic _ v Hic HM Hpos Hv).
    rewrite Hev, mvmul_vscale, vdot_comm, vdot_vscale_r. lra. }
  destruct (Rle_lt_or_eq_dec 0 lam) as [H|H]; [|exact H|congruence].
  apply Rmult_le_reg_r with (r := vdot v v); [exact Hvv | lra].
Qed.

(** C5: for two classes that hold their statistics, of [B] bands, whose
    covariances are positive semi-definite (as covariances are) and
    whose average covariance is invertible, [bDistanceTerms] returns
    the linear term [(1/8) dm^T inverse(avgCov) dm] and the quadratic
    term [0.5 (ln(det(avgCov)) - 0.5 logDetCovA - 0.5 logDetCovB)],
    where the determinant of the average covariance is positive; and
    [bhattacharyyaDistance] returns their sum.  The eigenvalue solver
    of the numerical library is taken to return the eigenvalues of the
    average covariance. *)
Theorem bDistanceTerms_formula {E : Eigen} (B : nat)
    (a b : TrainingClass) (sa sb : GaussianStats)
    (ma mb : vec) (ca cb ic : mat) (la lb : R) :
  stats a = Some sa -> stats b = Some sb ->
  mean sa = Some ma -> mean sb = Some mb ->
  cov sa = Some ca -> cov sb = Some cb ->
  logDetCov sa = Some la -> logDetCov sb = Some lb ->
  Mat B B ca -> Mat B B cb ->
  positive_semidefinite B ca -> positive_semidefinite B cb ->
  is_inverse (mdiv (madd ca cb) 2) ic ->
  eigenvalues_of (mdiv (madd ca cb) 2) (eigvals (mdiv (madd ca cb) 2)) ->
  let dm := vsub ma mb in
  let avgCov := mdiv (madd ca cb) 2 in
  let linTerm := (1 / 8) * vdot dm (mvmul ic dm) in
  exists d,
    det avgCov = Ok d /\ 0 < d /\
    let quadTerm := 0.5 * (ln d - 0.5 * la - 0.5 * lb) in
    bDistanceTerms a b = Ok (linTerm, quadTerm) /\
    bhattacharyyaDistance a b = Ok (linTerm + quadTerm).
Proof.
  intros Hsa Hsb Hma Hmb Hca Hcb Hla Hlb HA HB PA PB Hic Heig dm avgCov linTerm.
  assert (HM : Mat B B avgCov) by now apply Mat_mdiv, Mat_madd.
  pose proof (average_eigenvalues_positive B ca cb ic _ HA HB PA PB Hic Heig)
    as Hpos.
  destruct (sum_log_positive_product _ Hpos) as [Hd Hln].
  exists (Rprod (eigvals avgCov)).
  split; [exact (det_product_of_eigenvalues B avgCov _ HM Heig)|].
  split; [exact Hd|]. cbv zeta.
  assert (H : bDistanceTerms a b =
              Ok (linTerm,
                  0.5 * (ln (Rprod (eigvals avgCov)) - 0.5 * la - 0.5 * lb))).
  { unfold bDistanceTerms.
    rewrite Hsa, Hsb. simpl. rewrite Hma. simpl. rewrite Hmb. simpl.
    rewrite Hca. simpl. rewrite Hcb. simpl.
    rewrite (inv_of_inverse _ _ Hic). simpl.
    rewrite Hla. simpl. rewrite Hlb. simpl.
    rewrite logDeterminant_sum_log_positive, Hln. reflexivity. }
  split; [exact H|].
  unfold bhattacharyyaDistance. rewrite H. reflexivity.
Qed.

Lemma bDistanceTerms_formula_witness :
  let a := one_band_class 0 1 1 0 in
  let b := one_band_class 2 3 (/ 3) (ln 3) in
  let dm := vsub [0] [2] in
  let linTerm := (1 / 8) * vdot dm (mvmul [[/ ((1 + 3) / 2)]] dm) in
  exists d,
    det (mdiv (madd [[1]] [[3]]) 2) = Ok d /\ 0 < d /\
    bDistanceTerms (E := diag_eigen) a b =
      Ok (linTerm, 0.5 * (ln d - 0.5 * 0 - 0.5 * ln 3)) /\
    bhattacharyyaDistance (E := diag_eigen) a b =
      Ok (linTerm + 0.5 * (ln d - 0.5 * 0 - 0.5 * ln 3)).
Proof.
  apply (bDistanceTerms_formula (E := diag_eigen) 1
           (one_band_class 0 1 1 0) (one_band_class 2 3 (/ 3) (ln 3))
           (one_band_stats 0 1 1 0) (one_band_stats 2 3 (/ 3) (ln 3))
           [0] [2] [[1]] [[3]] [[/ ((1 + 3) / 2)]] 0 (ln 3));
    try reflexivity.
  - split; [reflexivity | repeat constructor].
  - split; [reflexivity | repeat constructor].
  - intros [|x [|y v]] Hv; try discriminate. simpl. nra.
  - intros [|x [|y v]] Hv; try discriminate. simpl. nra.
  - apply (is_inverse_1x1 ((1 + 3) / 2)). lra.
  - split.
    + intros x. unfold det. simpl. f_equal. unfold delta. simpl. ring.
    + intros lam [<-|[]]. exists [1]. split; [reflexivity|].
      split; [simpl; lra|]. simpl. f_equal. ring.
Defined.

(** * More of the module *)

(** ** Iterating over the pixels of a class *)

Lemma length_concat_shaped {A : Type} (n m : nat) (l : list (list A)) :
  length l = n -> Forall (fun row => length row = m) l ->
  length (concat l) = (n * m)%nat.
Proof.
  intros Hn Hm. subst n. induction Hm as [|row l Hrow Hl IH]; simpl.
  - reflexivity.
  - rewrite length_app, IH, Hrow. reflexivity.
Qed.

Lemma np_equal_shaped (n m : nat) (mask : labels) (i : Z) :
  length mask = n -> Forall (fun row => length row = m) mask ->
  length (ravel (np_equal mask i)) = (n * m)%nat.
Proof.
  intros Hn Hm. unfold ravel, np_equal.
  apply length_concat_shaped.
  - now rewrite length_map.
  - apply Forall_map. eapply Forall_impl; [|exact Hm].
    intros row Hrow. cbv beta in *. now rewrite length_map.
Qed.

Lemma length_compress_le (b : list bool) (px : list vec) :
  (length (compress b px) <= count_true b)%nat.
Proof.
  unfold compress, count_true. rewrite length_map.
  revert px. induction b as [|x b IH]; intros [|p px]; simpl; try lia.
  destruct x; simpl; specialize (IH px); lia.
Qed.

Lemma length_compress (b : list bool) (px : list vec) :
  (length b <= length px)%nat -> length (compress b px) = count_true b.
Proof.
  unfold compress, count_true. rewrite length_map.
  revert px. induction b as [|x b IH]; intros [|p px] H; simpl in *; try lia.
  destruct x; simpl; rewrite IH; lia.
Qed.

Lemma In_compress (b : list bool) (px : list vec) (x : vec) :
  In x (compress b px) -> In x px.
Proof.
  unfold compress. intros H. apply in_map_iff in H.
  destruct H as ([c y] & <- & H). apply filter_In in H. destruct H as [H _].
  now apply in_combine_r in H.
Qed.

Lemma In_ravel {A : Type} (a : list (list A)) (x : A) :
  In x (ravel a) <-> exists row, In row a /\ In x row.
Proof.
  unfold ravel. rewrite in_concat. reflexivity.
Qed.

(** X1: for a class with a nonzero index over an image and a mask of
    the same shape, the iterator over its pixels announces as many
    elements as it yields, each of them a pixel of the image with as
    many entries as the image has bands, and [size] of the class (its
    statistics not being valid) is that number. *)
Theorem class_iterator_consistent (cl : TrainingClass) :
  index cl <> 0%Z -> _statsValid cl = false ->
  image_shaped (image cl) -> mask_shaped (image cl) (mask cl) ->
  short_indices (image cl) ->
  exists it,
    ImageMaskIterator (image cl) (mask cl) (Some (index cl)) = Ok it /\
    TrainingClass_iter cl = Ok (iter it) /\
    getNumElements it = length (iter it) /\
    getNumBands it = shape2 (image cl) /\
    Forall (fun x => In x (ravel (pixels (image cl))) /\
                     length x = shape2 (image cl)) (iter it) /\
    size cl = Ok (length (iter it)).
Proof.
  intros Hi Hv (Hn & Hm & Hb) (Hmn & Hmm) _.
  rewrite (ImageMaskIterator_truthy _ _ _ Hi).
  eexists. split; [reflexivity|]. simpl.
  assert (Hlen : length (compress (ravel (np_equal (mask cl) (index cl)))
                           (ravel (pixels (image cl)))) =
                 count_true (ravel (np_equal (mask cl) (index cl)))).
  { apply length_compress.
    rewrite (np_equal_shaped _ _ _ _ Hmn Hmm).
    unfold ravel. rewrite (length_concat_shaped _ _ _ Hn Hm). lia. }
  split.
  { unfold TrainingClass_iter. now rewrite (ImageMaskIterator_truthy _ _ _ Hi). }
  split; [now rewrite Hlen|]. split; [reflexivity|]. split.
  - apply Forall_forall. intros x Hx. apply In_compress in Hx.
    split; [exact Hx|].
    apply In_ravel in Hx. destruct Hx as (row & Hrow & Hx).
    rewrite Forall_forall in Hb. specialize (Hb row Hrow).
    rewrite Forall_forall in Hb. now apply Hb.
  - unfold size. rewrite Hv.
    apply truthy_true_iff in Hi. rewrite Hi. simpl. now rewrite Hlen.
Qed.

Lemma class_iterator_consistent_witness :
  exists it,
    ImageMaskIterator two_pixel_image [[1; 1]]%Z (Some 1%Z) = Ok it /\
    TrainingClass_iter two_pixel_class = Ok (iter it) /\
    getNumElements it = length (iter it) /\
    getNumBands it = 1%nat /\
    Forall (fun x => In x (ravel (pixels two_pixel_image)) /\
                     length x = 1%nat) (iter it) /\
    size two_pixel_class = Ok (length (iter it)).
Proof.
  apply (class_iterator_consistent two_pixel_class).
  - discriminate.
  - reflexivity.
  - split; [reflexivity|]. split; repeat constructor.
  - split; [reflexivity | repeat constructor].
  - split; simpl; lia.
Defined.

(** ** calcStatistics *)

Lemma mean_cov_of_class (im : ndimage) (m : labels) (i : Z) :
  i <> 0%Z ->
  mean_cov (FromImage im (Some m) (Some i)) =
  Ok (mean_cov_values
        {| getNumElements := count_true (ravel (np_equal m i));
           getNumBands := shape2 im;
           sample_type := dtype im;
           iter := compress (ravel (np_equal m i)) (ravel (pixels im)) |}).
Proof.
  intros Hi. unfold mean_cov. simpl.
  rewrite (ImageMaskIterator_truthy im m i Hi). simpl.
  unfold mean_cov_of. simpl.
  pose proof (length_compress_le (ravel (np_equal m i)) (ravel (pixels im))) as H.
  destruct (count_true (ravel (np_equal m i))); [|reflexivity].
  destruct (compress _ _); [reflexivity | simpl in H; lia].
Qed.

(** X2: [calcStatistics] on a class of index 0 raises [NameError], and
    by then it has replaced the statistics of the class by an empty
    [GaussianStats]: what had been calculated before is lost, while the
    validity flag and the cached size stay as they were. *)
Theorem calcStatistics_index_zero_loses_stats {E : Eigen} (cl : TrainingClass) :
  index cl = 0%Z ->
  exists cl',
    calcStatistics cl = (cl', Raise (NameError "not_equal")) /\
    stats cl' = Some new_GaussianStats /\
    _statsValid cl' = _statsValid cl /\
    _size cl' = _size cl /\
    size cl' = size cl.
Proof.
  intros Hi. unfold calcStatistics, mean_cov. simpl.
  rewrite (ImageMaskIterator_falsy (image cl) (mask cl) (Some (index cl)))
    by (simpl; now apply truthy_false_iff).
  simpl. eexists. split; [reflexivity|]. repeat split.
Qed.

Lemma calcStatistics_index_zero_witness :
  exists cl',
    calcStatistics (E := diag_eigen) (statsValid true
      (new_TrainingClass unit_image [[1%Z]] 0 1)) =
      (cl', Raise (NameError "not_equal")) /\
    stats cl' = Some new_GaussianStats /\
    _statsValid cl' = true.
Proof.
  destruct (calcStatistics_index_zero_loses_stats (E := diag_eigen)
              (statsValid true (new_TrainingClass unit_image [[1%Z]] 0 1))
              eq_refl) as (cl' & H1 & H2 & H3 & _).
  exists cl'. split; [exact H1|]. split; [exact H2 | exact H3].
Defined.

(** X3: for a class of nonzero index, [calcStatistics] goes by the
    number [n] of selected pixels and by their covariance.  With at
    least two pixels and an invertible covariance the call returns with
    the statistics in place: the inverse of the covariance, the
    validity flag set, and [n] as [numSamples], as the cached size and
    as what [size] answers from then on.  With at least two pixels and
    a singular covariance the call raises [LinAlgError] and leaves a
    [stats] with mean and covariance but neither inverse nor
    log-determinant, the validity flag being as before.  With fewer
    than two pixels, of at least one band, the covariance is not a
    number: the call raises [LinAlgError] as well, but from the log-determinant, after an
    inverse has been assigned; no log-determinant is stored and the
    validity flag and the cached size are as before. *)
Theorem calcStatistics_outcome {E : Eigen} (cl : TrainingClass)
    (m : vec) (c : mat) (n : nat) :
  index cl <> 0%Z -> short_indices (image cl) ->
  mean_cov_values
    {| getNumElements := count_true (ravel (np_equal (mask cl) (index cl)));
       getNumBands := shape2 (image cl);
       sample_type := dtype (image cl);
       iter := compress (ravel (np_equal (mask cl) (index cl)))
                        (ravel (pixels (image cl))) |} = (m, c, n) ->
  n = length (compress (ravel (np_equal (mask cl) (index cl)))
                       (ravel (pixels (image cl)))) /\
  ((2 <= n)%nat ->
   forall ic, is_inverse c ic ->
     exists cl',
       calcStatistics cl = (cl', Ok tt) /\
       stats cl' = Some {| mean := Some m; cov := Some c; invCov := Some ic;
                           logDetCov := Some (logDeterminant c);
                           numSamples := n |} /\
       _statsValid cl' = true /\ _size cl' = n /\ size cl' = Ok n /\
       index cl' = index cl /\ numBands cl' = numBands cl) /\
  ((2 <= n)%nat ->
   ~ invertible c ->
     exists cl',
       calcStatistics cl = (cl', Raise LinAlgError) /\
       stats cl' = Some {| mean := Some m; cov := Some c; invCov := None;
                           logDetCov := None; numSamples := n |} /\
       _statsValid cl' = _statsValid cl /\ _size cl' = _size cl) /\
  ((n < 2)%nat -> (0 < shape2 (image cl))%nat ->
     exists cl' st,
       calcStatistics cl = (cl', Raise LinAlgError) /\
       stats cl' = Some st /\
       invCov st <> None /\ logDetCov st = None /\ numSamples st = n /\
       _statsValid cl' = _statsValid cl /\ _size cl' = _size cl).
Proof.
  intros Hi _ Hmc.
  split.
  { pose proof (mean_cov_values_count
                  {| getNumElements :=
                       count_true (ravel (np_equal (mask cl) (index cl)));
                     getNumBands := shape2 (image cl);
                     sample_type := dtype (image cl);
                     iter := compress (ravel (np_equal (mask cl) (index cl)))
                                      (ravel (pixels (image cl))) |}) as H.
    rewrite Hmc in H. exact H. }
  split; [|split].
  - intros Hn ic Hic. unfold calcStatistics.
    rewrite (mean_cov_of_class _ _ _ Hi), Hmc, (inv_of_inverse _ _ Hic).
    rewrite (proj2 (Nat.ltb_ge n 2) Hn). cbn [andb].
    eexists. split; [reflexivity|]. simpl. repeat split.
  - intros Hn Hs. unfold calcStatistics.
    rewrite (mean_cov_of_class _ _ _ Hi), Hmc, (inv_singular _ Hs).
    rewrite (proj2 (Nat.ltb_ge n 2) Hn). cbn [andb].
    eexists. split; [reflexivity|]. simpl. repeat split.
  - intros Hn HB. unfold calcStatistics.
    rewrite (mean_cov_of_class _ _ _ Hi), Hmc.
    rewrite (proj2 (Nat.ltb_lt n 2) Hn).
    destruct (shape2 (image cl)); [lia|]. cbn [Nat.eqb negb andb].
    eexists. eexists. split; [reflexivity|]. simpl.
    repeat split. discriminate.
Qed.

Lemma calcStatistics_outcome_witness :
  exists cl',
    calcStatistics (E := diag_eigen) two_pixel_class = (cl', Ok tt) /\
    _statsValid cl' = true /\ _size cl' = 2%nat /\ size cl' = Ok 2%nat.
Proof.
  destruct (calcStatistics_outcome (E := diag_eigen) two_pixel_class
              [(0 + 1 + 3) / (1 + 1)]
              [[(0 + (1 * 1 + 0) + (3 * 3 + 0)
                 - ((0 + 1 + 3) * (0 + 1 + 3) + 0) / (1 + 1)) / (1 + 1 - 1)]]
              2)
    as (_ & Hok & _).
  - discriminate.
  - split; simpl; lia.
  - reflexivity.
  - destruct (Hok (le_n 2)
                [[/ ((0 + (1 * 1 + 0) + (3 * 3 + 0)
                      - ((0 + 1 + 3) * (0 + 1 + 3) + 0) / (1 + 1))
                     / (1 + 1 - 1))]])
      as (cl' & H1 & _ & H3 & H4 & H5 & _).
    + apply is_inverse_1x1. lra.
    + exists cl'. repeat split; assumption.
Defined.

(** ** transformImage *)

Lemma traverse_dot_mv (X : mat) (row : list vec) :
  (Forall (fun px => length px = ncols X) row /\
   traverse (dot_mv X) row = Ok (map (mvmul X) row)) \/
  (Exists (fun px => length px <> ncols X) row /\
   traverse (dot_mv X) row = Raise ValueError).
Proof.
  induction row as [|px row IH]; [left; split; [constructor | reflexivity]|].
  simpl. unfold dot_mv at 1 3.
  destruct (Nat.eqb (ncols X) (length px)) eqn:Hpx.
  - apply Nat.eqb_eq in Hpx. simpl.
    destruct IH as [[Hall ->]|[Hex ->]].
    + left. split; [constructor; [now symmetry | exact Hall] | reflexivity].
    + right. split; [now apply Exists_cons_tl | reflexivity].
  - apply Nat.eqb_neq in Hpx. right.
    split; [apply Exists_cons_hd; congruence | reflexivity].
Qed.

Lemma traverse_rows_dot_mv (X : mat) (px : list (list vec)) :
  (Forall (Forall (fun v => length v = ncols X)) px /\
   traverse (traverse (dot_mv X)) px = Ok (map (map (mvmul X)) px)) \/
  (Exists (Exists (fun v => length v <> ncols X)) px /\
   traverse (traverse (dot_mv X)) px = Raise ValueError).
Proof.
  induction px as [|row px IH]; [left; split; [constructor | reflexivity]|].
  simpl. destruct (traverse_dot_mv X row) as [[Hrow ->]|[Hrow ->]].
  - simpl. destruct IH as [[Hall ->]|[Hex ->]].
    + left. split; [now constructor | reflexivity].
    + right. split; [now apply Exists_cons_tl | reflexivity].
  - right. split; [now apply Exists_cons_hd | reflexivity].
Qed.

(** [transformImage] returns when every pixel has as many bands as the
    matrix has columns, and raises [ValueError] when one has not. *)
Lemma transformImage_cases (X : mat) (im : ndimage) :
  (Forall (Forall (fun v => length v = ncols X)) (pixels im) /\
   transformImage X im =
     Ok {| shape0 := shape0 im; shape1 := shape1 im; shape2 := nrows X;
           dtype := Floating;
           pixels := map (map (mvmul X)) (pixels im) |}) \/
  (Exists (Exists (fun v => length v <> ncols X)) (pixels im) /\
   transformImage X im = Raise ValueError).
Proof.
  unfold transformImage.
  destruct (traverse_rows_dot_mv X (pixels im)) as [[H ->]|[H ->]];
    [left | right]; (split; [exact H | reflexivity]).
Qed.

Lemma Forall_Exists_neq {A : Type} (P : A -> Prop) (Q : A -> Prop) (l : list A) :
  (forall x, P x -> Q x -> False) -> Forall P l -> Exists Q l -> False.
Proof.
  intros H Hall Hex. induction Hex as [x l Hx|x l _ IH].
  - inversion Hall; subst. eauto.
  - inversion Hall; subst. auto.
Qed.

Lemma transformImage_aligned (X : mat) (im : ndimage) :
  image_shaped im -> shape2 im = ncols X ->
  transformImage X im =
    Ok {| shape0 := shape0 im; shape1 := shape1 im; shape2 := nrows X;
          dtype := Floating;
          pixels := map (map (mvmul X)) (pixels im) |}.
Proof.
  intros (_ & _ & Hb) Hs.
  destruct (transformImage_cases X im) as [[_ H]|[Hex _]]; [exact H|].
  exfalso. revert Hb Hex. apply Forall_Exists_neq.
  intros row Hrow Hrow'. revert Hrow Hrow'. apply Forall_Exists_neq.
  intros v Hv Hv'. congruence.
Qed.

Lemma transformImage_misaligned (X : mat) (im : ndimage) :
  Exists (Exists (fun v => length v <> ncols X)) (pixels im) ->
  transformImage X im = Raise ValueError.
Proof.
  intros Hex.
  destruct (transformImage_cases X im) as [[Hall _]|[_ H]]; [|exact H].
  exfalso. revert Hall Hex. apply Forall_Exists_neq.
  intros row Hrow Hrow'. revert Hrow Hrow'. apply Forall_Exists_neq.
  intros v Hv Hv'. congruence.
Qed.

Lemma transformImage_shaped (X : mat) (im im' : ndimage) :
  image_shaped im -> transformImage X im = Ok im' -> image_shaped im'.
Proof.
  intros (Hn & Hm & Hb) H.
  destruct (transformImage_cases X im) as [[_ H']|[_ H']];
    rewrite H' in H; [|discriminate].
  injection H as <-. unfold image_shaped. simpl.
  split; [now rewrite length_map|]. split.
  - apply Forall_map. eapply Forall_impl; [|exact Hm].
    intros row Hrow. cbv beta in *. now rewrite length_map.
  - apply Forall_map. apply Forall_forall. intros row _.
    apply Forall_map. apply Forall_forall. intros px _.
    apply length_mvmul.
Qed.

(** ** TrainingClass.transform, when the inversion succeeds *)

(** X4: when [X cov X^T] is invertible and the image of the class is an
    array of pixels of as many bands as [X] has columns, [transform]
    returns with the statistics re-projected: the mean is [X mean], the
    covariance [X cov X^T], [invCov] its inverse (their products are
    the identity), [logDetCov] the logarithm of its determinant when
    that is positive, [numBands] the number of rows of [X], and the
    image the transformed image, an array of floats whose pixels are
    those of the class multiplied by [X].  The index, the mask, the
    cached size and the validity flag are untouched.  When instead a
    pixel of the image has another number of bands, [transform] raises
    [ValueError] from [transformImage], having already overwritten the
    statistics and [numBands], and keeps the image. *)
Theorem transform_success {E : Eigen}
    (X : mat) (cl : TrainingClass) (st : GaussianStats) (m : vec) (c : mat) :
  stats cl = Some st -> mean st = Some m -> cov st = Some c ->
  ncols X = length m -> ncols c = ncols X -> nrows c = ncols X ->
  invertible (mmul X (mmul c (transpose X))) ->
  (image_shaped (image cl) -> shape2 (image cl) = ncols X ->
   exists cl' st' ic,
     transform X cl = (cl', Ok tt) /\
     stats cl' = Some st' /\
     mean st' = Some (mvmul X m) /\
     cov st' = Some (mmul X (mmul c (transpose X))) /\
     invCov st' = Some ic /\
     is_inverse (mmul X (mmul c (transpose X))) ic /\
     (forall d, det (mmul X (mmul c (transpose X))) = Ok d -> 0 < d ->
        logDetCov st' = Some (ln d)) /\
     numSamples st' = numSamples st /\
     numBands cl' = nrows X /\
     transformImage X (image cl) = Ok (image cl') /\
     image cl' =
       {| shape0 := shape0 (image cl); shape1 := shape1 (image cl);
          shape2 := nrows X; dtype := Floating;
          pixels := map (map (mvmul X)) (pixels (image cl)) |} /\
     index cl' = index cl /\ mask cl' = mask cl /\
     _size cl' = _size cl /\ _statsValid cl' = _statsValid cl) /\
  (Exists (Exists (fun v => length v <> ncols X)) (pixels (image cl)) ->
   exists cl' st',
     transform X cl = (cl', Raise ValueError) /\
     stats cl' = Some st' /\
     mean st' = Some (mvmul X m) /\
     cov st' = Some (mmul X (mmul c (transpose X))) /\
     numBands cl' = nrows X /\
     image cl' = image cl).
Proof.
  intros Hst Hm Hc HX Hcc Hcr [ic Hic].
  rewrite (transform_reaches_inv X cl st m c Hst Hm Hc HX Hcc Hcr). cbv zeta.
  rewrite (inv_of_inverse _ _ Hic). split.
  - intros Him Hs. rewrite (transformImage_aligned X (image cl) Him Hs).
    eexists. eexists. exists ic. split; [reflexivity|]. simpl.
    repeat (split; [reflexivity|]). split; [exact Hic|].
    split; [|repeat split].
    intros d Hd Hpos. unfold log_det_or_fallback. rewrite Hd. simpl.
    unfold math_log. destruct (Rlt_dec 0 d); [reflexivity | contradiction].
  - intros Hex. rewrite (transformImage_misaligned X (image cl) Hex).
    eexists. eexists. split; [reflexivity|]. simpl. repeat split.
Qed.

Lemma transform_success_witness :
  exists cl' st' ic,
    transform (E := diag_eigen) [[2]] (one_band_class 1 1 1 0) = (cl', Ok tt) /\
    stats cl' = Some st' /\
    mean st' = Some (mvmul [[2]] [1]) /\
    invCov st' = Some ic /\
    is_inverse (mmul [[2]] (mmul [[1]] (transpose [[2]]))) ic /\
    numBands cl' = 1%nat /\
    pixels (image cl') = [[mvmul [[2]] [1]]].
Proof.
  destruct (transform_success (E := diag_eigen) [[2]] (one_band_class 1 1 1 0)
              (one_band_stats 1 1 1 0) [1] [[1]])
    as [Hok _]; try reflexivity.
  - rewrite product_1x1. eexists. apply is_inverse_1x1. lra.
  - destruct Hok
      as (cl' & st' & ic & H1 & H2 & H3 & _ & H5 & H6 & _ & _ & H9 & _ & H11 & _).
    + split; [reflexivity|]. split; repeat constructor.
    + reflexivity.
    + exists cl', st', ic.
      refine (conj H1 (conj H2 (conj H3 (conj H5 (conj H6 (conj H9 _)))))).
      rewrite H11. reflexivity.
Defined.

(** X5: transforming an image by [X] and then by [Y] is transforming it
    by the product [Y X]: on an array of pixels of as many bands as [X]
    has columns both go through and give the same image.  A transformed
    image has the shape of the original with as many bands as the
    matrix has rows. *)
Theorem transformImage_compose (X Y : mat) (im : ndimage) (p q r : nat) :
  Mat p q Y -> Mat q r X -> (0 < p)%nat -> (0 < q)%nat ->
  image_shaped im -> shape2 im = r ->
  exists xim,
    transformImage X im = Ok xim /\
    returns (transformImage Y xim) /\
    transformImage Y xim = transformImage (mmul Y X) im /\
    image_shaped xim /\
    shape0 xim = shape0 im /\
    shape1 xim = shape1 im /\
    shape2 xim = q.
Proof.
  intros HY HX Hp Hq Him Hr.
  assert (HcX : ncols X = r) by exact (Mat_ncols q r X HX Hq).
  assert (HcY : ncols Y = q) by exact (Mat_ncols p q Y HY Hp).
  assert (HcYX : ncols (mmul Y X) = r).
  { rewrite ncols_mmul; [exact HcX | exact (Mat_nonempty p q Y HY Hp)]. }
  pose proof (transformImage_aligned X im Him) as H1.
  rewrite HcX in H1. specialize (H1 Hr).
  eexists. split; [exact H1|].
  assert (Hx : image_shaped
                 {| shape0 := shape0 im; shape1 := shape1 im;
                    shape2 := nrows X; dtype := Floating;
                    pixels := map (map (mvmul X)) (pixels im) |})
    by exact (transformImage_shaped X im _ Him H1).
  assert (H2 := transformImage_aligned Y _ Hx).
  cbn [shape2] in H2. destruct HX as [HXn HXm].
  unfold nrows in H2 at 1. rewrite HXn, HcY in H2. specialize (H2 eq_refl).
  split; [rewrite H2; eexists; reflexivity|].
  split.
  - rewrite H2.
    rewrite (transformImage_aligned (mmul Y X) im Him)
      by (rewrite HcYX; exact Hr).
    simpl. f_equal. f_equal.
    + symmetry. apply nrows_mmul.
    + destruct Him as (_ & _ & Hb). rewrite map_map.
      apply map_ext_in. intros row Hrow. rewrite map_map.
      apply map_ext_in. intros px Hpx. symmetry.
      apply (mvmul_mmul p q r); try assumption; [split; assumption|].
      rewrite Forall_forall in Hb. specialize (Hb row Hrow).
      rewrite Forall_forall in Hb. rewrite <- Hr. now apply Hb.
  - split; [exact Hx|]. simpl. repeat split. exact HXn.
Qed.

Lemma transformImage_compose_witness :
  exists xim,
    transformImage [[2]] two_pixel_image = Ok xim /\
    transformImage [[3]] xim = transformImage (mmul [[3]] [[2]]) two_pixel_image.
Proof.
  destruct (transformImage_compose [[2]] [[3]] two_pixel_image 1 1 1)
    as (xim & H1 & _ & H3 & _).
  - split; [reflexivity | repeat constructor].
  - split; [reflexivity | repeat constructor].
  - lia.
  - lia.
  - split; [reflexivity|]. split; repeat constructor.
  - reflexivity.
  - exists xim. split; [exact H1 | exact H3].
Defined.

(** ** TrainingClassSet *)

Lemma find_key_app (d d' : list (Z * TrainingClass)) (k : Z) :
  find (fun e => Z.eqb (fst e) k) (d ++ d') =
  match find (fun e => Z.eqb (fst e) k) d with
  | Some e => Some e
  | None => find (fun e => Z.eqb (fst e) k) d'
  end.
Proof.
  induction d as [|e d IH]; simpl; [reflexivity|].
  now destruct (Z.eqb (fst e) k).
Qed.

Lemma find_key_absent (d : list (Z * TrainingClass)) (k : Z) :
  has_key d k = false -> find (fun e => Z.eqb (fst e) k) d = None.
Proof.
  unfold has_key. induction d as [|e d IH]; simpl; [reflexivity|].
  destruct (Z.eqb (fst e) k); simpl; [discriminate | exact IH].
Qed.

(** X6: [addClass] raises on an index already in the set, and only
    then.  When it returns, the set has one class more, the class added
    is the one found under its index, whatever was found under another
    index still is, and the indices stay distinct. *)
Theorem addClass_getitem (s : TrainingClassSet) (cl : TrainingClass) :
  (In (index cl) (keys (classes s)) <->
   addClass s cl = Raise DuplicateIndexError) /\
  forall s', addClass s cl = Ok s' ->
    ~ In (index cl) (keys (classes s)) /\
    len s' = S (len s) /\
    getitem s' (index cl) = Return cl /\
    (forall k, k <> index cl -> getitem s' k = getitem s k) /\
    (NoDup (keys (classes s)) -> NoDup (keys (classes s'))).
Proof.
  unfold addClass. destruct (has_key (classes s) (index cl)) eqn:Hk.
  - split.
    + split; [reflexivity|]. intros _. now apply has_key_In.
    + intros s' H. discriminate.
  - assert (Hnot : ~ In (index cl) (keys (classes s))).
    { intros H. apply has_key_In in H. congruence. }
    split.
    + split; [contradiction | discriminate].
    + intros s' H. injection H as <-. split; [exact Hnot|].
      unfold len, getitem. simpl. split.
      { rewrite length_app. simpl. lia. }
      split.
      { rewrite find_key_app, (find_key_absent _ _ Hk). simpl.
        now rewrite Z.eqb_refl. }
      split.
      { intros k Hne. rewrite find_key_app.
        destruct (find _ (classes s)); [reflexivity|]. simpl.
        destruct (Z.eqb_spec (index cl) k); [congruence | reflexivity]. }
      intros Hnd. unfold keys. rewrite map_app. simpl.
      apply NoDup_app.
      * exact Hnd.
      * repeat constructor. intros [].
      * intros k Hin [<-|[]]. now apply Hnot.
Qed.

Lemma addClass_getitem_witness :
  len new_TrainingClassSet = 0%nat /\
  exists s',
    addClass new_TrainingClassSet (band_class 5 0) = Ok s' /\
    len s' = 1%nat /\ getitem s' 5 = Return (band_class 5 0).
Proof.
  split; [reflexivity|].
  destruct (addClass new_TrainingClassSet (band_class 5 0)) as [s'|e] eqn:H;
    [|discriminate].
  destruct (proj2 (addClass_getitem new_TrainingClassSet (band_class 5 0)) s' H)
    as (_ & H1 & H2 & _).
  exists s'. repeat split; assumption.
Defined.

(** X7: [addClass] never compares band counts.  The set takes the
    band count of the first class added; once it holds a positive band
    count, a class of any other band count is added all the same and
    the band count of the set stays what it was. *)
Theorem addClass_numBands (s : TrainingClassSet) (cl : TrainingClass) (s' : TrainingClassSet) :
  addClass s cl = Ok s' ->
  (set_numBands s = None -> set_numBands s' = Some (numBands cl)) /\
  (forall n, set_numBands s = Some (S n) -> set_numBands s' = Some (S n)) /\
  (returns (addClass s cl) <-> ~ In (index cl) (keys (classes s))).
Proof.
  intros H. split; [|split].
  - intros Hn. unfold addClass in H.
    destruct (has_key (classes s) (index cl)); [discriminate|].
    injection H as <-. simpl. now rewrite Hn.
  - intros n Hn. unfold addClass in H.
    destruct (has_key (classes s) (index cl)); [discriminate|].
    injection H as <-. simpl. now rewrite Hn.
  - split.
    + intros _ Hin. apply has_key_In in Hin. unfold addClass in H.
      rewrite Hin in H. discriminate.
    + intros _. now exists s'.
Qed.

Lemma addClass_numBands_witness :
  let wide := new_TrainingClass
                {| shape0 := 1; shape1 := 1; shape2 := 2; dtype := Floating;
                   pixels := [[[1; 2]]] |} [[2%Z]] 2 1 in
  let s1 := {| classes := [(1%Z, band_class 1 0)];
               set_numBands := Some 1%nat |} in
  let s2 := {| classes := [(1%Z, band_class 1 0); (2%Z, wide)];
               set_numBands := Some 1%nat |} in
  addClass new_TrainingClassSet (band_class 1 0) = Ok s1 /\
  numBands wide = 2%nat /\
  addClass s1 wide = Ok s2 /\
  set_numBands s2 = Some 1%nat.
Proof.
  intros wide s1 s2.
  assert (H : addClass s1 wide = Ok s2) by reflexivity.
  split; [reflexivity|]. split; [reflexivity|]. split; [exact H|].
  exact (proj1 (proj2 (addClass_numBands s1 wide s2 H)) O eq_refl).
Defined.

(** ** TrainingClassSet.transform *)

(** What [TrainingClass.transform] leaves alone, and what it changes only
    when it returns. *)
Lemma transform_frame {E : Eigen} (X : mat) (cl : TrainingClass) :
  index (fst (transform X cl)) = index cl /\
  mask (fst (transform X cl)) = mask cl /\
  (snd (transform X cl) = Ok tt ->
   numBands (fst (transform X cl)) = nrows X /\
   transformImage X (image cl) = Ok (image (fst (transform X cl)))) /\
  (forall e, snd (transform X cl) = Raise e ->
   (numBands (fst (transform X cl)) = numBands cl \/
    transformImage X (image cl) = Raise e /\
    numBands (fst (transform X cl)) = nrows X) /\
   image (fst (transform X cl)) = image cl).
Proof.
  unfold transform.
  destruct (st <- attr "stats" (stats cl) ;; m <- attr "mean" (mean st) ;;
            m' <- dot_mv X m ;; Ok (st, m')) as [[st m']|e].
  - destruct (c <- attr "cov" (cov (set_mean st m')) ;;
              cX <- dot c (transpose X) ;; dot X cX) as [c'|e].
    + destruct (inv c') as [ic|e]; simpl.
      * destruct (transformImage X (image cl)) as [im'|e]; simpl.
        -- repeat split; discriminate.
        -- split; [reflexivity|]. split; [reflexivity|].
           split; [discriminate|]. intros e' He'. injection He' as ->.
           split; [right; split; reflexivity | reflexivity].
      * repeat split; try discriminate. intros; now left.
    + simpl. repeat split; try discriminate. intros; now left.
  - simpl. repeat split; try discriminate. intros; now left.
Qed.

Lemma transform_values_keys {E : Eigen} (X : mat) (d : list (Z * TrainingClass)) :
  keys (fst (transform_values X d)) = keys d.
Proof.
  induction d as [|[k cl] d IH]; simpl; [reflexivity|].
  destruct (transform X cl) as [cl' [[]|e]]; simpl; [|reflexivity].
  destruct (transform_values X d) as [d' r]. simpl in *. now rewrite IH.
Qed.

Lemma transform_values_Ok {E : Eigen} (X : mat) (d : list (Z * TrainingClass)) :
  snd (transform_values X d) = Ok tt ->
  Forall2 (fun a b => fst b = fst a /\ transform X (snd a) = (snd b, Ok tt))
          d (fst (transform_values X d)).
Proof.
  induction d as [|[k cl] d IH]; simpl; intros H; [constructor|].
  destruct (transform X cl) as [cl' [[]|e]] eqn:Hcl; simpl in *; [|discriminate].
  destruct (transform_values X d) as [d' r]. simpl in *.
  constructor; [split; [reflexivity | exact Hcl] | now apply IH].
Qed.

Lemma transform_values_Raise {E : Eigen} (X : mat) (d : list (Z * TrainingClass)) (e : exn) :
  snd (transform_values X d) = Raise e ->
  exists pre k cl post,
    d = pre ++ (k, cl) :: post /\
    snd (transform X cl) = Raise e /\
    Forall (fun a => snd (transform X (snd a)) = Ok tt) pre /\
    fst (transform_values X d) =
      map (fun a => (fst a, fst (transform X (snd a)))) pre ++
      (k, fst (transform X cl)) :: post.
Proof.
  induction d as [|[k cl] d IH]; simpl; intros H; [discriminate|].
  destruct (transform X cl) as [cl' [[]|e']] eqn:Hcl; simpl in *.
  - destruct (transform_values X d) as [d' r]. simpl in *.
    destruct (IH H) as (pre & k0 & cl0 & post & -> & H1 & H2 & H3).
    exists ((k, cl) :: pre), k0, cl0, post. simpl.
    split; [reflexivity|]. split; [exact H1|]. split.
    + constructor; [simpl; now rewrite Hcl | exact H2].
    + simpl. now rewrite Hcl, H3.
  - injection H as ->. exists [], k, cl, d. simpl.
    rewrite Hcl. repeat split. constructor.
Qed.

(** X8: [TrainingClassSet.transform] keeps the indices of the set.  When
    it returns, every class has been transformed and has as many bands
    as [X] has rows, which is also the band count of the set (an empty
    set included).  When a class fails, the exception is that of the
    first class failing; the classes before it have been transformed,
    that class is left as its own [transform] left it, those after it
    are untouched, and the set keeps its old band count. *)
Theorem TrainingClassSet_transform_outcome {E : Eigen} (X : mat) (s : TrainingClassSet) :
  keys (classes (fst (TrainingClassSet_transform X s))) = keys (classes s) /\
  (snd (TrainingClassSet_transform X s) = Ok tt ->
   set_numBands (fst (TrainingClassSet_transform X s)) = Some (nrows X) /\
   Forall2 (fun a b => fst b = fst a /\ transform X (snd a) = (snd b, Ok tt))
           (classes s) (classes (fst (TrainingClassSet_transform X s))) /\
   Forall (fun cl => numBands cl = nrows X)
          (values (classes (fst (TrainingClassSet_transform X s))))) /\
  (forall e, snd (TrainingClassSet_transform X s) = Raise e ->
   set_numBands (fst (TrainingClassSet_transform X s)) = set_numBands s /\
   exists pre k cl post,
     classes s = pre ++ (k, cl) :: post /\
     snd (transform X cl) = Raise e /\
     Forall (fun a => snd (transform X (snd a)) = Ok tt) pre /\
     classes (fst (TrainingClassSet_transform X s)) =
       map (fun a => (fst a, fst (transform X (snd a)))) pre ++
       (k, fst (transform X cl)) :: post).
Proof.
  unfold TrainingClassSet_transform.
  pose proof (transform_values_keys X (classes s)) as Hk.
  pose proof (transform_values_Ok X (classes s)) as Hok.
  pose proof (transform_values_Raise X (classes s)) as Hr.
  destruct (transform_values X (classes s)) as [d [[]|e]]; simpl in *.
  - split; [exact Hk|]. split; [|discriminate].
    intros _. split; [reflexivity|]. specialize (Hok eq_refl).
    split; [exact Hok|].
    unfold values. apply Forall_map.
    clear Hk Hr. induction Hok as [|a b l l' [_ Hab] _ IH]; constructor.
    + pose proof (transform_frame X (snd a)) as (_ & _ & H & _).
      rewrite Hab in H. simpl in H. now apply H.
    + exact IH.
  - split; [exact Hk|]. split; [discriminate|].
    intros e' He. injection He as <-. split; [reflexivity|].
    now apply Hr.
Qed.

(** ** createTrainingClasses, class by class *)

Lemma calcStatistics_Ok_inv {E : Eigen} (cl cl' : TrainingClass) :
  calcStatistics cl = (cl', Ok tt) ->
  image cl' = image cl /\ mask cl' = mask cl /\ index cl' = index cl /\
  classProb cl' = classProb cl /\ numBands cl' = numBands cl /\
  _statsValid cl' = true /\
  exists m c ic,
    stats cl' = Some {| mean := Some m; cov := Some c; invCov := Some ic;
                        logDetCov := Some (logDeterminant c);
                        numSamples := _size cl' |} /\
    is_inverse c ic /\
    mean_cov (FromImage (image cl) (Some (mask cl)) (Some (index cl))) =
      Ok (m, c, _size cl').
Proof.
  unfold calcStatistics.
  destruct (mean_cov _) as [[[m c] n]|e]; [|discriminate].
  destruct (Nat.ltb n 2 && negb (Nat.eqb (shape2 (image cl)) 0))%bool;
    [discriminate|].
  destruct (inv c) as [ic|e] eqn:Hinv; [|discriminate].
  intros H. injection H as <-. simpl.
  repeat (split; [reflexivity|]).
  exists m, c, ic. split; [reflexivity|]. split; [|reflexivity].
  now apply inv_Ok.
Qed.

Lemma calcStatistics_invertible {E : Eigen} (cl : TrainingClass)
    (m : vec) (c ic : mat) (n : nat) :
  index cl <> 0%Z ->
  mean_cov_values
    {| getNumElements := count_true (ravel (np_equal (mask cl) (index cl)));
       getNumBands := shape2 (image cl);
       sample_type := dtype (image cl);
       iter := compress (ravel (np_equal (mask cl) (index cl)))
                        (ravel (pixels (image cl))) |} = (m, c, n) ->
  (2 <= n)%nat ->
  is_inverse c ic ->
  snd (calcStatistics cl) = Ok tt.
Proof.
  intros Hi Hmc Hn Hic. unfold calcStatistics.
  rewrite (mean_cov_of_class _ _ _ Hi), Hmc, (proj2 (Nat.ltb_ge n 2) Hn).
  cbn [andb].
  now rewrite (inv_of_inverse _ _ Hic).
Qed.

Lemma calcStatistics_few_pixels {E : Eigen} (cl : TrainingClass)
    (m : vec) (c : mat) (n : nat) :
  index cl <> 0%Z ->
  mean_cov_values
    {| getNumElements := count_true (ravel (np_equal (mask cl) (index cl)));
       getNumBands := shape2 (image cl);
       sample_type := dtype (image cl);
       iter := compress (ravel (np_equal (mask cl) (index cl)))
                        (ravel (pixels (image cl))) |} = (m, c, n) ->
  (n < 2)%nat -> (0 < shape2 (image cl))%nat ->
  snd (calcStatistics cl) = Raise LinAlgError.
Proof.
  intros Hi Hmc Hn HB. unfold calcStatistics.
  rewrite (mean_cov_of_class _ _ _ Hi), Hmc, (proj2 (Nat.ltb_lt n 2) Hn).
  destruct (shape2 (image cl)); [lia | reflexivity].
Qed.

(** The loop of [createTrainingClasses] with statistics: it returns when
    [calcStatistics] succeeds on the class of every label for which a
    class is made, and only then; otherwise it raises what the first
    class to fail raises. *)
Lemma createTrainingClasses_loop_with_statistics {E : Eigen}
    (im : ndimage) (m : labels) (indices : option (list Z))
    (order : list Z) (s : TrainingClassSet) :
  NoDup order ->
  (forall i, In i order -> ~ In i (keys (classes s))) ->
  (Forall (fun i => snd (calcStatistics (new_TrainingClass im m i 1)) = Ok tt)
          (filter (kept indices) order) ->
   returns (createTrainingClasses_loop im m true indices order s)) /\
  (forall pre i post e,
     filter (kept indices) order = pre ++ i :: post ->
     Forall (fun i => snd (calcStatistics (new_TrainingClass im m i 1)) = Ok tt)
            pre ->
     snd (calcStatistics (new_TrainingClass im m i 1)) = Raise e ->
     createTrainingClasses_loop im m true indices order s = Raise e) /\
  (forall s',
     createTrainingClasses_loop im m true indices order s = Ok s' ->
     Forall (fun i => snd (calcStatistics (new_TrainingClass im m i 1)) = Ok tt)
            (filter (kept indices) order)).
Proof.
  revert s. induction order as [|i order IH]; intros s Hnd Hfresh.
  - simpl. split; [intros _; now exists s|]. split.
    + intros pre i post e H. destruct pre; discriminate.
    + intros s' _. constructor.
  - inversion Hnd as [|? ? Hni Hnd']; subst.
    assert (Hrest : forall j, In j order -> ~ In j (keys (classes s))).
    { intros j Hj. apply Hfresh. now right. }
    assert (Hkept : kept indices i
                    = (negb (Z.eqb i 0) && negb (excluded_by indices i))%bool)
      by reflexivity.
    cbn [filter createTrainingClasses_loop]. rewrite Hkept.
    destruct (Z.eqb i 0); cbn [negb andb]; [now apply IH|].
    destruct (excluded_by indices i); cbn [negb andb]; [now apply IH|].
    pose proof (calcStatistics_index (new_TrainingClass im m i 1)) as Hidx.
    destruct (calcStatistics (new_TrainingClass im m i 1)) as [c [[]|e0]]
      eqn:Hcalc; simpl in Hidx |- *.
    + unfold addClass. rewrite Hidx.
      destruct (has_key (classes s) i) eqn:Hk.
      { apply has_key_In in Hk. exfalso.
        apply (Hfresh i); [now left | exact Hk]. }
      simpl.
      match goal with
      | |- context [createTrainingClasses_loop im m true indices order ?s1] =>
          destruct (IH s1 Hnd') as (IH1 & IH2 & IH3)
      end.
      { intros j Hj. simpl. unfold keys. rewrite map_app, in_app_iff. simpl.
        intros [Hin|[->|[]]]; [now apply (Hrest j) | contradiction]. }
      split; [|split].
      * intros Hall. inversion Hall; subst. now apply IH1.
      * intros [|p pre] i0 post e Hf Hpre He.
        -- simpl in Hf. injection Hf as <- _. rewrite Hcalc in He.
           discriminate.
        -- simpl in Hf. injection Hf as <- Hf. inversion Hpre; subst.
           now apply (IH2 pre i0 post e).
      * intros s' Hs'.
        constructor; [now rewrite Hcalc | now apply (IH3 s')].
    + split; [|split].
      * intros Hall. inversion Hall as [|? ? Hi0 _]; subst.
        rewrite Hcalc in Hi0. discriminate.
      * intros [|p pre] i0 post e Hf Hpre He.
        -- simpl in Hf. injection Hf as <- _. rewrite Hcalc in He.
           simpl in He. injection He as ->. reflexivity.
        -- simpl in Hf. injection Hf as <- Hf.
           inversion Hpre as [|? ? Hi0 _]; subst.
           rewrite Hcalc in Hi0. discriminate.
      * intros s' Hs'. discriminate.
Qed.

(** C9, amended.  Whatever the order in which the set of labels is gone
    through: without statistics [createTrainingClasses] returns a set
    with exactly one class, of that index, for each distinct nonzero
    label that [indices] lets through, and none for label 0, an
    [indices] that is absent or empty letting every label through.
    With statistics it returns that same set of indices when
    [calcStatistics] succeeds on the class of each of these labels, and
    only then; when it fails on one of them the call raises what the
    first such class raises and returns no set. *)
Theorem createTrainingClasses_one_class_per_label {E : Eigen}
    (im : ndimage) (m : labels) (calcStats : bool) (indices : option (list Z))
    (order : list Z) :
  Permutation order (classIndices m) ->
  let run := createTrainingClasses_loop im m calcStats indices order
               new_TrainingClassSet in
  let succeeds := fun i =>
    snd (calcStatistics (new_TrainingClass im m i 1)) = Ok tt in
  (calcStats = false -> returns run) /\
  (calcStats = true ->
   (Forall succeeds (filter (kept indices) order) -> returns run) /\
   (forall pre i post e,
      filter (kept indices) order = pre ++ i :: post ->
      Forall succeeds pre ->
      snd (calcStatistics (new_TrainingClass im m i 1)) = Raise e ->
      run = Raise e)) /\
  forall s,
    run = Ok s ->
    NoDup (keys (classes s)) /\
    indexed (classes s) /\
    ~ In 0%Z (keys (classes s)) /\
    (forall i, In i (keys (classes s)) <->
               In i (ravel m) /\ i <> 0%Z /\ allowed indices i) /\
    (calcStats = true -> Forall succeeds (keys (classes s))).
Proof.
  intros Hperm run succeeds.
  assert (Hnd : NoDup order).
  { apply (Permutation_NoDup (Permutation_sym Hperm)). apply NoDup_nodup. }
  split; [|split].
  - intros Hc. unfold run. rewrite Hc.
    apply createTrainingClasses_loop_returns; [exact Hnd|].
    intros i _ [].
  - intros Hc. unfold run. rewrite Hc.
    destruct (createTrainingClasses_loop_with_statistics im m indices order
                new_TrainingClassSet Hnd) as (H1 & H2 & _).
    { intros i _ []. }
    split; [exact H1 | exact H2].
  - intros s Hs. pose proof Hs as Hs0.
    apply createTrainingClasses_loop_keys in Hs.
    destruct Hs as [Hk Hi]. simpl in Hk.
    assert (Hin : forall i, In i (keys (classes s)) <->
              In i (ravel m) /\ i <> 0%Z /\ allowed indices i).
    { intros i. rewrite Hk, filter_In, kept_true_iff.
      split; intros [H1 H2]; (split; [|exact H2]).
      - apply (Permutation_in _ Hperm) in H1.
        unfold classIndices in H1. now apply nodup_In in H1.
      - apply (Permutation_in _ (Permutation_sym Hperm)).
        unfold classIndices. now apply nodup_In. }
    split; [|split; [|split; [|split]]].
    + rewrite Hk. now apply NoDup_filter.
    + apply Hi. constructor.
    + rewrite Hin. intros (_ & H0 & _). now apply H0.
    + exact Hin.
    + intros Hc. unfold run in Hs0. rewrite Hc in Hs0. rewrite Hk.
      destruct (createTrainingClasses_loop_with_statistics im m indices order
                  new_TrainingClassSet Hnd) as (_ & _ & H3).
      { intros i _ []. }
      exact (H3 s Hs0).
Qed.

Lemma square_label_1_succeeds :
  snd (calcStatistics (E := diag_eigen)
         (new_TrainingClass square_image square_labels 1 1)) = Ok tt.
Proof.
  apply (calcStatistics_invertible (E := diag_eigen)
           (new_TrainingClass square_image square_labels 1 1)
           [(0 + 2 + 4) / (1 + 1)]
           [[(0 + (2 * 2 + 0) + (4 * 4 + 0)
              - ((0 + 2 + 4) * (0 + 2 + 4) + 0) / (1 + 1)) / (1 + 1 - 1)]]
           [[/ ((0 + (2 * 2 + 0) + (4 * 4 + 0)
                 - ((0 + 2 + 4) * (0 + 2 + 4) + 0) / (1 + 1)) / (1 + 1 - 1))]]
           2).
  - discriminate.
  - reflexivity.
  - lia.
  - apply is_inverse_1x1. lra.
Qed.

Lemma square_label_2_fails :
  snd (calcStatistics (E := diag_eigen)
         (new_TrainingClass square_image square_labels 2 1)) =
  Raise LinAlgError.
Proof.
  apply (calcStatistics_few_pixels (E := diag_eigen)
           (new_TrainingClass square_image square_labels 2 1)
           [(0 + 7) / 1]
           [[(0 + (7 * 7 + 0) - ((0 + 7) * (0 + 7) + 0) / 1) / (1 - 1)]]
           1).
  - discriminate.
  - reflexivity.
  - lia.
  - simpl. lia.
Qed.

Lemma createTrainingClasses_one_class_per_label_witness :
  (exists s,
     createTrainingClasses_loop (E := diag_eigen) square_image
       square_labels false None [2; 0; 1]%Z new_TrainingClassSet = Ok s /\
     NoDup (keys (classes s)) /\
     ~ In 0%Z (keys (classes s)) /\
     In 1%Z (keys (classes s)) /\ In 2%Z (keys (classes s))) /\
  createTrainingClasses_loop (E := diag_eigen) square_image
    square_labels true None [2; 0; 1]%Z new_TrainingClassSet =
  Raise LinAlgError.
Proof.
  assert (Hperm : Permutation [2; 0; 1]%Z (classIndices square_labels)).
  { unfold classIndices. simpl.
    apply Permutation_sym. apply perm_trans with (l' := [0; 2; 1]%Z).
    - apply perm_skip. apply perm_swap.
    - apply perm_swap. }
  split.
  - destruct (createTrainingClasses_one_class_per_label (E := diag_eigen)
                square_image square_labels false None [2; 0; 1]%Z Hperm)
      as (Hret & _ & Hprop).
    destruct (Hret eq_refl) as [s Hs]. exists s. split; [exact Hs|].
    destruct (Hprop s Hs) as (Hnd & _ & H0 & Hin & _).
    split; [exact Hnd|]. split; [exact H0|].
    split; apply Hin; simpl; (split; [tauto | split; [discriminate | exact I]]).
  - destruct (createTrainingClasses_one_class_per_label (E := diag_eigen)
                square_image square_labels true None [2; 0; 1]%Z Hperm)
      as (_ & Hstat & _).
    destruct (Hstat eq_refl) as [_ Hraise].
    apply (Hraise [] 2%Z [1%Z] LinAlgError).
    + reflexivity.
    + constructor.
    + exact square_label_2_fails.
Defined.

(** The labels [{0, 1, 1, 2}] give two classes, of indices 1 and 2. *)
Lemma createTrainingClasses_0112 {E : Eigen} (im : ndimage) :
  exists s, createTrainingClasses im [[0; 1]; [1; 2]]%Z false None = Ok s /\
            keys (classes s) = [1; 2]%Z /\
            map index (values (classes s)) = [1; 2]%Z.
Proof.
  eexists. split; [reflexivity|]. split; reflexivity.
Qed.

(** The claim C9 as it is worded fails twice.  An empty [indices] is
    given, and yet restricts nothing: label 1 gets its class though it
    is not among the allowed indices.  And with statistics the labels
    [{0, 1, 1, 2}] yield no class at all: the class of label 1 has two
    pixels and its statistics are calculated, the class of label 2 has
    a single pixel, and the call raises [LinAlgError]. *)
Lemma createTrainingClasses_not_as_claimed :
  (exists s,
     createTrainingClasses (E := diag_eigen) square_image square_labels
       false (Some []) = Ok s /\
     In 1%Z (keys (classes s)) /\ ~ In 1%Z (@nil Z)) /\
  In 1%Z (ravel square_labels) /\ In 2%Z (ravel square_labels) /\
  createTrainingClasses (E := diag_eigen) square_image square_labels
    true None = Raise LinAlgError.
Proof.
  split.
  { eexists. split; [reflexivity|]. split.
    - simpl. now left.
    - intros []. }
  split; [simpl; tauto|]. split; [simpl; tauto|].
  unfold createTrainingClasses.
  change (classIndices square_labels) with [0; 1; 2]%Z.
  destruct (createTrainingClasses_loop_with_statistics (E := diag_eigen)
              square_image square_labels None [0; 1; 2]%Z new_TrainingClassSet)
    as (_ & Hraise & _).
  - repeat constructor; simpl; intuition discriminate.
  - intros i _ [].
  - apply (Hraise [1%Z] 2%Z [] LinAlgError).
    + reflexivity.
    + constructor; [exact square_label_1_succeeds | constructor].
    + exact square_label_2_fails.
Qed.

Lemma createTrainingClasses_loop_made {E : Eigen}
    (im : ndimage) (m : labels) (calcStats : bool) (indices : option (list Z))
    (order : list Z) (s s' : TrainingClassSet) :
  createTrainingClasses_loop im m calcStats indices order s = Ok s' ->
  set_made im m calcStats s -> set_made im m calcStats s'.
Proof.
  revert s. induction order as [|i order IH]; intros s H Hs; simpl in H.
  - now injection H as <-.
  - destruct (Z.eqb i 0); [now apply (IH s)|].
    destruct (excluded_by indices i); [now apply (IH s)|].
    apply bind_Ok_inv in H. destruct H as (cl' & Hcl & H).
    apply bind_Ok_inv in H. destruct H as (s1 & Hadd & H).
    apply (IH s1 H). clear IH H.
    assert (Hmade : made_from im m calcStats i cl').
    { destruct calcStats.
      - destruct (calcStatistics (new_TrainingClass im m i 1))
          as [c [[]|e]] eqn:Hc; [|discriminate].
        injection Hcl as ->.
        destruct (calcStatistics_Ok_inv _ _ Hc)
          as (H1 & H2 & H3 & H4 & H5 & H6 & mn & cv & ic & H7 & H8 & H9).
        simpl in *. unfold made_from.
        repeat (split; [assumption|]). split; [discriminate|].
        intros _. split; [assumption|]. now exists mn, cv, ic.
      - injection Hcl as <-. unfold made_from. simpl.
        repeat (split; [reflexivity|]). discriminate. }
    unfold addClass in Hadd.
    destruct (has_key (classes s) (index cl')); [discriminate|].
    injection Hadd as <-. destruct Hs as [Hall Hnb]. split; simpl.
    + intros k cl Hin. apply in_app_or in Hin.
      destruct Hin as [Hin|[Heq|[]]]; [now apply Hall|].
      injection Heq as <- <-.
      pose proof Hmade as (_ & _ & Hidx & _). rewrite Hidx. exact Hmade.
    + rewrite Hnb. destruct Hmade as (_ & _ & _ & _ & -> & _).
      destruct (classes s); simpl; [reflexivity|].
      now destruct (shape2 im).
Qed.

(** X9: the classes that [createTrainingClasses] returns.  Each is a
    class on the very image and mask given, of the index it is filed
    under, of prior probability 1 and of the band count of the image.
    Without statistics it is the class as constructed.  With statistics
    it carries the mean and covariance of its pixels, the inverse of
    that covariance and its log-determinant, and is marked valid with
    the number of its pixels as size; so the call returns only if every
    covariance is invertible.  The set has the band count of the image,
    or none when no class was made. *)
Theorem createTrainingClasses_classes {E : Eigen}
    (im : ndimage) (m : labels) (calcStats : bool) (indices : option (list Z))
    (order : list Z) (s : TrainingClassSet) :
  createTrainingClasses_loop im m calcStats indices order
    new_TrainingClassSet = Ok s ->
  (forall k cl, In (k, cl) (classes s) -> made_from im m calcStats k cl) /\
  set_numBands s = match classes s with
                   | [] => None
                   | _ :: _ => Some (shape2 im)
                   end.
Proof.
  intros H.
  apply (createTrainingClasses_loop_made im m calcStats indices order _ s H).
  split; [intros k cl [] | reflexivity].
Qed.

Lemma createTrainingClasses_classes_witness :
  exists s,
    createTrainingClasses_loop (E := diag_eigen) two_pixel_image [[1; 1]]%Z
      true None [1%Z] new_TrainingClassSet = Ok s /\
    set_numBands s = Some 1%nat /\
    forall k cl, In (k, cl) (classes s) ->
                 made_from (E := diag_eigen) two_pixel_image [[1; 1]]%Z true k cl.
Proof.
  assert (Hnz : (0 + (1 * 1 + 0) + (3 * 3 + 0)
                 - ((0 + 1 + 3) * (0 + 1 + 3) + 0) / (1 + 1)) / (1 + 1 - 1) <> 0)
    by lra.
  pose proof (calcStatistics_invertible (E := diag_eigen) two_pixel_class
                [(0 + 1 + 3) / (1 + 1)]
                [[(0 + (1 * 1 + 0) + (3 * 3 + 0)
                   - ((0 + 1 + 3) * (0 + 1 + 3) + 0) / (1 + 1)) / (1 + 1 - 1)]]
                [[/ ((0 + (1 * 1 + 0) + (3 * 3 + 0)
                      - ((0 + 1 + 3) * (0 + 1 + 3) + 0) / (1 + 1))
                     / (1 + 1 - 1))]] 2
                ltac:(discriminate) eq_refl (le_n 2)
                (is_inverse_1x1 _ Hnz)) as Hc.
  assert (Hloop :
    createTrainingClasses_loop (E := diag_eigen) two_pixel_image [[1; 1]]%Z
      true None [1%Z] new_TrainingClassSet =
    Ok {| classes := [(1%Z, fst (calcStatistics (E := diag_eigen) two_pixel_class))];
          set_numBands :=
            Some (numBands (fst (calcStatistics (E := diag_eigen) two_pixel_class))) |}).
  { cbn [createTrainingClasses_loop Z.eqb excluded_by].
    change (new_TrainingClass two_pixel_image [[1; 1]]%Z 1 1) with two_pixel_class.
    destruct (calcStatistics (E := diag_eigen) two_pixel_class) as [c r] eqn:Hcs.
    simpl in Hc. subst r. cbn [bind fst].
    pose proof (calcStatistics_index (E := diag_eigen) two_pixel_class) as Hi.
    rewrite Hcs in Hi. simpl in Hi.
    unfold addClass. rewrite Hi. reflexivity. }
  eexists. split; [exact Hloop|].
  destruct (createTrainingClasses_classes (E := diag_eigen) two_pixel_image
              [[1; 1]]%Z true None [1%Z] _ Hloop) as [H1 H2].
  split; [exact H2 | exact H1].
Defined.

(** ** Bhattacharyya distance: symmetry and distance to oneself *)

Lemma map2_comm {A B : Type} (f : A -> A -> B) (l1 l2 : list A) :
  (forall x y, f x y = f y x) -> map2 f l1 l2 = map2 f l2 l1.
Proof.
  intros Hf. revert l2.
  induction l1 as [|x l1 IH]; intros [|y l2]; simpl; try reflexivity.
  now rewrite Hf, IH.
Qed.

Lemma vadd_comm (a b : vec) : vadd a b = vadd b a.
Proof. apply map2_comm. intros x y. apply Rplus_comm. Qed.

Lemma madd_comm (A B : mat) : madd A B = madd B A.
Proof. apply map2_comm. apply vadd_comm. Qed.

Lemma vsub_opp (a b : vec) : vsub a b = map Ropp (vsub b a).
Proof.
  revert b. induction a as [|x a IH]; intros [|y b]; simpl; try reflexivity.
  unfold vsub in *. simpl. rewrite IH. f_equal. ring.
Qed.

Lemma vdot_opp_l (a b : vec) : vdot (map Ropp a) b = - vdot a b.
Proof.
  revert b. induction a as [|x a IH]; intros [|y b]; simpl; try ring.
  rewrite IH. ring.
Qed.

Lemma vdot_opp_r (a b : vec) : vdot a (map Ropp b) = - vdot a b.
Proof.
  revert b. induction a as [|x a IH]; intros [|y b]; simpl; try ring.
  rewrite IH. ring.
Qed.

Lemma mvmul_opp (A : mat) (v : vec) :
  mvmul A (map Ropp v) = map Ropp (mvmul A v).
Proof.
  unfold mvmul. rewrite map_map. apply map_ext. intros r. apply vdot_opp_r.
Qed.

Lemma vdot_vsub_self (m w : vec) : vdot (vsub m m) w = 0.
Proof.
  revert w. induction m as [|x m IH]; intros [|y w]; try reflexivity.
  unfold vsub in *. simpl. rewrite IH. ring.
Qed.

Lemma vdiv_vadd_self (r : vec) : vdiv (vadd r r) 2 = r.
Proof.
  induction r as [|x r IH]; [reflexivity|].
  unfold vdiv, vadd in *. simpl. rewrite IH. f_equal. field.
Qed.

Lemma mdiv_madd_self (c : mat) : mdiv (madd c c) 2 = c.
Proof.
  induction c as [|r c IH]; [reflexivity|].
  unfold mdiv, madd in *. simpl. rewrite IH. f_equal. apply vdiv_vadd_self.
Qed.

(** X10: the Bhattacharyya distance does not depend on the order of the
    two classes: for classes that hold mean, covariance and
    log-determinant, of one band count, [bhattacharyyaDistance a b] and
    [bhattacharyyaDistance b a] are the same result: the same number, or
    the same [LinAlgError] when the average covariance is singular. *)
Theorem bhattacharyyaDistance_symmetric {E : Eigen}
    (a b : TrainingClass) (sa sb : GaussianStats)
    (ma mb : vec) (ca cb : mat) (la lb : R) (n : nat) :
  stats a = Some sa -> stats b = Some sb ->
  mean sa = Some ma -> mean sb = Some mb ->
  cov sa = Some ca -> cov sb = Some cb ->
  logDetCov sa = Some la -> logDetCov sb = Some lb ->
  length ma = n -> length mb = n -> Mat n n ca -> Mat n n cb ->
  bhattacharyyaDistance a b = bhattacharyyaDistance b a.
Proof.
  intros Hsa Hsb Hma Hmb Hca Hcb Hla Hlb _ _ _ _.
  unfold bhattacharyyaDistance, bDistanceTerms.
  rewrite Hsa, Hsb. simpl. rewrite Hma, Hmb. simpl.
  rewrite Hca, Hcb. simpl. rewrite (madd_comm cb ca).
  destruct (inv (mdiv (madd ca cb) 2)) as [ic|e]; simpl; [|reflexivity].
  rewrite Hla, Hlb. simpl. f_equal.
  rewrite (vsub_opp mb ma), mvmul_opp, vdot_opp_l, vdot_opp_r. ring.
Qed.

Lemma bhattacharyyaDistance_symmetric_witness :
  bhattacharyyaDistance (E := diag_eigen)
    (one_band_class 0 1 1 0) (one_band_class 2 1 1 0) =
  bhattacharyyaDistance (E := diag_eigen)
    (one_band_class 2 1 1 0) (one_band_class 0 1 1 0).
Proof.
  apply (bhattacharyyaDistance_symmetric (E := diag_eigen)
           (one_band_class 0 1 1 0) (one_band_class 2 1 1 0)
           (one_band_stats 0 1 1 0) (one_band_stats 2 1 1 0)
           [0] [2] [[1]] [[1]] 0 0 1); try reflexivity;
    (split; [reflexivity | repeat constructor]).
Defined.

(** X11: the distance of a class to itself.  For a class with an
    invertible covariance [c] and a stored log-determinant [l] it is
    [0.5 (logDeterminant c - l)]: zero exactly when the stored
    log-determinant is the one [logDeterminant] gives, and not zero
    otherwise.  With a singular covariance the call raises
    [LinAlgError]. *)
Theorem bhattacharyyaDistance_self {E : Eigen}
    (a : TrainingClass) (sa : GaussianStats) (m : vec) (c : mat) (l : R) :
  stats a = Some sa -> mean sa = Some m -> cov sa = Some c ->
  logDetCov sa = Some l ->
  (invertible c ->
   bhattacharyyaDistance a a = Ok (0.5 * (logDeterminant c - l)) /\
   (bhattacharyyaDistance a a = Ok 0 <-> l = logDeterminant c)) /\
  (~ invertible c -> bhattacharyyaDistance a a = Raise LinAlgError).
Proof.
  intros Hsa Hm Hc Hl.
  assert (Hd : bhattacharyyaDistance a a =
               (ic <- inv c ;;
                Ok ((1 / 8) * vdot (vsub m m) (mvmul ic (vsub m m)) +
                    0.5 * (logDeterminant c - 0.5 * l - 0.5 * l)))).
  { unfold bhattacharyyaDistance, bDistanceTerms.
    rewrite Hsa. simpl. rewrite Hm. simpl. rewrite Hc. simpl.
    rewrite mdiv_madd_self. destruct (inv c); simpl; [|reflexivity].
    rewrite Hl. reflexivity. }
  split.
  - intros [ic Hic]. rewrite Hd, (inv_of_inverse _ _ Hic). simpl.
    rewrite vdot_vsub_self.
    assert (Hv : 1 / 8 * 0 + 0.5 * (logDeterminant c - 0.5 * l - 0.5 * l) =
                 0.5 * (logDeterminant c - l)) by lra.
    rewrite Hv. split; [reflexivity|]. split.
    + intros H. injection H as H. lra.
    + intros ->. f_equal. lra.
  - intros Hs. rewrite Hd, (inv_singular _ Hs). reflexivity.
Qed.

Lemma bhattacharyyaDistance_self_witness :
  bhattacharyyaDistance (E := diag_eigen)
    (one_band_class 0 1 1 5) (one_band_class 0 1 1 5) =
  Ok (0.5 * (logDeterminant (E := diag_eigen) [[1]] - 5)).
Proof.
  refine (proj1 (proj1 (bhattacharyyaDistance_self (E := diag_eigen)
           (one_band_class 0 1 1 5) (one_band_stats 0 1 1 5) [0] [[1]] 5
           eq_refl eq_refl eq_refl eq_refl) _)).
  exists [[/ 1]]. apply is_inverse_1x1. lra.
Defined.

(** X12: a class whose statistics [calcStatistics] has just calculated
    is at distance 0 from itself. *)
Theorem calcStatistics_then_self_distance {E : Eigen} (cl cl' : TrainingClass) :
  calcStatistics cl = (cl', Ok tt) ->
  bhattacharyyaDistance cl' cl' = Ok 0.
Proof.
  intros H.
  destruct (calcStatistics_Ok_inv cl cl' H)
    as (_ & _ & _ & _ & _ & _ & m & c & ic & Hst & Hic & _).
  unfold bhattacharyyaDistance, bDistanceTerms. rewrite Hst. simpl.
  rewrite mdiv_madd_self, (inv_of_inverse _ _ Hic). simpl.
  rewrite vdot_vsub_self. f_equal. lra.
Qed.

Lemma calcStatistics_then_self_distance_witness :
  bhattacharyyaDistance (E := diag_eigen)
    (fst (calcStatistics (E := diag_eigen) two_pixel_class))
    (fst (calcStatistics (E := diag_eigen) two_pixel_class)) = Ok 0.
Proof.
  assert (Hnz : (0 + (1 * 1 + 0) + (3 * 3 + 0)
                 - ((0 + 1 + 3) * (0 + 1 + 3) + 0) / (1 + 1)) / (1 + 1 - 1) <> 0)
    by lra.
  pose proof (calcStatistics_invertible (E := diag_eigen) two_pixel_class
                [(0 + 1 + 3) / (1 + 1)]
                [[(0 + (1 * 1 + 0) + (3 * 3 + 0)
                   - ((0 + 1 + 3) * (0 + 1 + 3) + 0) / (1 + 1)) / (1 + 1 - 1)]]
                [[/ ((0 + (1 * 1 + 0) + (3 * 3 + 0)
                      - ((0 + 1 + 3) * (0 + 1 + 3) + 0) / (1 + 1))
                     / (1 + 1 - 1))]] 2
                ltac:(discriminate) eq_refl (le_n 2)
                (is_inverse_1x1 _ Hnz)) as Hc.
  apply (calcStatistics_then_self_distance (E := diag_eigen) two_pixel_class).
  destruct (calcStatistics (E := diag_eigen) two_pixel_class) as [c r].
  simpl in *. now subst r.
Defined.

(** ** unmix *)

Lemma unmix_pseudo_inverse (c b : nat) (M gi : mat) (a : vec) :
  Mat c b M -> (0 < c)%nat -> (0 < b)%nat ->
  is_inverse (mmul M (transpose M)) gi -> length a = c ->
  mvmul (mmul gi M) (mvmul (transpose M) a) = a.
Proof.
  intros HM Hc Hb (_ & Hgi & _ & Hinv) Ha.
  rewrite nrows_mmul in Hgi, Hinv.
  assert (Hn : nrows M = c) by now destruct HM.
  rewrite Hn in Hgi, Hinv.
  pose proof (Mat_transpose c b M HM Hc) as HMt.
  rewrite (mvmul_mmul c c b gi M) by
    (try assumption; rewrite length_mvmul; now destruct HMt).
  rewrite <- (mvmul_mmul c b c M (transpose M) a HM HMt Hb Ha).
  assert (HG : Mat c c (mmul M (transpose M))).
  { apply (Mat_mmul c b c _ _ HM). apply (Mat_ncols b c); assumption. }
  rewrite <- (mvmul_mmul c c c gi (mmul M (transpose M)) a Hgi HG Hc Ha).
  rewrite Hinv. now apply mvmul_eye.
Qed.

(** X13: unmixing undoes mixing.  For [C >= 1] endmembers of [B >= 1]
    bands whose Gram matrix [members members^T] is invertible, and an
    image of abundances ([C] values a pixel), [unmix] applied to the
    image of the mixtures [members^T a] and to the endmembers returns
    the image of abundances itself, as an array of floats. *)
Theorem unmix_recovers_abundances (members : mat) (c b : nat) (ab : ndimage) :
  Mat c b members -> (0 < c)%nat -> (0 < b)%nat ->
  invertible (mmul members (transpose members)) ->
  image_shaped ab -> shape2 ab = c ->
  exists mixed,
    transformImage (transpose members) ab = Ok mixed /\
    unmix mixed members =
      Return {| shape0 := shape0 ab; shape1 := shape1 ab; shape2 := shape2 ab;
                dtype := Floating; pixels := pixels ab |}.
Proof.
  intros HM Hc Hb [gi Hgi] Hab Hs.
  assert (Hn : nrows members = c) by now destruct HM.
  assert (Hct : ncols (transpose members) = c).
  { apply (Mat_ncols b c); [now apply Mat_transpose | exact Hb]. }
  eexists. split.
  { apply (transformImage_aligned (transpose members) ab Hab). congruence. }
  destruct Hab as (_ & _ & Hpx).
  unfold unmix. cbn [shape2 shape0 shape1 pixels].
  rewrite nrows_transpose, Nat.eqb_refl. cbn [negb].
  unfold dot at 1. rewrite nrows_transpose, Nat.eqb_refl. cbn [bind].
  rewrite (inv_of_inverse _ _ Hgi). cbn [bind].
  pose proof Hgi as (_ & Hgm & _). rewrite nrows_mmul, Hn in Hgm.
  unfold dot. rewrite (Mat_ncols c c gi Hgm Hc), Hn, Nat.eqb_refl.
  destruct ab as [s0 s1 s2 ty px]. simpl in *. apply f_equal.
  subst s2. apply f_equal.
  rewrite map_map. rewrite <- (map_id px) at 2.
  apply map_ext_in. intros row Hrow.
  rewrite map_map. rewrite <- (map_id row) at 2.
  apply map_ext_in. intros a Ha.
  apply (unmix_pseudo_inverse c b); try assumption.
  rewrite Forall_forall in Hpx. specialize (Hpx row Hrow).
  rewrite Forall_forall in Hpx. now apply Hpx.
Qed.

Lemma unmix_recovers_abundances_witness :
  exists mixed,
    transformImage (transpose axes) two_band_image = Ok mixed /\
    unmix mixed axes = Return two_band_image.
Proof.
  apply (unmix_recovers_abundances axes 2 2 two_band_image).
  - split; [reflexivity | repeat constructor].
  - lia.
  - lia.
  - exists (eye 2).
    assert (HG : mmul axes (transpose axes) = eye 2).
    { unfold mmul, eye, delta, axes. simpl. repeat f_equal; ring. }
    rewrite HG. apply is_inverse_eye.
  - split; [reflexivity|]. split; repeat constructor.
  - reflexivity.
Defined.

(** X14: how [unmix] fails.  When the endmembers do not have the band
    count of the image the assertion fails, before anything is
    calculated; when they have it and their Gram matrix is singular (as
    it is for linearly dependent endmembers), the inversion raises
    [LinAlgError]. *)
Theorem unmix_errors (data : ndimage) (members : mat) :
  (ncols members <> shape2 data ->
   unmix data members =
   Throw (AssertionError "Matrix dimensions are not aligned.")) /\
  (ncols members = shape2 data ->
   ~ invertible (mmul members (transpose members)) ->
   unmix data members = Throw (Builtin LinAlgError)).
Proof.
  unfold unmix. split.
  - intros H. apply Nat.eqb_neq in H. now rewrite H.
  - intros H Hs. apply Nat.eqb_eq in H. rewrite H. cbn [negb].
    unfold dot at 1. rewrite nrows_transpose, Nat.eqb_refl. cbn [bind].
    now rewrite (inv_singular _ Hs).
Qed.

Lemma unmix_errors_witness :
  unmix two_band_image [[1; 2]; [2; 4]] = Throw (Builtin LinAlgError) /\
  unmix two_band_image [[1; 2; 3]] =
  Throw (AssertionError "Matrix dimensions are not aligned.").
Proof.
  split.
  - apply (proj2 (unmix_errors two_band_image [[1; 2]; [2; 4]])).
    + reflexivity.
    + intros (B & _ & HB & H & _).
      destruct HB as [HB1 HB2].
      destruct B as [|[|p [|q [|? ?]]] [|[|r [|s [|? ?]]] [|? ?]]];
        simpl in HB1; try discriminate;
        inversion HB2 as [|? ? E1 HB3]; subst; simpl in E1; try discriminate;
        inversion HB3 as [|? ? E2 _]; subst; simpl in E2; try discriminate.
      unfold mmul, eye, delta in H. simpl in H.
      injection H as H1 H2 H3 H4. lra.
  - apply (proj1 (unmix_errors two_band_image [[1; 2; 3]])). discriminate.
Defined.

(** ** spectralAngles *)

Lemma vdot_vsub_square (u v : vec) :
  length u = length v ->
  vdot (vsub u v) (vsub u v) = vdot u u - 2 * vdot u v + vdot v v.
Proof.
  revert v. induction u as [|x u IH]; intros [|y v] H; simpl in *;
    try discriminate; [ring|].
  injection H as H. unfold vsub in *. simpl. rewrite (IH v H). ring.
Qed.

Lemma vdot_vadd_square (u v : vec) :
  length u = length v ->
  vdot (vadd u v) (vadd u v) = vdot u u + 2 * vdot u v + vdot v v.
Proof.
  revert v. induction u as [|x u IH]; intros [|y v] H; simpl in *;
    try discriminate; [ring|].
  injection H as H. unfold vadd in *. simpl. rewrite (IH v H). ring.
Qed.

(** Two unit vectors have a scalar product between -1 and 1. *)
Lemma unit_vectors_cosine (u v : vec) :
  length u = length v -> vdot u u = 1 -> vdot v v = 1 ->
  -1 <= vdot u v <= 1.
Proof.
  intros H Hu Hv.
  pose proof (vdot_self_nonneg (vsub u v)) as H1.
  pose proof (vdot_self_nonneg (vadd u v)) as H2.
  rewrite (vdot_vsub_square u v H) in H1.
  rewrite (vdot_vadd_square u v H) in H2. lra.
Qed.

Lemma vdot_normalize (v m : vec) :
  vdot (normalize v) (normalize m) = cosine v m.
Proof.
  unfold normalize, cosine. rewrite vdot_vdiv_l, vdot_vdiv_r.
  unfold Rdiv. rewrite Rinv_mult. ring.
Qed.

Lemma cosine_bounds (v m : vec) :
  length v = length m -> nonzero v -> nonzero m -> -1 <= cosine v m <= 1.
Proof.
  intros H Hv Hm. rewrite <- vdot_normalize.
  apply unit_vectors_cosine.
  - now rewrite !length_normalize.
  - now apply normalize_unit.
  - now apply normalize_unit.
Qed.

Lemma vdot_vscale_l (a b : vec) (c : R) :
  vdot (vscale c a) b = c * vdot a b.
Proof. now rewrite vdot_comm, vdot_vscale_r, vdot_comm. Qed.

Lemma normalize_vscale (s : R) (v : vec) :
  0 < s -> nonzero v -> normalize (vscale s v) = normalize v.
Proof.
  intros Hs Hv. pose proof (norm_positive v Hv) as Hn.
  unfold normalize. rewrite vdot_vscale_l, vdot_vscale_r.
  replace (s * (s * vdot v v)) with ((s * s) * vdot v v) by ring.
  rewrite sqrt_mult by (try apply vdot_self_nonneg; nra).
  rewrite sqrt_square by lra.
  unfold vdiv, vscale. rewrite map_map. apply map_ext.
  intros x. field. split; lra.
Qed.

Lemma cosine_of_multiple (t : R) (m : vec) :
  0 < t -> nonzero m -> cosine (vscale t m) m = 1.
Proof.
  intros Ht Hm. rewrite <- vdot_normalize, (normalize_vscale t m Ht Hm).
  now apply normalize_unit.
Qed.

Lemma ncols_map_length (f : vec -> vec) (A : mat) :
  (forall r, length (f r) = length r) -> ncols (map f A) = ncols A.
Proof.
  intros Hf. unfold ncols. destruct A as [|r A]; [reflexivity|]. apply Hf.
Qed.

(** X15: for endmembers of the band count of the image, none of them
    zero, and an image without a zero pixel, [spectralAngles] returns
    an image of the same height and width with one angle a pixel and
    endmember: the arc cosine of [v . m / (|v| |m|)].  That cosine lies
    between -1 and 1, so the angle is the one between the two vectors,
    within [0, pi]; it is 0 for a pixel that is a positive multiple of
    the endmember. *)
Theorem spectralAngles_angles (data : ndimage) (members : mat) (c b : nat) :
  Mat c b members -> (0 < c)%nat ->
  image_shaped data -> shape2 data = b ->
  Forall nonzero members -> Forall (Forall nonzero) (pixels data) ->
  exists out,
    spectralAngles data members = Return out /\
    shape0 out = shape0 data /\ shape1 out = shape1 data /\ shape2 out = c /\
    image_shaped out /\
    pixels out =
      map (map (fun v => map (fun m => acos (cosine v m)) members))
          (pixels data) /\
    forall row v m, In row (pixels data) -> In v row -> In m members ->
      -1 <= cosine v m <= 1 /\
      cos (acos (cosine v m)) = cosine v m /\
      0 <= acos (cosine v m) <= PI /\
      (forall t, 0 < t -> v = vscale t m -> acos (cosine v m) = 0).
Proof.
  intros HM Hc (Hn & Hrows & Hpx) Hb Hmz Hvz.
  assert (Hcols : ncols members = b) by now apply (Mat_ncols c b).
  assert (Hpix : map (map (fun px => map (fun mk => acos (vdot (normalize px) mk))
                                         (map normalize members)))
                     (pixels data) =
                 map (map (fun v => map (fun m => acos (cosine v m)) members))
                     (pixels data)).
  { apply map_ext. intros row. apply map_ext. intros v.
    rewrite map_map. apply map_ext. intros m. now rewrite vdot_normalize. }
  unfold spectralAngles. rewrite Hcols, Hb, Nat.eqb_refl. cbn [negb].
  eexists. split; [reflexivity|]. cbn [shape0 shape1 shape2 pixels].
  split; [reflexivity|]. split; [reflexivity|].
  split; [now destruct HM|]. split; [|split; [exact Hpix|]].
  - unfold image_shaped. cbn [shape0 shape1 shape2 pixels].
    split; [now rewrite length_map|]. split.
    + apply Forall_map. eapply Forall_impl; [|exact Hrows].
      intros row Hrow. cbv beta in *. now rewrite length_map.
    + apply Forall_map. apply Forall_forall. intros row _.
      apply Forall_map. apply Forall_forall. intros px _.
      rewrite !length_map. reflexivity.
  - intros row v m Hrow Hv Hm.
    assert (Hlen : length v = length m).
    { rewrite Forall_forall in Hpx. specialize (Hpx row Hrow).
      rewrite Forall_forall in Hpx. rewrite (Hpx v Hv), Hb.
      destruct HM as [_ HM]. rewrite Forall_forall in HM.
      symmetry. now apply HM. }
    assert (Hvn : nonzero v).
    { rewrite Forall_forall in Hvz. specialize (Hvz row Hrow).
      rewrite Forall_forall in Hvz. now apply Hvz. }
    assert (Hmn : nonzero m).
    { rewrite Forall_forall in Hmz. now apply Hmz. }
    pose proof (cosine_bounds v m Hlen Hvn Hmn) as Hbound.
    split; [exact Hbound|]. split; [now apply cos_acos|].
    split; [apply acos_bound|].
    intros t Ht ->. rewrite (cosine_of_multiple t m Ht Hmn). apply acos_1.
Qed.

Lemma spectralAngles_angles_witness :
  exists out,
    spectralAngles two_band_image axes = Return out /\
    pixels out =
      map (map (fun v => map (fun m => acos (cosine v m)) axes))
          (pixels two_band_image).
Proof.
  destruct (spectralAngles_angles two_band_image axes 2 2)
    as (out & H1 & _ & _ & _ & _ & H2 & _).
  - split; [reflexivity | repeat constructor].
  - lia.
  - split; [reflexivity|]. split; repeat constructor.
  - reflexivity.
  - repeat constructor; unfold nonzero; simpl; lra.
  - repeat constructor; unfold nonzero; simpl; lra.
  - exists out. split; assumption.
Defined.

(** X16: the angles do not depend on the brightness of the image or on
    the length of the endmembers: multiplying every pixel by [s > 0] and
    every endmember by [t > 0] leaves the result of [spectralAngles] as
    it was. *)
Theorem spectralAngles_scale_invariant
    (data : ndimage) (members : mat) (s t : R) :
  0 < s -> 0 < t ->
  Forall nonzero members -> Forall (Forall nonzero) (pixels data) ->
  spectralAngles (scale_pixels s data) (mscale t members) =
  spectralAngles data members.
Proof.
  intros Hs Ht Hmz Hvz. unfold spectralAngles.
  cbn [shape0 shape1 shape2 pixels scale_pixels].
  unfold mscale at 1. rewrite (ncols_map_length (vscale t) members)
    by (intros r; apply length_vscale).
  destruct (negb (ncols members =? shape2 data)%nat); [reflexivity|].
  assert (Hm : map normalize (mscale t members) = map normalize members).
  { unfold mscale. rewrite map_map. apply map_ext_in. intros m Hin.
    apply normalize_vscale; [exact Ht|].
    rewrite Forall_forall in Hmz. now apply Hmz. }
  rewrite Hm. unfold nrows, mscale. rewrite length_map.
  apply f_equal. apply f_equal.
  rewrite map_map. apply map_ext_in. intros row Hrow.
  rewrite map_map. apply map_ext_in. intros v Hv.
  rewrite normalize_vscale; [reflexivity | exact Hs |].
  rewrite Forall_forall in Hvz. specialize (Hvz row Hrow).
  rewrite Forall_forall in Hvz. now apply Hvz.
Qed.

Lemma spectralAngles_scale_invariant_witness :
  spectralAngles (scale_pixels 2 two_band_image) (mscale 3 axes) =
  spectralAngles two_band_image axes.
Proof.
  apply (spectralAngles_scale_invariant two_band_image axes 2 3); try lra;
    repeat constructor; unfold nonzero; simpl; lra.
Defined.

(** ** ndvi *)

Lemma band_index_in_range (B : nat) (k : Z) :
  (- Z.of_nat B <= k < Z.of_nat B)%Z ->
  band_index B k = Ok (Z.to_nat (k mod Z.of_nat B)).
Proof.
  intros H. unfold band_index.
  destruct (Z.leb_spec 0 k) as [H0|H0]; destruct (Z.ltb_spec k (Z.of_nat B)) as [H1|H1];
    simpl; try lia.
  - now rewrite Z.mod_small by lia.
  - destruct (Z.leb_spec (- Z.of_nat B) k) as [H2|H2]; [|lia].
    destruct (Z.ltb_spec k 0) as [H3|H3]; [|lia]. simpl.
    f_equal. f_equal.
    apply (Z.mod_unique_pos k (Z.of_nat B) (-1)); lia.
Qed.

Lemma band_index_out_of_range (B : nat) (k : Z) :
  (k < - Z.of_nat B \/ Z.of_nat B <= k)%Z ->
  band_index B k = Raise IndexError.
Proof.
  intros H. unfold band_index.
  destruct (Z.leb_spec 0 k); destruct (Z.ltb_spec k (Z.of_nat B));
    destruct (Z.leb_spec (- Z.of_nat B) k); destruct (Z.ltb_spec k 0);
    simpl; try reflexivity; lia.
Qed.

Lemma map2_map_same {A B C D : Type} (f : B -> C -> D) (g : A -> B) (h : A -> C)
    (l : list A) :
  map2 f (map g l) (map h l) = map (fun x => f (g x) (h x)) l.
Proof. induction l as [|x l IH]; simpl; [reflexivity | now rewrite IH]. Qed.

Lemma Forall2_map_self {A B : Type} (P : A -> B -> Prop) (f : A -> B) (l : list A) :
  (forall x, In x l -> P x (f x)) -> Forall2 P l (map f l).
Proof.
  induction l as [|x l IH]; intros H; simpl; constructor.
  - apply H. now left.
  - apply IH. intros y Hy. apply H. now right.
Qed.

Lemma ndvi_in_range (data : ndimage) (red nir : Z) :
  (- Z.of_nat (shape2 data) <= red < Z.of_nat (shape2 data))%Z ->
  (- Z.of_nat (shape2 data) <= nir < Z.of_nat (shape2 data))%Z ->
  ndvi data red nir =
  Ok (map (map (fun px =>
                  let r := nth (Z.to_nat (red mod Z.of_nat (shape2 data))) px 0 in
                  let n := nth (Z.to_nat (nir mod Z.of_nat (shape2 data))) px 0 in
                  (n - r) / (n + r)))
          (pixels data)).
Proof.
  intros Hr Hn. unfold ndvi, band.
  rewrite (band_index_in_range _ _ Hr), (band_index_in_range _ _ Hn).
  cbn [bind]. f_equal. unfold msub, madd.
  rewrite !map2_map_same. apply map_ext. intros row.
  unfold vsub, vadd. now rewrite !map2_map_same.
Qed.

(** X17: [ndvi] for integer band indices.  An index below [-B] or from
    [B] on, [B] being the band count, raises [IndexError]; an index
    from [-B] to [-1] counts from the last band.  With both indices in
    range the result has one value a pixel: [(n - r) / (n + r)] where
    the sum is not zero, and that value lies between -1 and 1 when the
    two bands are not negative and not both zero. *)
Theorem ndvi_values (data : ndimage) (red nir : Z) :
  let B := Z.of_nat (shape2 data) in
  let band_of k px := nth (Z.to_nat (k mod B)) px 0 in
  ((red < - B \/ B <= red)%Z -> ndvi data red nir = Raise IndexError) /\
  ((- B <= red < B)%Z -> (nir < - B \/ B <= nir)%Z ->
   ndvi data red nir = Raise IndexError) /\
  ((- B <= red < B)%Z -> (- B <= nir < B)%Z ->
   exists out,
     ndvi data red nir = Ok out /\
     Forall2 (Forall2 (fun px x =>
                (band_of nir px + band_of red px <> 0 ->
                 x = (band_of nir px - band_of red px)
                     / (band_of nir px + band_of red px)) /\
                (0 <= band_of red px -> 0 <= band_of nir px ->
                 0 < band_of nir px + band_of red px -> -1 <= x <= 1)))
             (pixels data) out).
Proof.
  intros B band_of. split; [|split].
  - intros H. unfold ndvi, band.
    now rewrite (band_index_out_of_range _ _ H).
  - intros Hr H. unfold ndvi, band.
    rewrite (band_index_in_range _ _ Hr). cbn [bind].
    now rewrite (band_index_out_of_range _ _ H).
  - intros Hr Hn. eexists. split; [apply (ndvi_in_range data red nir Hr Hn)|].
    apply Forall2_map_self. intros row _.
    apply Forall2_map_self. intros px _. cbv zeta. fold B.
    fold (band_of red px). fold (band_of nir px).
    set (r := band_of red px). set (n := band_of nir px).
    split; [reflexivity|]. intros H0 H1 H2.
    assert (Hd : 0 < / (n + r)) by now apply Rinv_0_lt_compat.
    assert (Hone : (n + r) * / (n + r) = 1) by (apply Rinv_r; lra).
    unfold Rdiv. split; nra.
Qed.

Lemma ndvi_values_witness :
  exists out,
    ndvi two_band_image 0 (-1) = Ok out /\
    Forall2 (Forall2 (fun px x =>
               0 <= nth 0 px 0 -> 0 <= nth 1 px 0 ->
               0 < nth 1 px 0 + nth 0 px 0 -> -1 <= x <= 1))
            (pixels two_band_image) out.
Proof.
  destruct (proj2 (proj2 (ndvi_values two_band_image 0 (-1))))
    as (out & H1 & H2); [simpl; lia | simpl; lia |].
  exists out. split; [exact H1|].
  eapply Forall2_impl; [|exact H2]. intros row orow Hrow.
  eapply Forall2_impl; [|exact Hrow]. intros px x [_ H]. exact H.
Defined.

(** ** principalComponents *)

Lemma map2_diag {A B : Type} (f : A -> A -> B) (l : list A) :
  map2 f l l = map (fun x => f x x) l.
Proof. induction l as [|x l IH]; simpl; [reflexivity | now rewrite IH]. Qed.

Lemma Rsum_squares_vdot {A : Type} (a : A -> R) (l : list A) :
  Rsum (map (fun r => a r * a r) l) = vdot (map a l) (map a l).
Proof. induction l as [|x l IH]; simpl; [reflexivity | now rewrite IH]. Qed.

Lemma sum_axis0_squares (n m : nat) (V : mat) :
  Mat n m V -> (0 < n)%nat ->
  sum_axis0 (multiply V V) =
  map (fun j => vdot (col j V) (col j V)) (seq 0 m).
Proof.
  intros HV Hn. unfold sum_axis0, multiply. rewrite map2_diag.
  assert (Hc : ncols (map (fun r : list R => map2 Rmult r r) V) = m).
  { rewrite ncols_map_length by (intros r; now apply length_map2).
    now apply (Mat_ncols n m). }
  rewrite Hc. apply map_ext. intros j.
  unfold col. rewrite map_map.
  rewrite <- (Rsum_squares_vdot (fun r => nth j r 0) V). f_equal.
  apply map_ext. intros r. rewrite map2_diag.
  apply (nth_map_R (fun x => x * x)). ring.
Qed.

Lemma col_divide_rows (n m : nat) (V : mat) (s : vec) (j : nat) :
  Mat n m V -> length s = m ->
  col j (divide_rows V s) = vdiv (col j V) (nth j s 0).
Proof.
  intros [_ HV] Hs. unfold col, divide_rows, vdiv. rewrite !map_map.
  apply map_ext_in. intros r Hr.
  rewrite Forall_forall in HV.
  apply (nth_map2 Rdiv r s 0 0 0 j).
  - rewrite Hs. now apply HV.
  - unfold Rdiv. ring.
Qed.

Lemma Mat_divide_rows (n m : nat) (V : mat) (s : vec) :
  Mat n m V -> length s = m -> Mat n m (divide_rows V s).
Proof.
  intros HV Hs. unfold divide_rows. apply Mat_map; [|exact HV].
  intros a Ha. rewrite length_map2; congruence.
Qed.

Lemma vscale_vdiv (c s : R) (x : vec) :
  vdiv (vscale c x) s = vscale c (vdiv x s).
Proof.
  unfold vdiv, vscale. rewrite !map_map. apply map_ext.
  intros a. unfold Rdiv. ring.
Qed.

Lemma mean_cov_of_image (im : ndimage) :
  image_shaped im ->
  mean_cov (FromImage im None None) = Ok (mean_cov_values (ImageIterator im)).
Proof.
  intros (Hn & Hrows & _). unfold mean_cov. simpl.
  apply mean_cov_of_consistent. simpl. symmetry.
  now apply length_concat_shaped.
Qed.

(** X18: [principalComponents] on an image of [B >= 1] bands and at
    least two pixels returns
    the mean and covariance that [mean_cov] gives for all its pixels,
    the eigenvalues as the solver gives them for that covariance, in its
    order, and a [B x B] matrix whose row [j] is column [j] of the
    solver's matrix divided by its norm: a vector of unit norm, and an
    eigenvector for the same eigenvalue when the column was one.  On an
    image of fewer than two pixels the covariance is not a number and
    the call raises [LinAlgError]. *)
Theorem principalComponents_unit_eigenvectors {E : Eigen}
    (im : ndimage) (B : nat) (mean : vec) (cov : mat) (n : nat)
    (L : vec) (V : mat) :
  (0 < B)%nat -> image_shaped im -> shape2 im = B ->
  mean_cov_values (ImageIterator im) = (mean, cov, n) ->
  eig cov = (L, V) -> Mat B B V ->
  (forall j, (j < B)%nat -> nonzero (col j V)) ->
  mean_cov (FromImage im None None) = Ok (mean, cov, n) /\
  n = (shape0 im * shape1 im)%nat /\
  ((n < 2)%nat -> principalComponents im = Raise LinAlgError) /\
  ((2 <= n)%nat ->
   exists V',
    principalComponents im = Ok (L, V', mean, cov) /\
    Mat B B V' /\
    forall j, (j < B)%nat ->
      nth j V' [] = normalize (col j V) /\
      vdot (nth j V' []) (nth j V' []) = 1 /\
      forall lam, mvmul cov (col j V) = vscale lam (col j V) ->
                  mvmul cov (nth j V' []) = vscale lam (nth j V' [])).
Proof.
  intros HB Him Hs Hmc Heig HV Hnz.
  pose proof (mean_cov_of_image im Him) as Hmean. rewrite Hmc in Hmean.
  split; [exact Hmean|]. split.
  { pose proof (mean_cov_values_count (ImageIterator im)) as Hc.
    rewrite Hmc in Hc. simpl in Hc. rewrite Hc.
    destruct Him as (H0 & H1 & _). now apply length_concat_shaped. }
  unfold principalComponents. rewrite Hmean. cbn [bind]. split.
  { intros Hn. rewrite (proj2 (Nat.ltb_lt n 2) Hn), Hs.
    destruct B; [lia | reflexivity]. }
  intros Hn. rewrite (proj2 (Nat.ltb_ge n 2) Hn). cbn [andb]. rewrite Heig.
  eexists. split; [reflexivity|].
  rewrite (sum_axis0_squares B B V HV HB).
  set (norms := map sqrt (map (fun j => vdot (col j V) (col j V)) (seq 0 B))).
  assert (Hlen : length norms = B).
  { unfold norms. now rewrite !length_map, length_seq. }
  pose proof (Mat_divide_rows B B V norms HV Hlen) as HV2.
  split; [now apply Mat_transpose|].
  intros j Hj.
  assert (Hrow : nth j (transpose (divide_rows V norms)) [] =
                 normalize (col j V)).
  { rewrite nth_transpose by (rewrite (Mat_ncols B B _ HV2 HB); exact Hj).
    rewrite (col_divide_rows B B V norms j HV Hlen).
    unfold normalize. f_equal. unfold norms. rewrite map_map.
    exact (nth_map_seq (fun j => sqrt (vdot (col j V) (col j V))) B j 0 Hj). }
  rewrite Hrow. split; [reflexivity|]. split.
  - apply normalize_unit. now apply Hnz.
  - intros lam Hlam. unfold normalize.
    now rewrite mvmul_vdiv, Hlam, vscale_vdiv.
Qed.

Lemma principalComponents_unit_eigenvectors_witness :
  exists V',
    principalComponents (E := diag_eigen) two_pixel_image =
      Ok (diagonal (snd (fst (mean_cov_values (ImageIterator two_pixel_image)))),
          V',
          fst (fst (mean_cov_values (ImageIterator two_pixel_image))),
          snd (fst (mean_cov_values (ImageIterator two_pixel_image)))) /\
    vdot (nth 0 V' []) (nth 0 V' []) = 1.
Proof.
  destruct (principalComponents_unit_eigenvectors (E := diag_eigen)
              two_pixel_image 1
              (fst (fst (mean_cov_values (ImageIterator two_pixel_image))))
              (snd (fst (mean_cov_values (ImageIterator two_pixel_image))))
              2
              (diagonal (snd (fst (mean_cov_values (ImageIterator two_pixel_image)))))
              (eye 1))
    as (_ & _ & _ & Hok).
  - lia.
  - split; [reflexivity|]. split; repeat constructor.
  - reflexivity.
  - reflexivity.
  - reflexivity.
  - apply Mat_eye.
  - intros j Hj. assert (j = 0)%nat as -> by lia.
    unfold nonzero, eye, delta. simpl. lra.
  - destruct (Hok (le_n 2)) as (V' & H1 & _ & H2).
    exists V'. split; [exact H1|]. apply (H2 0%nat). lia.
Defined.

(** ** covariance: shifting the samples *)

Lemma lsum_map {A B : Type} (f : B -> R) (g : A -> B) (xs : list A) :
  lsum f (map g xs) = lsum (fun x => f (g x)) xs.
Proof. unfold lsum. now rewrite map_map. Qed.

Lemma lsum_shift {A : Type} (f : A -> R) (a : R) (xs : list A) :
  lsum (fun x => f x + a) xs = lsum f xs + INR (length xs) * a.
Proof.
  induction xs as [|x xs IH]; [unfold lsum; simpl; lra|].
  rewrite !lsum_cons, IH. cbn [length]. rewrite S_INR. lra.
Qed.

Lemma lsum_shift_product {A : Type} (f g : A -> R) (a b : R) (xs : list A) :
  lsum (fun x => (f x + a) * (g x + b)) xs =
  lsum (fun x => f x * g x) xs + b * lsum f xs + a * lsum g xs
  + INR (length xs) * (a * b).
Proof.
  induction xs as [|x xs IH]; [unfold lsum; simpl; lra|].
  rewrite !lsum_cons, IH. cbn [length]. rewrite S_INR. lra.
Qed.

(** X19: shifting every sample by the same vector [t] shifts the mean
    by [t] and leaves the covariance as it is: on [N >= 2] samples of
    floats of dimension [B], [mean_cov] of the shifted samples is the
    mean plus [t], the same covariance and the same count, so
    [covariance] returns the same matrix for both. *)
Theorem covariance_translation_invariant (it : Iterator) (t : vec) (B : nat) :
  sample_type it = Floating ->
  getNumBands it = B ->
  getNumElements it = length (iter it) ->
  Forall (fun x => length x = B) (iter it) ->
  (2 <= length (iter it))%nat ->
  length t = B ->
  exists mean cov,
    mean_cov (FromIterator it) = Ok (mean, cov, length (iter it)) /\
    mean_cov (FromIterator (translate t it)) =
      Ok (vadd mean t, cov, length (iter it)) /\
    covariance (FromIterator it) = Ok cov /\
    covariance (FromIterator (translate t it)) = Ok cov.
Proof.
  intros Hty HB Hcons Hxs HN Ht.
  assert (Hxs' : Forall (fun x => length x = B) (iter (translate t it))).
  { simpl. apply Forall_map. eapply Forall_impl; [|exact Hxs].
    intros x Hx. cbv beta in *. rewrite length_vadd; congruence. }
  assert (Hcons' : getNumElements (translate t it) =
                   length (iter (translate t it))).
  { simpl. now rewrite length_map. }
  pose proof (mean_cov_values_entries it B Hty HB Hxs) as H.
  pose proof (mean_cov_values_entries (translate t it) B Hty HB Hxs') as H'.
  assert (Hmc : forall s, mean_cov (FromIterator s) = mean_cov_of s)
    by reflexivity.
  unfold covariance. rewrite !Hmc.
  rewrite (mean_cov_of_consistent it Hcons).
  rewrite (mean_cov_of_consistent (translate t it) Hcons').
  destruct (mean_cov_values it) as [[mean cov] n].
  destruct (mean_cov_values (translate t it)) as [[mean' cov'] n'].
  cbv zeta in H, H'.
  destruct H as (Hn & Hlen & Hmat & Hmean & Hcov).
  destruct H' as (Hn' & Hlen' & Hmat' & Hmean' & Hcov').
  simpl iter in Hn', Hmean', Hcov'. rewrite length_map in Hn', Hmean', Hcov'.
  subst n n'.
  set (N := INR (length (iter it))) in *.
  assert (HNR : 2 <= N) by (apply (le_INR 2); exact HN).
  assert (Hnth : forall i x, In x (iter it) ->
            nth i (vadd x t) 0 = nth i x 0 + nth i t 0).
  { intros i x Hx. apply nth_vadd. rewrite Forall_forall in Hxs.
    rewrite (Hxs x Hx). now symmetry. }
  assert (Em : mean' = vadd mean t).
  { apply (col_ext B); [exact Hlen' | rewrite length_vadd; congruence |].
    intros i Hi. rewrite nth_vadd by congruence.
    rewrite Hmean', Hmean, lsum_map.
    rewrite (lsum_ext _ (fun x => nth i x 0 + nth i t 0))
      by (intros x Hx; now apply Hnth).
    rewrite lsum_shift. fold N. field. lra. }
  assert (Ec : cov' = cov).
  { apply (mat_ext B B); [exact Hmat' | exact Hmat |].
    intros i j Hi Hj. rewrite (Hcov' i j Hi Hj), (Hcov i j Hi Hj).
    rewrite !lsum_map.
    rewrite (lsum_ext (fun x => nth i (vadd x t) 0 * nth j (vadd x t) 0)
                      (fun x => (nth i x 0 + nth i t 0) * (nth j x 0 + nth j t 0)))
      by (intros x Hx; now rewrite !(Hnth _ x Hx)).
    rewrite (lsum_ext (fun x => nth i (vadd x t) 0)
                      (fun x => nth i x 0 + nth i t 0))
      by (intros x Hx; now apply Hnth).
    rewrite (lsum_ext (fun x => nth j (vadd x t) 0)
                      (fun x => nth j x 0 + nth j t 0))
      by (intros x Hx; now apply Hnth).
    rewrite lsum_shift_product, !lsum_shift. fold N. field. lra. }
  subst mean' cov'. exists mean, cov. repeat split.
Qed.

Lemma covariance_translation_invariant_witness :
  covariance (FromIterator (translate [10] two_samples)) =
  covariance (FromIterator two_samples).
Proof.
  destruct (covariance_translation_invariant two_samples [10] 1)
    as (mean & cov & _ & _ & H1 & H2); try reflexivity.
  - repeat constructor.
  - now rewrite H1, H2.
Defined.

(** ** reduceEigenvectors: every input, and two fractions *)

Lemma ratio_ge_antitone (x s f f' : R) :
  f <= f' -> ratio_ge x s f' = true -> ratio_ge x s f = true.
Proof.
  intros Hf. unfold ratio_ge. destruct (Req_dec_T s 0); [auto|].
  destruct (Rge_dec (x / s) f'); [|discriminate].
  destruct (Rge_dec (x / s) f); [reflexivity | lra].
Qed.

Lemma reduceEigenvectors_index (L : vec) (V : mat) (fraction : R) :
  L <> [] ->
  exists i, (i < length L)%nat /\
    for_break (fun i => ratio_ge (nth i (cumsum L) 0) (last (cumsum L) 0) fraction)
              (seq 0 (length L)) None = Some i /\
    (forall j, (j < i)%nat ->
       ratio_ge (nth j (cumsum L) 0) (last (cumsum L) 0) fraction = false) /\
    (ratio_ge (nth i (cumsum L) 0) (last (cumsum L) 0) fraction = true \/
     i = (length L - 1)%nat) /\
    reduceEigenvectors L V fraction =
      Ok (firstn (S i) L,
          if Nat.eqb (S i) (length L) then V else firstn (S i) V).
Proof.
  intros HL.
  assert (Hlen : (0 < length L)%nat) by (destruct L; [congruence | simpl; lia]).
  destruct (for_break_seq
              (fun i => ratio_ge (nth i (cumsum L) 0) (last (cumsum L) 0) fraction)
              (length L) 0 None Hlen) as (i & Hi & Hr & Hf & Hc).
  exists i. split; [lia|]. split; [exact Hi|].
  split; [intros j Hj; apply Hf; lia|]. split.
  { destruct Hc as [Hc|Hc]; [now left | right; lia]. }
  unfold reduceEigenvectors.
  destruct (cumsum L) as [|c0 cs] eqn:Ecs.
  { apply (f_equal (@length R)) in Ecs. unfold cumsum in Ecs.
    rewrite cumsum_from_length in Ecs. simpl in Ecs. lia. }
  rewrite Hi.
  destruct (Nat.eqb_spec i (length L - 1)) as [E|E].
  - assert (E' : S i = length L) by lia.
    rewrite E', Nat.eqb_refl, firstn_all. reflexivity.
  - destruct (Nat.eqb_spec (S i) (length L)) as [E'|E']; [lia|].
    now rewrite Nat.add_1_r.
Qed.

(** X20: [reduceEigenvectors] on any input.  On no eigenvalue at all it
    raises [IndexError].  On at least one it returns, whatever their
    signs or sum: a prefix of [k >= 1] eigenvalues, with the first [k]
    rows of [V], or [V] whole when all eigenvalues are kept.  A larger
    fraction never keeps fewer of them. *)
Theorem reduceEigenvectors_any_input (L : vec) (V : mat) (f f' : R) :
  reduceEigenvectors [] V f = Raise IndexError /\
  (L <> [] ->
   (exists k, (1 <= k <= length L)%nat /\
      reduceEigenvectors L V f =
      Ok (firstn k L, if Nat.eqb k (length L) then V else firstn k V)) /\
   (f <= f' ->
    forall r r', reduceEigenvectors L V f = Ok r ->
                 reduceEigenvectors L V f' = Ok r' ->
                 (length (fst r) <= length (fst r'))%nat)).
Proof.
  split; [reflexivity|]. intros HL.
  destruct (reduceEigenvectors_index L V f HL) as (i & Hi & _ & Hb & Hc & Hr).
  destruct (reduceEigenvectors_index L V f' HL) as (i' & Hi' & _ & Hb' & Hc' & Hr').
  split.
  - exists (S i). split; [lia | exact Hr].
  - intros Hf r r' H H'. rewrite Hr in H. rewrite Hr' in H'.
    remember (firstn (S i) L) as a eqn:Ea.
    remember (firstn (S i') L) as a' eqn:Ea'.
    injection H as <-. injection H' as <-. cbn [fst]. subst a a'.
    rewrite !length_firstn.
    assert (i <= i')%nat; [|lia].
    destruct (Nat.le_gt_cases i i') as [Hle|Hlt]; [exact Hle|].
    specialize (Hb i' Hlt).
    destruct Hc' as [Hc'|Hc']; [|lia].
    apply (ratio_ge_antitone _ _ f f' Hf) in Hc'. congruence.
Qed.

Lemma reduceEigenvectors_any_input_witness :
  exists k, (1 <= k <= 2)%nat /\
    reduceEigenvectors [0; 0] [[1; 0]; [0; 1]] 0.99 =
    Ok (firstn k [0; 0],
        if Nat.eqb k 2 then [[1; 0]; [0; 1]] else firstn k [[1; 0]; [0; 1]]).
Proof.
  apply (proj1 (proj2 (reduceEigenvectors_any_input
                         [0; 0] [[1; 0]; [0; 1]] 0.99 1) ltac:(discriminate))).
Defined.

(** ** orthogonalize from a later start *)







(** ** orthogonalize on an orthonormal input *)

Lemma normalize_of_unit (v : vec) : vdot v v = 1 -> normalize v = v.
Proof.
  intros H. unfold normalize, vdiv. rewrite H, sqrt_1.
  rewrite <- (map_id v) at 2. apply map_ext. intros x. field.
Qed.

Lemma set_nth_same (i : nat) (r : vec) : set_nth i (nth i r 0) r = r.
Proof.
  revert i. induction r as [|y r IH]; intros [|i]; simpl; try reflexivity.
  now rewrite IH.
Qed.

Lemma set_col_col (i : nat) (A : mat) : set_col i (col i A) A = A.
Proof.
  unfold set_col, col. induction A as [|r A IH]; simpl; [reflexivity|].
  now rewrite IH, set_nth_same.
Qed.

Lemma transpose_involutive (n m : nat) (A : mat) :
  Mat n m A -> (0 < n)%nat -> (0 < m)%nat -> transpose (transpose A) = A.
Proof.
  intros HA Hn Hm.
  pose proof (Mat_transpose n m A HA Hn) as Ht.
  apply (mat_ext n m); [now apply Mat_transpose | exact HA |].
  intros i j Hi Hj.
  rewrite mnth_transpose by (rewrite (Mat_ncols m n _ Ht Hm); exact Hi).
  apply mnth_transpose. now rewrite (Mat_ncols n m A HA Hn).
Qed.

Lemma orthogonalize_step_fixed (B C : nat) (basis : mat) (i : nat) :
  (0 < B)%nat -> (0 < i < C)%nat -> Mat B C basis ->
  (forall a b, (a < C)%nat -> (b < C)%nat ->
     vdot (col a basis) (col b basis) = delta a b) ->
  orthogonalize_step (eye B) basis i = Ok basis.
Proof.
  intros HB Hi HM Ho.
  rewrite (orthogonalize_step_computes B C i basis HB Hi HM)
    by (intros a b Ha Hb; apply Ho; lia).
  assert (Hunit : vdot (col i basis) (col i basis) = 1).
  { rewrite Ho by lia. unfold delta. now rewrite Nat.eqb_refl. }
  rewrite (normalize_of_unit _ Hunit).
  assert (Hlen : length (col i basis) = B)
    by (rewrite length_col; now destruct HM).
  assert (Hres : residual i basis (col i basis) = col i basis).
  { apply (col_ext B); [now rewrite length_residual | exact Hlen |].
    intros r Hr. rewrite nth_residual by (rewrite Hlen; exact Hr).
    rewrite (bigsum_ext i _ (fun _ => 0)).
    - rewrite bigsum_zero. lra.
    - intros j Hj. rewrite Ho by lia. unfold delta.
      destruct (Nat.eqb_spec j i); [lia | ring]. }
  rewrite Hres, (normalize_of_unit _ Hunit), set_col_col. reflexivity.
Qed.

Lemma for_each_step_fixed (B C : nat) (basis : mat) (n k : nat) :
  (0 < B)%nat -> (0 < k)%nat -> (k + n <= C)%nat -> Mat B C basis ->
  (forall a b, (a < C)%nat -> (b < C)%nat ->
     vdot (col a basis) (col b basis) = delta a b) ->
  for_each (orthogonalize_step (eye B)) (seq k n) basis = Ok basis.
Proof.
  intros HB Hk Hn HM Ho. revert k Hk Hn.
  induction n as [|n IH]; intros k Hk Hn; simpl; [reflexivity|].
  rewrite (orthogonalize_step_fixed B C basis k HB ltac:(lia) HM Ho).
  simpl. apply IH; lia.
Qed.

(** X22: an orthonormal input comes back as it is.  For a [C x B]
    matrix with [C >= 1] orthonormal rows, [orthogonalize] returns the
    matrix itself, whatever the [start]; so orthogonalizing what
    [orthogonalize] returned changes nothing. *)
Theorem orthogonalize_orthonormal_fixed (A : mat) (C B start : nat) :
  Mat C B A -> (0 < C)%nat -> orthonormal_rows A ->
  orthogonalize A start = Ok A.
Proof.
  intros HA HC Ho.
  assert (Hlen : length A = C) by now destruct HA.
  assert (HB : (0 < B)%nat).
  { destruct B as [|B]; [|lia]. exfalso.
    pose proof (Mat_row C 0 A 0 HA HC) as H0.
    specialize (Ho 0%nat 0%nat ltac:(lia) ltac:(lia)).
    destruct (nth 0 A []); [|discriminate].
    unfold delta in Ho. simpl in Ho. lra. }
  pose proof (Mat_transpose C B A HA HC) as HM.
  assert (Hcols : forall a b, (a < C)%nat -> (b < C)%nat ->
            vdot (col a (transpose A)) (col b (transpose A)) = delta a b).
  { intros a b Ha Hb.
    rewrite !(col_transpose C B) by assumption. apply Ho; lia. }
  unfold orthogonalize, nrows.
  rewrite (Mat_ncols _ _ _ HA HC), Hlen.
  assert (Hfinal : forall k, (0 < k)%nat ->
            (basis' <- for_each (orthogonalize_step (eye B))
                         (seq k (C - k)) (transpose A) ;;
             Ok (transpose basis')) = Ok A).
  { intros k Hk.
    destruct (Nat.le_gt_cases k C) as [Hle|Hgt].
    - rewrite (for_each_step_fixed B C (transpose A) (C - k) k HB Hk
                 ltac:(lia) HM Hcols).
      cbn [bind]. f_equal. now apply (transpose_involutive C B).
    - replace (C - k)%nat with 0%nat by lia. cbn [seq for_each bind].
      f_equal. now apply (transpose_involutive C B). }
  destruct start as [|s].
  - destruct C as [|C']; [lia|]. cbn [bind fst snd].
    assert (Hu : vdot (col 0 (transpose A)) (col 0 (transpose A)) = 1).
    { rewrite Hcols by lia. reflexivity. }
    rewrite (normalize_of_unit _ Hu), set_col_col.
    apply (Hfinal 1%nat). lia.
  - cbn [bind fst snd]. apply Hfinal. lia.
Qed.

Lemma orthogonalize_orthonormal_fixed_witness :
  orthogonalize axes 0 = Ok axes.
Proof.
  apply (orthogonalize_orthonormal_fixed axes 2 2 0).
  - split; [reflexivity | repeat constructor].
  - lia.
  - intros i j Hi Hj. simpl in Hi, Hj.
    destruct i as [|[|i]]; destruct j as [|[|j]]; try lia;
      unfold delta; simpl; lra.
Defined.

(** ** The scatter matrices of linearDiscriminant *)

Lemma total_mean_entries {E : Eigen} (B : nat) (cls : list TrainingClass) :
  Forall (valid_class B) cls ->
  forall (N : nat) (m0 : vec), length m0 = B ->
  exists m',
    total_mean cls N (Some m0) = (cls, Ok ((N + total_size cls)%nat, Some m')) /\
    length m' = B /\
    forall r, nth r m' 0 =
              nth r m0 0 + lsum (fun s => INR (_size s) * nth r (mean_of s) 0) cls.
Proof.
  induction 1 as [|s cls Hs Hcls IH]; intros N m0 Hm0.
  - exists m0. unfold total_size, lsum. simpl. rewrite Nat.add_0_r.
    split; [reflexivity|]. split; [exact Hm0 | intros r; lra].
  - destruct Hs as (_ & Hv & st & m & c & Hst & Hm & _ & Hlen & _).
    simpl. rewrite (size_valid s Hv), Hst. simpl.
    rewrite (size_valid s Hv), Hst. simpl. rewrite Hm. simpl.
    assert (Hl : length m0 = length (vscale (INR (_size s)) m))
      by (rewrite length_vscale; congruence).
    destruct (IH (N + _size s)%nat (vadd m0 (vscale (INR (_size s)) m)))
      as (m' & Heq & Hm' & Hent).
    + rewrite length_vadd; [exact Hm0 | exact Hl].
    + rewrite Heq. exists m'. split.
      { unfold total_size. simpl. now rewrite Nat.add_assoc. }
      split; [exact Hm'|]. intros r.
      assert (Hmo : mean_of s = m) by (unfold mean_of; now rewrite Hst, Hm).
      rewrite Hent, lsum_cons, (nth_vadd _ _ r Hl), nth_vscale. cbv beta.
      rewrite Hmo. lra.
Qed.

Lemma scatter_entries (B : nat) (cls : list TrainingClass) :
  Forall (valid_class B) cls ->
  forall (mean_ : vec) (cb cw : mat),
    length mean_ = B -> Mat B B cb -> Mat B B cw ->
    exists cb' cw',
      scatter cls mean_ cb cw = Ok (cb', cw') /\
      Mat B B cb' /\ Mat B B cw' /\
      forall i j, (i < B)%nat -> (j < B)%nat ->
        mnth cb' i j =
          mnth cb i j +
          lsum (fun s => INR (_size s) *
                         ((nth i (mean_of s) 0 - nth i mean_ 0) *
                          (nth j (mean_of s) 0 - nth j mean_ 0))) cls /\
        mnth cw' i j =
          mnth cw i j +
          lsum (fun s => (INR (_size s) - 1) * mnth (cov_of s) i j) cls.
Proof.
  induction 1 as [|s cls Hs Hcls IH]; intros mean_ cb cw Hmean Hcb Hcw.
  - exists cb, cw. simpl. split; [reflexivity|]. split; [exact Hcb|].
    split; [exact Hcw|]. intros i j _ _. unfold lsum. simpl. split; lra.
  - destruct Hs as (_ & Hv & st & m & c & Hst & Hm & Hc & Hlen & Hmat & _).
    simpl. rewrite (size_valid s Hv). simpl. rewrite Hst. simpl.
    rewrite Hc. simpl. rewrite Hm. simpl.
    assert (Hlm : length m = length mean_) by congruence.
    assert (Hd : length (vsub m mean_) = B)
      by (rewrite length_vsub; congruence).
    assert (Hout : Mat B B (mmul (newaxis (vsub m mean_))
                                 (transpose (newaxis (vsub m mean_)))))
      by (rewrite <- Hd at 1 2; apply Mat_outer).
    pose proof (Mat_mscale B B _ (INR (_size s)) Hout) as Hb1.
    pose proof (Mat_mscale B B c (INR (_size s) - 1) Hmat) as Hw1.
    destruct (IH mean_ _ _ Hmean (Mat_madd B B _ _ Hcb Hb1)
                (Mat_madd B B _ _ Hcw Hw1))
      as (cb' & cw' & Hsc & Hcb' & Hcw' & Hent).
    exists cb', cw'. split; [exact Hsc|]. split; [exact Hcb'|].
    split; [exact Hcw'|]. intros i j Hi Hj.
    destruct (Hent i j Hi Hj) as [H1 H2].
    assert (Hmo : mean_of s = m) by (unfold mean_of; now rewrite Hst, Hm).
    assert (Hco : cov_of s = c) by (unfold cov_of; now rewrite Hst, Hc).
    rewrite H1, H2, !lsum_cons. cbv beta.
    rewrite (mnth_madd B B _ _ i j Hcb Hb1), (mnth_madd B B _ _ i j Hcw Hw1).
    rewrite !mnth_mscale, mnth_outer by (rewrite Hd; assumption).
    rewrite !(nth_vsub _ _ _ Hlm), Hmo, Hco.
    split; lra.
Qed.

(** The two loops of [scatter_matrices], before the division by [N]. *)
Lemma scatter_matrices_sums {E : Eigen} (B : nat) (cls : list TrainingClass) :
  cls <> [] -> Forall (valid_class B) cls ->
  let N := INR (total_size cls) in
  exists sm cb cw,
    scatter_matrices cls = (cls, Ok (mdiv cb N, mdiv cw N)) /\
    Mat B B cb /\ Mat B B cw /\
    (forall r, nth r sm 0 =
               lsum (fun s => INR (_size s) * nth r (mean_of s) 0) cls) /\
    forall i j, (i < B)%nat -> (j < B)%nat ->
      mnth cb i j =
        lsum (fun s => INR (_size s) *
                       ((nth i (mean_of s) 0 - nth i sm 0 / N) *
                        (nth j (mean_of s) 0 - nth j sm 0 / N))) cls /\
      mnth cw i j =
        lsum (fun s => (INR (_size s) - 1) * mnth (cov_of s) i j) cls.
Proof.
  intros Hne Hall N.
  assert (HB : match cls with s :: _ => numBands s | [] => O end = B).
  { destruct cls as [|s rest]; [congruence|].
    inversion Hall as [|? ? Hs _]; subst. now destruct Hs. }
  assert (Hnone : total_mean cls 0 None = total_mean cls 0 (Some (zeros B))).
  { destruct cls as [|s rest]; [congruence|]. now rewrite <- HB. }
  unfold scatter_matrices. rewrite Hnone, HB.
  destruct (total_mean_entries B cls Hall 0%nat (zeros B) (length_zeros B))
    as (sm & Heq & Hsm & Hent).
  rewrite Heq. cbn [bind fst snd Nat.add]. fold N.
  destruct (scatter_entries B cls Hall (vdiv sm N) (zeros2 B B) (zeros2 B B))
    as (cb & cw & Hsc & Hcb & Hcw & Hsums);
    try apply Mat_zeros2.
  { now rewrite length_vdiv. }
  rewrite Hsc. cbn [bind fst snd].
  exists sm, cb, cw.
  split; [reflexivity|]. split; [exact Hcb|]. split; [exact Hcw|].
  split.
  - intros r. rewrite Hent, nth_zeros. lra.
  - intros i j Hi Hj. destruct (Hsums i j Hi Hj) as [H1 H2].
    rewrite H1, H2, !mnth_zeros2, !nth_vdiv. split; lra.
Qed.

(** X23: the two matrices that [linearDiscriminant] builds.  For
    classes with valid statistics of [B] bands, [n_s] samples, mean
    [m_s] and covariance [c_s], with [N] the sum of the [n_s] and [m]
    the mean [sum n_s m_s / N] of all of them, the within-class matrix
    is [sum (n_s - 1) c_s / N] and the between-class matrix is
    [sum n_s (m_s - m) (m_s - m)^T / N]. *)
Theorem scatter_matrices_formulas {E : Eigen} (B : nat) (cls : list TrainingClass) :
  cls <> [] -> Forall (valid_class B) cls ->
  let N := INR (total_size cls) in
  let m r := lsum (fun s => INR (_size s) * nth r (mean_of s) 0) cls / N in
  exists Cb Cw,
    scatter_matrices cls = (cls, Ok (Cb, Cw)) /\
    Mat B B Cb /\ Mat B B Cw /\
    forall i j, (i < B)%nat -> (j < B)%nat ->
      mnth Cb i j =
        lsum (fun s => INR (_size s) *
                       ((nth i (mean_of s) 0 - m i) *
                        (nth j (mean_of s) 0 - m j))) cls / N /\
      mnth Cw i j =
        lsum (fun s => (INR (_size s) - 1) * mnth (cov_of s) i j) cls / N.
Proof.
  intros Hne Hall N m.
  destruct (scatter_matrices_sums B cls Hne Hall)
    as (sm & cb & cw & Hsc & Hcb & Hcw & Hsm & Hsums).
  fold N in Hsc, Hsums.
  exists (mdiv cb N), (mdiv cw N).
  split; [exact Hsc|].
  split; [now apply Mat_mdiv|]. split; [now apply Mat_mdiv|].
  intros i j Hi Hj. destruct (Hsums i j Hi Hj) as [H1 H2].
  rewrite !mnth_mdiv, H1, H2. split; [|reflexivity].
  f_equal. apply lsum_ext. intros s _. unfold m. now rewrite !Hsm.
Qed.

Lemma scatter_matrices_formulas_witness :
  exists Cb Cw,
    scatter_matrices (E := diag_eigen) two_classes = (two_classes, Ok (Cb, Cw)) /\
    Mat 1 1 Cb /\ Mat 1 1 Cw.
Proof.
  destruct (scatter_matrices_formulas (E := diag_eigen) 1 two_classes)
    as (Cb & Cw & H1 & H2 & H3 & _).
  - discriminate.
  - repeat constructor; apply valid_band_class.
  - exists Cb, Cw. split; [exact H1|]. split; assumption.
Defined.

(** ** The cached size *)

(** X24: the size that [calcStatistics] caches is the size that a
    recount gives.  Once [calcStatistics] has returned on a class over
    an image and a mask of the same height and width, [size] answers
    the cached number of samples, and after [statsValid(False)] it
    counts the mask again and finds the same number. *)
Theorem cached_size_coherent {E : Eigen} (cl cl' : TrainingClass) :
  calcStatistics cl = (cl', Ok tt) ->
  image_shaped (image cl) -> mask_shaped (image cl) (mask cl) ->
  index cl <> 0%Z /\
  size cl' = Ok (_size cl') /\
  size (statsValid false cl') = Ok (_size cl') /\
  _size cl' = count_true (ravel (np_equal (mask cl) (index cl))).
Proof.
  intros H (Hn & Hrows & _) (Hmn & Hmrows).
  destruct (calcStatistics_Ok_inv cl cl' H)
    as (_ & Hmask & Hidx & _ & _ & Hv & m & c & ic & _ & _ & Hmc).
  assert (Hi : index cl <> 0%Z).
  { intros E0. unfold mean_cov in Hmc. simpl in Hmc.
    rewrite ImageMaskIterator_falsy in Hmc; [discriminate|].
    rewrite E0. reflexivity. }
  rewrite (mean_cov_of_class _ _ _ Hi) in Hmc.
  remember {| getNumElements :=
                count_true (ravel (np_equal (mask cl) (index cl)));
              getNumBands := shape2 (image cl);
              sample_type := dtype (image cl);
              iter := compress (ravel (np_equal (mask cl) (index cl)))
                               (ravel (pixels (image cl))) |} as it eqn:Hit.
  assert (Hval : mean_cov_values it = (m, c, _size cl')) by congruence.
  pose proof (mean_cov_values_count it) as Hc.
  rewrite Hval in Hc. rewrite Hit in Hc. simpl in Hc.
  assert (Hsize : _size cl' = count_true (ravel (np_equal (mask cl) (index cl)))).
  { rewrite Hc. apply length_compress.
    rewrite (np_equal_shaped _ _ _ _ Hmn Hmrows).
    unfold ravel. now rewrite (length_concat_shaped _ _ _ Hn Hrows). }
  split; [exact Hi|]. split; [now apply size_valid|]. split; [|exact Hsize].
  unfold size, statsValid. simpl. rewrite Hidx, Hmask.
  apply truthy_true_iff in Hi. rewrite Hi. simpl. now rewrite Hsize.
Qed.

Lemma cached_size_coherent_witness :
  size (statsValid false (fst (calcStatistics (E := diag_eigen) two_pixel_class))) =
  Ok (_size (fst (calcStatistics (E := diag_eigen) two_pixel_class))).
Proof.
  assert (Hnz : (0 + (1 * 1 + 0) + (3 * 3 + 0)
                 - ((0 + 1 + 3) * (0 + 1 + 3) + 0) / (1 + 1)) / (1 + 1 - 1) <> 0)
    by lra.
  pose proof (calcStatistics_invertible (E := diag_eigen) two_pixel_class
                [(0 + 1 + 3) / (1 + 1)]
                [[(0 + (1 * 1 + 0) + (3 * 3 + 0)
                   - ((0 + 1 + 3) * (0 + 1 + 3) + 0) / (1 + 1)) / (1 + 1 - 1)]]
                [[/ ((0 + (1 * 1 + 0) + (3 * 3 + 0)
                      - ((0 + 1 + 3) * (0 + 1 + 3) + 0) / (1 + 1))
                     / (1 + 1 - 1))]] 2
                ltac:(discriminate) eq_refl (le_n 2)
                (is_inverse_1x1 _ Hnz)) as Hc.
  refine (proj1 (proj2 (proj2 (cached_size_coherent (E := diag_eigen)
            two_pixel_class _ _ _ _)))).
  - destruct (calcStatistics (E := diag_eigen) two_pixel_class) as [c r].
    simpl in *. now subst r.
  - split; [reflexivity|]. split; repeat constructor.
  - split; [reflexivity|]. repeat constructor.
Defined.

(** ** allSamples *)

Lemma ravel_np_equal (m : labels) (k : Z) :
  ravel (np_equal m k) = map (fun l => Z.eqb l k) (ravel m).
Proof. unfold ravel, np_equal. symmetry. apply concat_map. Qed.

Lemma count_true_cons (b : bool) (bs : list bool) :
  count_true (b :: bs) = ((if b then 1 else 0) + count_true bs)%nat.
Proof. unfold count_true. simpl. now destruct b. Qed.

Lemma list_sum_map_add {A : Type} (f g : A -> nat) (l : list A) :
  list_sum (map (fun k => (f k + g k)%nat) l) =
  (list_sum (map f l) + list_sum (map g l))%nat.
Proof. induction l as [|x l IH]; simpl; [reflexivity | rewrite IH; lia]. Qed.

Lemma list_sum_indicator (x : Z) (ks : list Z) :
  NoDup ks ->
  list_sum (map (fun k => if Z.eqb x k then 1%nat else 0%nat) ks) =
  if existsb (Z.eqb x) ks then 1%nat else 0%nat.
Proof.
  induction 1 as [|k ks Hk Hnd IH]; simpl; [reflexivity|].
  rewrite IH. destruct (Z.eqb_spec x k) as [->|Hne]; simpl; [|reflexivity].
  destruct (existsb (Z.eqb k) ks) eqn:Ex; [|reflexivity].
  apply existsb_Zeqb_In in Ex. contradiction.
Qed.

(** The samples with a label among distinct [ks], counted label by
    label. *)
Lemma count_by_label (l ks : list Z) :
  NoDup ks ->
  list_sum (map (fun k => count_true (map (fun x => Z.eqb x k) l)) ks) =
  count_true (map (fun x => existsb (Z.eqb x) ks) l).
Proof.
  intros Hnd. induction l as [|x l IH].
  - simpl. induction ks as [|k ks IHk]; [reflexivity|].
    inversion Hnd; subst. simpl. now apply IHk.
  - cbn [map]. rewrite count_true_cons, <- IH.
    rewrite <- (list_sum_indicator x ks Hnd), <- list_sum_map_add.
    f_equal. apply map_ext. intros k. now rewrite count_true_cons.
Qed.

Lemma SampleIterator_of_classes (im : ndimage) (m : labels)
    (d : list (Z * TrainingClass)) :
  image_shaped im -> mask_shaped im m ->
  (forall k cl, In (k, cl) d ->
     k <> 0%Z /\ image cl = im /\ mask cl = m /\ index cl = k) ->
  exists xs,
    SampleIterator_iter (values d) = (xs, Ok tt) /\
    length xs =
      list_sum (map (fun k => count_true (map (fun x => Z.eqb x k) (ravel m)))
                    (keys d)) /\
    Forall (fun x => In x (ravel (pixels im))) xs.
Proof.
  intros (Hn & Hrows & _) (Hmn & Hmrows) Hd.
  induction d as [|[k cl] d IH].
  - exists []. simpl. repeat split. constructor.
  - destruct (Hd k cl (or_introl eq_refl)) as (Hk & Him & Hm & Hi).
    destruct IH as (ys & Hys & Hlen & Hin).
    { intros k' cl' H'. apply Hd. now right. }
    simpl. unfold TrainingClass_iter. rewrite Him, Hm, Hi.
    rewrite (ImageMaskIterator_truthy im m k Hk). cbn [bind iter].
    rewrite Hys. eexists. split; [reflexivity|]. split.
    + rewrite length_app, Hlen. f_equal.
      rewrite <- ravel_np_equal. apply length_compress.
      rewrite (np_equal_shaped _ _ _ _ Hmn Hmrows).
      unfold ravel. now rewrite (length_concat_shaped _ _ _ Hn Hrows).
    + apply Forall_app. split; [|exact Hin].
      apply Forall_forall. intros x Hx. now apply In_compress in Hx.
Qed.

(** X25: [allSamples] of the set that [createTrainingClasses] returns
    for an image and a mask of the same height and width.  It yields
    pixels of the image without raising, as many of them as the mask
    has labels for which a class was made (the nonzero labels that
    [indices] lets through): every labelled pixel is counted once. *)
Theorem allSamples_of_created_classes {E : Eigen}
    (im : ndimage) (m : labels) (calcStats : bool) (indices : option (list Z))
    (order : list Z) (s : TrainingClassSet) :
  image_shaped im -> mask_shaped im m ->
  Permutation order (classIndices m) ->
  createTrainingClasses_loop im m calcStats indices order
    new_TrainingClassSet = Ok s ->
  exists xs,
    allSamples s = (xs, Ok tt) /\
    length xs = count_true (map (kept indices) (ravel m)) /\
    Forall (fun x => In x (ravel (pixels im))) xs.
Proof.
  intros Him Hm Hperm Hs.
  assert (Hnd : NoDup order).
  { apply (Permutation_NoDup (Permutation_sym Hperm)). apply NoDup_nodup. }
  destruct (createTrainingClasses_loop_keys im m calcStats indices order _ s Hs)
    as [Hkeys _]. simpl in Hkeys.
  assert (Hmade : set_made im m calcStats s).
  { apply (createTrainingClasses_loop_made im m calcStats indices order _ s Hs).
    split; [intros k cl [] | reflexivity]. }
  destruct Hmade as [Hmade _].
  destruct (SampleIterator_of_classes im m (classes s) Him Hm)
    as (xs & Hxs & Hlen & Hin).
  { intros k cl Hin.
    destruct (Hmade k cl Hin) as (H1 & H2 & H3 & _).
    assert (Hk : In k (keys (classes s))).
    { unfold keys. apply in_map_iff. now exists (k, cl). }
    rewrite Hkeys in Hk. apply filter_In in Hk. destruct Hk as [_ Hk].
    apply kept_true_iff in Hk. now destruct Hk. }
  exists xs. split; [exact Hxs|]. split; [|exact Hin].
  rewrite Hlen, Hkeys.
  rewrite count_by_label by (apply NoDup_filter; exact Hnd).
  f_equal. apply map_ext_in. intros x Hx.
  destruct (kept indices x) eqn:Hkx.
  - apply existsb_Zeqb_In. apply filter_In. split; [|exact Hkx].
    apply (Permutation_in _ (Permutation_sym Hperm)).
    unfold classIndices. now apply nodup_In.
  - destruct (existsb (Z.eqb x) (filter (kept indices) order)) eqn:Ex;
      [|reflexivity].
    apply existsb_Zeqb_In in Ex. apply filter_In in Ex. destruct Ex. congruence.
Qed.

Lemma allSamples_of_created_classes_witness :
  exists s xs,
    createTrainingClasses (E := diag_eigen) column_image [[2]; [1]]%Z false None
      = Ok s /\
    allSamples s = (xs, Ok tt) /\ length xs = 2%nat.
Proof.
  assert (Hs : createTrainingClasses_loop (E := diag_eigen) column_image
                 [[2]; [1]]%Z false None (classIndices [[2]; [1]]%Z)
                 new_TrainingClassSet =
               Ok {| classes :=
                       [(2%Z, new_TrainingClass column_image [[2]; [1]]%Z 2 1);
                        (1%Z, new_TrainingClass column_image [[2]; [1]]%Z 1 1)];
                     set_numBands := Some 1%nat |}) by reflexivity.
  destruct (allSamples_of_created_classes (E := diag_eigen) column_image
              [[2]; [1]]%Z false None (classIndices [[2]; [1]]%Z) _
              ltac:(split; [reflexivity | split; repeat constructor])
              ltac:(split; [reflexivity | repeat constructor])
              (Permutation_refl _) Hs) as (xs & H1 & H2 & _).
  eexists. exists xs. split; [exact Hs|]. split; [exact H1 | exact H2].
Defined.

(** ** dump and load *)

(** X26: neither [dump] nor [load] ever returns.  On a class whose
    image is an array [dump] raises [AttributeError] and writes
    nothing; on a class whose image has a file name it writes that
    name, the index, the cached size and the prior probability, then
    raises [NameError] on [DumpArray].  [load] raises, whatever the
    stream, after it has replaced the statistics by an empty
    [GaussianStats]: [EOFError] on fewer than four objects, [NameError]
    on [LoadArray] otherwise.  On what [dump] wrote, [load] reads the
    four objects back, the file name taking the place of the image. *)
Theorem dump_load_never_return :
  (forall cl fp,
     dump None cl fp = (fp, Throw (Builtin (AttributeError "fileName")))) /\
  (forall name cl fp,
     dump (Some name) cl fp =
     (fp ++ [PickledStr name; PickledInt (index cl);
             PickledInt (Z.of_nat (_size cl)); PickledFloat (classProb cl)],
      Throw (Builtin (NameError "DumpArray")))) /\
  (forall fp,
     exists o rest e,
       load fp = (o, rest, Throw e) /\
       loaded_stats o = new_GaussianStats /\
       ((length fp < 4)%nat -> e = EOFError /\ rest = []) /\
       ((4 <= length fp)%nat ->
        e = Builtin (NameError "LoadArray") /\ rest = skipn 4 fp)) /\
  (forall name cl,
     load (fst (dump (Some name) cl [])) =
     ({| loaded_stats := new_GaussianStats;
         loaded_image := Some (PickledStr name);
         loaded_index := Some (PickledInt (index cl));
         loaded_size := Some (PickledInt (Z.of_nat (_size cl)));
         loaded_classProb := Some (PickledFloat (classProb cl)) |},
      [], Throw (Builtin (NameError "LoadArray")))).
Proof.
  split; [reflexivity|]. split.
  { intros name cl fp. unfold dump. rewrite <- !app_assoc. reflexivity. }
  split; [|reflexivity].
  intros fp. destruct fp as [|a [|b [|c [|d fp]]]]; simpl;
    eexists; eexists; eexists;
    (split; [reflexivity|]); (split; [reflexivity|]);
    split; intros H; (try (simpl in H; lia)); split; reflexivity.
Qed.

(** ** A mask that selects every pixel *)

Lemma compress_all_true (b : list bool) (px : list vec) :
  Forall (fun x => x = true) b -> length b = length px ->
  compress b px = px.
Proof.
  intros Hb. revert px. induction Hb as [|x b Hx Hb IH]; intros [|p px] H;
    simpl in H; try discriminate; [reflexivity|].
  subst x. unfold compress in *. simpl. f_equal. apply IH. now injection H.
Qed.

(** X27: with a mask that carries the same nonzero label [k]
    everywhere, selecting the pixels labelled [k] selects the whole
    image: [mean_cov(image, mask, k)] returns what [mean_cov(image)]
    returns, and so does [covariance]. *)
Theorem mean_cov_full_mask (im : ndimage) (m : labels) (k : Z) :
  image_shaped im -> mask_shaped im m -> short_indices im ->
  k <> 0%Z -> Forall (Forall (fun l => l = k)) m ->
  mean_cov (FromImage im (Some m) (Some k)) = mean_cov (FromImage im None None) /\
  covariance (FromImage im (Some m) (Some k)) = covariance (FromImage im None None).
Proof.
  intros Him Hm _ Hk Hall.
  assert (H : mean_cov (FromImage im (Some m) (Some k)) =
              mean_cov (FromImage im None None)).
  { rewrite (mean_cov_of_class im m k Hk), (mean_cov_of_image im Him).
    f_equal. unfold mean_cov_values, ImageIterator. cbn [getNumBands iter].
    rewrite compress_all_true; [reflexivity | |].
    - rewrite ravel_np_equal. apply Forall_map. unfold ravel.
      apply Forall_concat. eapply Forall_impl; [|exact Hall].
      intros row Hrow. eapply Forall_impl; [|exact Hrow].
      intros l ->. apply Z.eqb_refl.
    - destruct Him as (Hn & Hrows & _). destruct Hm as (Hmn & Hmrows).
      rewrite (np_equal_shaped _ _ _ _ Hmn Hmrows).
      unfold ravel. now rewrite (length_concat_shaped _ _ _ Hn Hrows). }
  split; [exact H|]. unfold covariance. now rewrite H.
Qed.

Lemma mean_cov_full_mask_witness :
  mean_cov (FromImage two_pixel_image (Some [[1; 1]]%Z) (Some 1%Z)) =
  mean_cov (FromImage two_pixel_image None None).
Proof.
  apply (mean_cov_full_mask two_pixel_image [[1; 1]]%Z 1).
  - split; [reflexivity|]. split; repeat constructor.
  - split; [reflexivity | repeat constructor].
  - split; simpl; lia.
  - discriminate.
  - repeat constructor.
Defined.

(** ** linearDiscriminant on fewer than two classes *)

Lemma discriminant_vectors_rank_0 {E : Eigen} (cov_b cov_w : mat) :
  (invertible cov_w ->
   discriminant_vectors 0 cov_b cov_w = Ok ([], [], cov_b, cov_w)) /\
  (~ invertible cov_w ->
   discriminant_vectors 0 cov_b cov_w = Raise LinAlgError).
Proof.
  unfold discriminant_vectors. split.
  - intros [ci Hci]. rewrite (inv_of_inverse _ _ Hci). cbn [bind].
    destruct (eig (mmul ci cov_b)) as [vals vecs]. reflexivity.
  - intros Hs. now rewrite (inv_singular _ Hs).
Qed.

(** X28: [linearDiscriminant] on fewer than two classes.  On no class
    it raises [TypeError], the mean being still [None] when it is
    divided.  On a single class with valid statistics and at least one
    sample the between-class matrix is zero and the within-class matrix
    is [(n - 1) c / n]; no eigenvalue and no eigenvector is returned,
    and the call raises [LinAlgError] when the within-class matrix is
    singular. *)
Theorem linearDiscriminant_few_classes {E : Eigen} (B : nat) (s : TrainingClass) :
  valid_class B s -> (0 < _size s)%nat ->
  linearDiscriminant [] = ([], Raise TypeError) /\
  exists Cb Cw,
    scatter_matrices [s] = ([s], Ok (Cb, Cw)) /\
    (forall i j, (i < B)%nat -> (j < B)%nat ->
       mnth Cb i j = 0 /\
       mnth Cw i j = (INR (_size s) - 1) * mnth (cov_of s) i j / INR (_size s)) /\
    (invertible Cw -> linearDiscriminant [s] = ([s], Ok ([], [], Cb, Cw))) /\
    (~ invertible Cw -> linearDiscriminant [s] = ([s], Raise LinAlgError)).
Proof.
  intros Hs Hn. split; [reflexivity|].
  destruct (scatter_matrices_sums B [s] ltac:(discriminate)
              (Forall_cons s Hs (Forall_nil _)))
    as (sm & cb & cw & Hsc & _ & _ & Hsm & Hent).
  assert (HN : INR (total_size [s]) = INR (_size s)).
  { unfold total_size. simpl. now rewrite Nat.add_0_r. }
  rewrite HN in Hsc, Hent.
  assert (Hpos : 0 < INR (_size s)) by (apply lt_0_INR; exact Hn).
  exists (mdiv cb (INR (_size s))), (mdiv cw (INR (_size s))).
  split; [exact Hsc|]. split.
  - intros i j Hi Hj. destruct (Hent i j Hi Hj) as [H1 H2].
    rewrite !mnth_mdiv, H1, H2, !Hsm. unfold lsum. simpl. split; field; lra.
  - unfold linearDiscriminant. rewrite Hsc. cbn [length Nat.sub bind fst snd].
    destruct (discriminant_vectors_rank_0 (mdiv cb (INR (_size s)))
                (mdiv cw (INR (_size s)))) as [Hok Hno].
    split; intros H; [now rewrite (Hok H) | now rewrite (Hno H)].
Qed.

Lemma linearDiscriminant_few_classes_witness :
  exists Cb Cw,
    scatter_matrices (E := diag_eigen) [band_class 1 5] =
      ([band_class 1 5], Ok (Cb, Cw)) /\
    mnth Cb 0 0 = 0.
Proof.
  destruct (proj2 (linearDiscriminant_few_classes (E := diag_eigen) 1
                     (band_class 1 5) (valid_band_class 1 5) ltac:(simpl; lia)))
    as (Cb & Cw & H1 & H2 & _).
  exists Cb, Cw. split; [exact H1|]. apply (H2 0%nat 0%nat); lia.
Defined.

(** ** linearDiscriminant: the discriminant vectors *)

(** X30: [linearDiscriminant] on [C >= 2] classes with valid statistics
    of [B >= C - 1] bands whose within-class covariance [Cw] is
    invertible.  The solver is taken to return [B] eigenvalues of
    [inv(Cw) Cb] and a [B x B] matrix whose first [C - 1] columns are
    eigenvectors for the first [C - 1] eigenvalues, these being
    pairwise distinct and the form of [Cw] positive on the columns.
    Then the call returns the first [C - 1] eigenvalues of the solver
    and a [(C - 1) x B] matrix [V] whose row [i] is column [i] of the
    solver divided by the square root of the form of [Cw] on it, still
    an eigenvector for eigenvalue [i]; and [V Cw V^T] is the identity
    matrix. *)
Theorem linearDiscriminant_unit_variance {E : Eigen} (B : nat)
    (cls : list TrainingClass) :
  (0 < B)%nat -> (2 <= length cls)%nat -> (length cls - 1 <= B)%nat ->
  Forall (valid_class B) cls ->
  exists Cb Cw,
    scatter_matrices cls = (cls, Ok (Cb, Cw)) /\
    Mat B B Cb /\ Mat B B Cw /\
    forall cwInv, is_inverse Cw cwInv ->
      let vals0 := fst (eig (mmul cwInv Cb)) in
      let V0 := snd (eig (mmul cwInv Cb)) in
      let K := (length cls - 1)%nat in
      length vals0 = B -> Mat B B V0 ->
      (forall i, (i < K)%nat -> 0 < vdot (col i V0) (mvmul Cw (col i V0))) ->
      (forall i, (i < K)%nat ->
         mvmul (mmul cwInv Cb) (col i V0) = vscale (nth i vals0 0) (col i V0)) ->
      (forall i j, (i < K)%nat -> (j < K)%nat -> i <> j ->
         nth i vals0 0 <> nth j vals0 0) ->
      exists L V,
        linearDiscriminant cls = (cls, Ok (L, V, Cb, Cw)) /\
        L = firstn K vals0 /\ length L = K /\ Mat K B V /\
        (forall i, (i < K)%nat ->
           nth i V [] =
             vdiv (col i V0) (sqrt (vdot (col i V0) (mvmul Cw (col i V0)))) /\
           mvmul (mmul cwInv Cb) (nth i V []) = vscale (nth i L 0) (nth i V [])) /\
        mmul V (mmul Cw (transpose V)) = eye K.
Proof.
  intros HB HC HCB Hall.
  destruct (linearDiscriminant_result B cls HB HC Hall)
    as (Cb & Cw & Hsc & HCb & HCw & _ & _ & H).
  exists Cb, Cw. repeat (split; [assumption|]).
  intros cwInv Hinv vals0 V0 K Hvals HV0 Hpos Heq Hdist.
  specialize (H cwInv Hinv). cbv zeta in H.
  assert (HK : Nat.min (length cls - 1) B = K) by (unfold K; lia).
  rewrite HK in H.
  destruct (H Hvals HV0 Hpos) as (L & V & Hld & HL & HLn & HV & Hrow & Hdiag & Hoff).
  fold vals0 V0 K in HL, Hrow, Hoff.
  assert (HK0 : (0 < K)%nat) by (unfold K; lia).
  exists L, V. split; [exact Hld|]. split; [exact HL|].
  split; [exact HLn|]. split; [exact HV|]. split.
  - intros i Hi. split; [now apply Hrow|].
    rewrite (Hrow i Hi), mvmul_vdiv, (Heq i Hi), vscale_vdiv.
    rewrite HL, nth_firstn.
    destruct (Nat.ltb_spec i K); [reflexivity | lia].
  - apply (mat_ext K K).
    + apply Mat_mmul with (m := B); [exact HV|].
      rewrite ncols_mmul by (apply (Mat_nonempty _ _ _ HCw HB)).
      apply (Mat_ncols B K); [now apply Mat_transpose | exact HB].
    + apply Mat_eye.
    + intros i j Hi Hj. rewrite mnth_eye by assumption. unfold delta.
      destruct (Nat.eqb_spec i j) as [->|Hij].
      * now apply Hdiag.
      * apply Hoff; try assumption; try (now apply Heq). now apply Hdist.
Qed.

Lemma valid_plane_class (i : Z) (m1 m2 : R) : valid_class 2 (plane_class i m1 m2).
Proof.
  split; [reflexivity|]. split; [reflexivity|].
  exists (plane_stats m1 m2), [m1; m2], [[1; 0]; [0; 1]].
  repeat (split; [reflexivity|]).
  split; [split; [reflexivity | repeat constructor]|].
  intros [|[|a]] [|[|b]] Ha Hb; try lia; reflexivity.
Qed.

Lemma linearDiscriminant_unit_variance_witness :
  exists L V Cb Cw,
    linearDiscriminant (E := diag_eigen) plane_classes =
      (plane_classes, Ok (L, V, Cb, Cw)) /\
    length L = 2%nat /\ Mat 2 2 V /\
    mmul V (mmul Cw (transpose V)) = eye 2.
Proof.
  destruct (linearDiscriminant_unit_variance (E := diag_eigen) 2 plane_classes)
    as (Cb & Cw & Hsc & _ & _ & H).
  - lia.
  - simpl. lia.
  - simpl. lia.
  - repeat constructor; apply valid_plane_class.
  - cbn in Hsc. injection Hsc as <- <-.
    match type of H with
    | forall cwInv, is_inverse ?cw cwInv -> _ =>
        assert (Hcw : cw = [[/ 2; 0]; [0; / 2]])
          by (repeat f_equal; field);
        rewrite Hcw in H
    end.
    match type of H with
    | forall cwInv, is_inverse _ cwInv ->
        let vals0 := fst (eig (mmul cwInv ?cb)) in _ =>
        assert (Hcb : cb = [[6; 0]; [0; 2]])
          by (repeat f_equal; field);
        rewrite Hcb in H
    end.
    assert (Hinv : is_inverse [[/ 2; 0]; [0; / 2]] [[2; 0]; [0; 2]]).
    { split; [split; [reflexivity | repeat constructor]|].
      split; [split; [reflexivity | repeat constructor]|].
      split; unfold mmul, eye, delta; simpl; repeat f_equal; field. }
    destruct (H _ Hinv) as (L & V & Hld & _ & HL & HV & _ & Hid).
    + reflexivity.
    + split; [reflexivity | repeat constructor].
    + intros i Hi. cbn in Hi.
      destruct i as [|[|i]]; [| |lia]; cbn; unfold delta; cbn; lra.
    + intros i Hi. cbn in Hi.
      destruct i as [|[|i]]; [| |lia]; cbn; unfold delta; cbn;
        (f_equal; [ring | f_equal; ring]).
    + intros i j Hi Hj Hij. cbn in Hi, Hj.
      destruct i as [|[|i]]; destruct j as [|[|j]]; try lia; cbn; lra.
    + exists L, V. eexists. eexists. split; [exact Hld|].
      split; [exact HL|]. split; [exact HV|]. exact Hid.
Defined.
